(** * pg-magic: the SQL type analyzer of [src/lib/createTypeGenerator.ts]

    A shallow embedding of the analyzer (expression, FROM-clause and
    statement analysis, the formatter and the [generate] driver) together
    with the properties its specification states about it.

    Conventions of the embedding.
    - Plain JavaScript objects used as dictionaries ([Record<string, T>])
      are association lists in insertion order; [Js.keys] reproduces the
      order of [Object.keys] (array-index keys first, ascending, then the
      other keys in insertion order).  [Js.get] reads an own property:
      it is the source's [o[k]] for every [k] that is not a member of
      [Object.prototype] ([Js.inherited]); the statements that depend on
      a name not being found say so in a hypothesis.
    - The two objects the analyzer writes through a [Context] reference,
      [context.tables] and [context.tablesBySchema], live in a store
      ([heap]); a [Context] holds their addresses.  [clone] allocates fresh
      cells.  Every other object is written only while it is still local to
      the function that created it and is modelled as a value.
    - A thrown exception is the [Throw] outcome.  Reading a property of
      [undefined] is [TypeError].  The embedding follows the declared
      TypeScript types: at the two places where the source would go on
      with a value lacking a field its type requires (a scalar subquery
      with an empty projection, a VALUES list with rows of different
      lengths), the model stops with [TypeError].
    - The SQL parser and the pretty-printer are external; they are section
      variables, as are the type-family predicates of [./utilities] whose
      text is not part of the sources at hand. *)

From Stdlib Require Import ZArith NArith Ascii String List Bool Lia DecimalString.
From stdpp Require Import base list strings.
Import ListNotations.
Local Open Scope string_scope.
Local Open Scope list_scope.
#[local] Set Warnings "-register-all,-notation-for-abbreviation".

(** ** JavaScript runtime helpers *)

Module Js.

(** A dictionary object: own enumerable string keys in insertion order. *)
Definition obj (V : Type) : Type := list (string * V).

Section Obj.
Context {V : Type}.

Fixpoint get (k : string) (o : obj V) : option V :=
  match o with
  | [] => None
  | (k', v) :: r => if String.eqb k k' then Some v else get k r
  end.

(** [o[k] = v]: an existing key keeps its position. *)
Fixpoint set (k : string) (v : V) (o : obj V) : obj V :=
  match o with
  | [] => [(k, v)]
  | (k', v') :: r =>
      if String.eqb k k' then (k, v) :: r else (k', v') :: set k v r
  end.

Definition digitOf (c : ascii) : option N :=
  let n := N_of_ascii c in
  if ((48 <=? n) && (n <=? 57))%N then Some (n - 48)%N else None.

Fixpoint parseDigits (s : string) (acc : N) : option N :=
  match s with
  | EmptyString => Some acc
  | String c r =>
      match digitOf c with
      | Some d => parseDigits r (10 * acc + d)%N
      | None => None
      end
  end.

(** A key is an array index when it is the canonical decimal form of an
    integer below 2^32 - 1. *)
Definition arrayIndex (s : string) : option N :=
  match s with
  | EmptyString => None
  | String c r =>
      if andb (Ascii.eqb c "0"%char) (negb (String.eqb r "")) then None
      else
        match parseDigits s 0%N with
        | Some n => if (n <? 4294967295)%N then Some n else None
        | None => None
        end
  end.

Fixpoint insertIndex (n : N) (k : string) (l : list (N * string))
  : list (N * string) :=
  match l with
  | [] => [(n, k)]
  | (m, k') :: r =>
      if (n <=? m)%N then (n, k) :: l else (m, k') :: insertIndex n k r
  end.

Fixpoint indexKeys (ks : list string) : list (N * string) :=
  match ks with
  | [] => []
  | k :: r =>
      match arrayIndex k with
      | Some n => insertIndex n k (indexKeys r)
      | None => indexKeys r
      end
  end.

Definition isIndexKey (k : string) : bool :=
  match arrayIndex k with Some _ => true | None => false end.

(** [Object.keys(o)]. *)
Definition keys (o : obj V) : list string :=
  let ks := List.map fst o in
  List.map snd (indexKeys ks)
    ++ List.filter (fun k => negb (isIndexKey k)) ks.

(** [Object.keys(o).map(k => [k, o[k]])], the order in which
    [JSON.stringify] and object spread visit the properties. *)
Definition entries (o : obj V) : list (string * V) :=
  List.flat_map
    (fun k => match get k o with Some v => [(k, v)] | None => [] end)
    (keys o).

End Obj.

(** [array.includes(x)] on strings. *)
Definition includes (l : list string) (x : string) : bool :=
  List.existsb (String.eqb x) l.

(** [Array.from(new Set(array).values())]. *)
Fixpoint uniqueFrom (seen : list string) (l : list string) : list string :=
  match l with
  | [] => []
  | x :: r =>
      if includes seen x then uniqueFrom seen r
      else x :: uniqueFrom (x :: seen) r
  end.

(** [array.join(sep)]. *)
Fixpoint join (sep : string) (l : list string) : string :=
  match l with
  | [] => ""
  | [x] => x
  | x :: r => x +:+ sep +:+ join sep r
  end.

(** [n.toString(10)] for an integral number. *)
Definition toString (n : Z) : string :=
  NilZero.string_of_int (Z.to_int n).

(** Falsy strings: only the empty one. *)
Definition truthy (s : string) : bool := negb (String.eqb s "").

(** The members of [Object.prototype], which the read [o[k]] of a plain
    object finds when [o] has no property [k] of its own; the write
    [o.__proto__ = v] sets the prototype and makes no property. *)
Definition prototypeNames : list string :=
  [ "constructor"; "__defineGetter__"; "__defineSetter__";
    "hasOwnProperty"; "__lookupGetter__"; "__lookupSetter__";
    "isPrototypeOf"; "propertyIsEnumerable"; "toString"; "valueOf";
    "__proto__"; "toLocaleString" ].

Definition inherited (k : string) : bool := includes prototypeNames k.

End Js.

(** ** [src/lib/utilities] *)

Definition isNumber (typeName : string) : bool :=
  Js.includes
    [ "bigserial"; "decimal"; "float2"; "float4"; "float8"; "int2"; "int4";
      "int8"; "serial"; "serial2"; "serial4"; "serial8"; "smallserial" ]
    typeName.

Definition isText (typeName : string) : bool :=
  Js.includes [ "bpchar"; "citext"; "text"; "varchar" ] typeName.

Definition unique (array : list string) : list string :=
  Js.uniqueFrom [] array.

(** ** The parse tree ([src/lib/pgsql-parser.d.ts]) *)

Inductive ConstVal : Type :=
| Integer (ival : Z)
| Float (str : string)
| Null
| String_ (str : string).

Inductive A_Expr_Kind : Type :=
| AEXPR_OP | AEXPR_OP_ANY | AEXPR_OP_ALL | AEXPR_IN | AEXPR_DISTINCT
| AEXPR_NOT_DISTINCT | AEXPR_NULLIF | AEXPR_LIKE | AEXPR_ILIKE
| AEXPR_SIMILAR | AEXPR_BETWEEN | AEXPR_NOT_BETWEEN | AEXPR_BETWEEN_SYM
| AEXPR_NOT_BETWEEN_SYM.

Inductive BoolExprType : Type := AND_EXPR | OR_EXPR | NOT_EXPR.

Inductive BoolTestType : Type :=
| IS_TRUE | IS_NOT_TRUE | IS_FALSE | IS_NOT_FALSE | IS_UNKNOWN
| IS_NOT_UNKNOWN.

Inductive JoinType : Type := JOIN_INNER | JOIN_LEFT | JOIN_FULL | JOIN_RIGHT.

Inductive MinMaxOp : Type := IS_GREATEST | IS_LEAST.

Inductive NullTestType : Type := IS_NULL | IS_NOT_NULL.

Inductive SQLValueFunctionOp : Type :=
| SVFOP_CURRENT_DATE | SVFOP_CURRENT_TIME | SVFOP_CURRENT_TIME_N
| SVFOP_CURRENT_TIMESTAMP | SVFOP_CURRENT_TIMESTAMP_N | SVFOP_LOCALTIME
| SVFOP_LOCALTIME_N | SVFOP_LOCALTIMESTAMP | SVFOP_LOCALTIMESTAMP_N
| SVFOP_CURRENT_ROLE | SVFOP_CURRENT_USER | SVFOP_USER | SVFOP_SESSION_USER
| SVFOP_CURRENT_CATALOG | SVFOP_CURRENT_SCHEMA.

Inductive SubLinkType : Type :=
| EXISTS_SUBLINK | ALL_SUBLINK | ANY_SUBLINK | ROWCOMPARE_SUBLINK
| EXPR_SUBLINK | MULTIEXPR_SUBLINK | ARRAY_SUBLINK.

(** An element of [ColumnRef.fields]: a [String] node or [A_Star]. *)
Inductive Field : Type :=
| FString (str : string)
| A_Star.

Record Alias : Type := mkAlias {
  aliasname : string;
  colnames : option (list string)
}.

Record TypeName : Type := mkTypeName {
  arrayBounds : option (list Z);
  names : option (list string)
}.

(** The payload of a [RangeVar] node, also the [relation] of the data
    modifying statements. *)
Record RangeVarT : Type := mkRangeVar {
  rv_alias : option Alias;
  relname : string;
  schemaname : option string
}.

Inductive Expression : Type :=
| A_ArrayExpr (elements : list Expression)
| A_Const (val : ConstVal)
| A_Expr (kind : A_Expr_Kind) (lexpr : option Expression)
         (name : list string) (rexpr : option Expression)
| A_Indirection (arg : Expression) (indirection : list A_Indices)
| BoolExpr (args : list Expression) (boolop : BoolExprType)
| BoolTest (arg : Expression) (booltesttype : BoolTestType)
| CaseExpr (args : list CaseWhen) (defresult : option Expression)
| CoalesceExpr (args : list Expression)
| ColumnRef (fields : list Field)
| FuncCall (funcname : list string) (args : list Expression)
           (agg_star : bool)
| List_ (items : list Expression)
| MinMaxExpr (op : MinMaxOp) (args : list Expression)
| NullTest (arg : Expression) (nulltesttype : NullTestType)
| ParamRef (number : Z)
| SQLValueFunction (op : SQLValueFunctionOp)
| SubLink (subLinkType : SubLinkType) (subselect : SelectStmt)
          (testexpr : option Expression) (operName : option (list string))
| TypeCast (arg : Expression) (typeName : TypeName)
with A_Indices : Type :=
| mkA_Indices (is_slice : bool) (lidx uidx : option Expression)
with CaseWhen : Type :=
| mkCaseWhen (expr result : Expression)
with ResTarget : Type :=
| mkResTarget (name : option string) (location : Z) (val : Expression)
with SelectStmt : Type :=
| SelectPlain (targetList : option (list ResTarget))
              (fromClause : option (list FromItem))
              (withClause : option (list CommonTableExpr))
| SelectSetOp (larg rarg : SelectStmt)
| SelectValues (valuesLists : list (list Expression))
with FromItem : Type :=
| JoinExpr (jointype : JoinType) (larg rarg : FromItem)
| RangeVar (rv : RangeVarT)
| RangeSubselect (alias : Alias) (subquery : SelectStmt)
with CommonTableExpr : Type :=
| mkCommonTableExpr (ctename : string) (aliascolnames : option (list string))
                    (ctequery : Stmt)
with Stmt : Type :=
| DeleteStmt (relation : RangeVarT) (returningList : option (list ResTarget))
| InsertStmt (relation : RangeVarT) (returningList : option (list ResTarget))
| SelectStmt_ (stmt : SelectStmt)
| UpdateStmt (relation : RangeVarT) (returningList : option (list ResTarget)).

Record RawStmt : Type := mkRawStmt { raw_stmt : Stmt }.

(** ** Analysis values ([src/lib/types.ts]) *)

Record Column : Type := mkColumn {
  col_nullable : bool;
  col_type : string
}.

Record Table : Type := mkTable {
  tbl_columns : Js.obj Column;
  tbl_nullable : bool
}.

(** [context.tables]: an entry may hold [undefined] (a data modifying
    statement binds whatever the catalog lookup returned). *)
Definition Tables : Type := Js.obj (option Table).

Definition TablesBySchema : Type := Js.obj (Js.obj Table).

Inductive ParsedExpression : Type := mkParsedExpression {
  pe_constantValue : option string;
  pe_name : option string;
  pe_nullable : bool;
  pe_set : option (list ParsedExpression);
  pe_type : string;
  pe_types : option (list ParsedExpression)
}.

(** A [ParsedResultTarget] is a [ParsedExpression] whose name is set. *)
Definition ParsedResultTarget : Type := ParsedExpression.

Record ParsedTable : Type := mkParsedTable {
  pt_alias : string;
  pt_columns : Js.obj Column;
  pt_nullable : bool
}.

(** The object literal [{ nullable, type }]. *)
Definition expr (nullable : bool) (type : string) : ParsedExpression :=
  mkParsedExpression None None nullable None type None.

(** ** Errors *)

Inductive error : Type :=
| Error (message : string)
    (* [new Error(message)] for the "not currently supported" messages *)
| UnknownTable (name : string)
    (* [Unable to find table "<name>".] *)
| UnknownColumn (fields : list Field)
    (* [Unable to find column "<deparse(columnRef)>".] *)
| MissingAlias (val : Expression)
    (* [Alias not provided for result target "<deparse([val])>".] *)
| TypeError
    (* a property read of [undefined], or a call of a non-function *)
| External (detail : string).
    (* whatever the parser or the pretty-printer threw *)

Inductive outcome (A : Type) : Type :=
| Ok (a : A)
| Throw (e : error).
Arguments Ok {A} a.
Arguments Throw {A} e.

(** ** The store and the analysis monad *)

Definition loc : Type := nat.

Record heap : Type := mkHeap {
  tablesCells : list Tables;
  catalogCells : list TablesBySchema
}.

Record Context : Type := mkContext {
  tables : loc;
  defaultSchema : string;
  fallbackType : string;
  formatFunc : option (string -> string -> string);
  mapType : option (string -> string);
  tablesBySchema : loc
}.

Definition M (A : Type) : Type := heap -> outcome A * heap.

Definition ret {A} (a : A) : M A := fun h => (Ok a, h).

Definition throw {A} (e : error) : M A := fun h => (Throw e, h).

Definition bind {A B} (m : M A) (f : A -> M B) : M B :=
  fun h =>
    match m h with
    | (Ok a, h') => f a h'
    | (Throw e, h') => (Throw e, h')
    end.

Notation "x <- m ;; k" := (bind m (fun x => k))
  (at level 90, m at level 89, right associativity).
Notation "m ;;; k" := (bind m (fun _ => k))
  (at level 90, right associativity).

(** A value the types declare as present. *)
Definition defined {A} (o : option A) : M A :=
  match o with
  | Some a => ret a
  | None => throw TypeError
  end.

Definition lift {A} (o : outcome A) : M A :=
  match o with
  | Ok a => ret a
  | Throw e => throw e
  end.

Definition readTables (l : loc) : M Tables :=
  fun h => (Ok (List.nth l (tablesCells h) []), h).

Definition readCatalog (l : loc) : M TablesBySchema :=
  fun h => (Ok (List.nth l (catalogCells h) []), h).

Definition writeTables (l : loc) (t : Tables) : M unit :=
  fun h => (Ok tt, mkHeap (<[l := t]> (tablesCells h)) (catalogCells h)).

Definition writeCatalog (l : loc) (c : TablesBySchema) : M unit :=
  fun h => (Ok tt, mkHeap (tablesCells h) (<[l := c]> (catalogCells h))).

Definition allocTables (t : Tables) : M loc :=
  fun h =>
    (Ok (length (tablesCells h)),
     mkHeap (tablesCells h ++ [t]) (catalogCells h)).

Definition allocCatalog (c : TablesBySchema) : M loc :=
  fun h =>
    (Ok (length (catalogCells h)),
     mkHeap (tablesCells h) (catalogCells h ++ [c])).

(** [array.map(f)] where [f] may have effects or throw. *)
Definition mapM {A B} (f : A -> M B) : list A -> M (list B) :=
  fix go (l : list A) : M (list B) :=
    match l with
    | [] => ret []
    | x :: r => y <- f x ;; ys <- go r ;; ret (y :: ys)
    end.

(** [array.some(f)], which stops at the first [true]. *)
Definition someM {A} (f : A -> M bool) : list A -> M bool :=
  fix go (l : list A) : M bool :=
    match l with
    | [] => ret false
    | x :: r => b <- f x ;; if b then ret true else go r
    end.

(** [array.reduce(f, init)]. *)
Definition foldM {A B} (f : B -> A -> M B) : list A -> B -> M B :=
  fix go (l : list A) (acc : B) : M B :=
    match l with
    | [] => ret acc
    | x :: r => acc' <- f acc x ;; go r acc'
    end.

(** [clone]: [JSON.parse(JSON.stringify(object))].  Properties holding
    [undefined] or a function are dropped; keys come back in the order
    [JSON.stringify] visits them. *)
Definition cloneColumns (c : Js.obj Column) : Js.obj Column := Js.entries c.

Definition cloneTable (t : Table) : Table :=
  mkTable (cloneColumns (tbl_columns t)) (tbl_nullable t).

Definition cloneTables (t : Tables) : Tables :=
  List.flat_map
    (fun kv =>
       match snd kv with
       | Some tbl => [(fst kv, Some (cloneTable tbl))]
       | None => []
       end)
    (Js.entries t).

Definition cloneSchema (s : Js.obj Table) : Js.obj Table :=
  List.map (fun kv => (fst kv, cloneTable (snd kv))) (Js.entries s).

Definition cloneCatalog (c : TablesBySchema) : TablesBySchema :=
  List.map (fun kv => (fst kv, cloneSchema (snd kv))) (Js.entries c).

Definition clone (context : Context) : M Context :=
  t <- readTables (tables context) ;;
  c <- readCatalog (tablesBySchema context) ;;
  lt <- allocTables (cloneTables t) ;;
  lc <- allocCatalog (cloneCatalog c) ;;
  ret (mkContext lt (defaultSchema context) (fallbackType context)
         None None lc).

(** ** Small helpers shared by the analyzer *)

(** The double quote character, as a one-character string. *)
Definition dquote : string := String (ascii_of_nat 34) EmptyString.

(** [array[array.length - 1]]. *)
Fixpoint lastOf {A} (l : list A) : option A :=
  match l with
  | [] => None
  | [x] => Some x
  | _ :: r => lastOf r
  end.

(** [tables[name]], where a stored [undefined] reads like a missing key. *)
Definition lookupTable (name : string) (tables : Tables) : option Table :=
  match Js.get name tables with
  | Some (Some t) => Some t
  | _ => None
  end.

(** [field.String.str]: a [TypeError] when the node is not a [String]. *)
Definition fieldStr (f : option Field) : outcome string :=
  match f with
  | Some (FString s) => Ok s
  | _ => Throw TypeError
  end.

Definition isStar (f : Field) : bool :=
  match f with A_Star => true | FString _ => false end.

Definition notSupported (what : string) : error :=
  Error ("Parsing " +:+ what +:+ " is not currently supported.").

(** Errors of pure code. *)
Definition obind {A B} (o : outcome A) (f : A -> outcome B) : outcome B :=
  match o with
  | Ok a => f a
  | Throw e => Throw e
  end.

Definition req {A} (o : option A) : outcome A :=
  match o with
  | Some a => Ok a
  | None => Throw TypeError
  end.

(** [lexpr.nullable || rexpr.nullable] *)
Definition orNullable (lexpr rexpr : option ParsedExpression) : outcome bool :=
  obind (req lexpr) (fun l =>
    if pe_nullable l then Ok true
    else obind (req rexpr) (fun r => Ok (pe_nullable r))).

(** [(lexpr ? lexpr.nullable : false) || rexpr.nullable] *)
Definition orNullableOpt (lexpr rexpr : option ParsedExpression)
  : outcome bool :=
  if match lexpr with Some l => pe_nullable l | None => false end
  then Ok true
  else obind (req rexpr) (fun r => Ok (pe_nullable r)).

Definition typeOf (e : option ParsedExpression) : outcome string :=
  obind (req e) (fun x => Ok (pe_type x)).

Section Analyzer.

(** The type-family predicates of [./utilities] other than [isNumber]
    and [isText], and [getElementType]. *)
Variables isArray isBit isJson isTime isTimestamp : string -> bool.
Variable getElementType : string -> string.

(** *** Expression analysis, open in its recursive calls *)

Section Expressions.

Variable parseExpression : Expression -> Context -> M ParsedExpression.
(** [parseStmt] applied to a [SelectStmt] node. *)
Variable parseSelectStmt :
  SelectStmt -> Context -> M (list ParsedResultTarget).

(** [parseExpression(args[i], context)] for [i] = 0, 1; the call on
    [undefined] fails in [getFirstKey]. *)
Definition parseArg0 (args : list Expression) (context : Context)
  : M ParsedExpression :=
  match args with
  | a :: _ => parseExpression a context
  | [] => throw TypeError
  end.

Definition parseArg1 (args : list Expression) (context : Context)
  : M ParsedExpression :=
  match args with
  | _ :: a :: _ => parseExpression a context
  | _ => throw TypeError
  end.

(** [args.some((arg) => parseExpression(arg, context).nullable)] *)
Definition someNullable (args : list Expression) (context : Context)
  : M bool :=
  someM (fun arg => e <- parseExpression arg context ;; ret (pe_nullable e))
        args.

Definition parseAArrayExpr (elements : list Expression)
  (context : Context) : M ParsedExpression :=
  e <- parseArg0 elements context ;;
  ret (expr false (pe_type e +:+ "[]")).

Definition parseAConst (val : ConstVal) : ParsedExpression :=
  match val with
  | Integer ival =>
      mkParsedExpression (Some (Js.toString ival)) None false None
                         "int4" None
  | Float str =>
      mkParsedExpression (Some str) None false None "float4" None
  | Null => expr true "null"
  | String_ str =>
      mkParsedExpression (Some (dquote +:+ str +:+ dquote)) None false None
                         "text" None
  end.

(** The [switch (name)] of the [AEXPR_OP] case, on the analyzed
    operands. *)
Definition plusType (lexpr : option ParsedExpression)
  (rexpr : ParsedExpression) : string :=
  let rt := pe_type rexpr in
  match lexpr with
  | None => rt
  | Some l =>
      let lt := pe_type l in
      if String.eqb lt "date" then
        if isNumber rt then "date"
        else if isTime rt || String.eqb rt "interval" then "timestamp"
        else rt
      else if String.eqb rt "date" then
        if isNumber lt then "date"
        else if isTime lt || String.eqb lt "interval" then "timestamp"
        else rt
      else if String.eqb lt "interval" then
        if isTimestamp rt || isTime rt then rt else rt
      else if String.eqb rt "interval" then
        if isTimestamp lt || isTime lt then lt else rt
      else rt
  end.

Definition minusType (lexpr : option ParsedExpression)
  (rexpr : ParsedExpression) : string :=
  let rt := pe_type rexpr in
  match lexpr with
  | None => rt
  | Some l =>
      let lt := pe_type l in
      if isJson lt then lt
      else if String.eqb lt "date" && String.eqb rt "date" then "int4"
      else if String.eqb lt "date" && isNumber rt then "date"
      else if String.eqb lt "date" && String.eqb rt "interval"
      then "timestamp"
      else if isTime lt && isTime rt then "interval"
      else if isTime lt && String.eqb rt "interval" then lt
      else if isTimestamp lt && String.eqb rt "interval" then lt
      else if isTimestamp lt && isTimestamp rt then "interval"
      else rt
  end.

Definition parseOperator (name : string)
  (lexpr rexpr : option ParsedExpression) : outcome ParsedExpression :=
  let oneOf := Js.includes in
  if String.eqb name "+" then
    obind (req rexpr) (fun r =>
    let type := plusType lexpr r in
    obind (orNullableOpt lexpr rexpr) (fun n => Ok (expr n type)))
  else if String.eqb name "-" then
    obind (req rexpr) (fun r =>
    let type := minusType lexpr r in
    obind (orNullableOpt lexpr rexpr) (fun n => Ok (expr n type)))
  else if String.eqb name "*" then
    obind (req rexpr) (fun r =>
    obind (req lexpr) (fun l =>
    let type :=
      if String.eqb (pe_type l) "interval" && isNumber (pe_type r)
      then "interval"
      else if String.eqb (pe_type r) "interval" && isNumber (pe_type l)
      then "interval"
      else pe_type r in
    obind (orNullable lexpr rexpr) (fun n => Ok (expr n type))))
  else if String.eqb name "/" then
    obind (orNullable lexpr rexpr) (fun n =>
    obind (req lexpr) (fun l =>
    obind (req rexpr) (fun r =>
    Ok (expr n
          (if String.eqb (pe_type l) "interval" && isNumber (pe_type r)
           then "interval" else pe_type r)))))
  else if oneOf [">>"; "<<"] name then
    obind (orNullable lexpr rexpr) (fun n =>
    obind (req rexpr) (fun r =>
    if isNumber (pe_type r)
    then obind (req lexpr) (fun l => Ok (expr n (pe_type l)))
    else Ok (expr n "bool")))
  else if String.eqb name "~" then
    obind (orNullableOpt lexpr rexpr) (fun n =>
    obind (req rexpr) (fun r =>
    Ok (expr n (if isNumber (pe_type r) || isBit (pe_type r)
                then pe_type r else "bool"))))
  else if String.eqb name "||" then
    obind (req lexpr) (fun l =>
    obind
      (if isArray (pe_type l) then Ok (pe_type l)
       else obind (req rexpr) (fun r =>
            if isArray (pe_type r) then Ok (pe_type r)
            else if isText (pe_type l) then Ok (pe_type l)
            else Ok (pe_type r)))
      (fun type =>
    obind (orNullable lexpr rexpr) (fun n =>
    Ok (mkParsedExpression None None n None type None))))
  else if oneOf [ "<"; "<="; ">"; ">="; "<>"; "!="; "="; "@>"; "<@"; "?";
               "?|"; "?&"; "@?"; "@@"; "&&"; "&<"; "&>"; "-|-"; "~*";
               "!~"; "!~*" ] name then
    obind (orNullable lexpr rexpr) (fun n => Ok (expr n "bool"))
  else if oneOf [ "&"; "|"; "#"; "->"; "#>"; "#-" ] name then
    obind (orNullable lexpr rexpr) (fun n =>
    obind (req lexpr) (fun l => Ok (expr n (pe_type l))))
  else if oneOf [ "->>"; "#>>" ] name then
    obind (orNullable lexpr rexpr) (fun n => Ok (expr n "text"))
  else if oneOf [ "%"; "^"; "|/"; "||/"; "@" ] name then
    obind (orNullableOpt lexpr rexpr) (fun n =>
    obind (req rexpr) (fun r => Ok (expr n (pe_type r))))
  else
    Throw (notSupported ("operator " +:+ dquote +:+ name +:+ dquote)).

(** [expression.x && parseExpression(expression.x, context)] *)
Definition parseOptional (e : option Expression) (context : Context)
  : M (option ParsedExpression) :=
  match e with
  | Some x => r <- parseExpression x context ;; ret (Some r)
  | None => ret None
  end.

(** [parseExpression(expression.x, context)] where [x] may be missing:
    the call on [undefined] fails in [getFirstKey]. *)
Definition parseRequired (e : option Expression) (context : Context)
  : M ParsedExpression :=
  match e with
  | Some x => parseExpression x context
  | None => throw TypeError
  end.

Definition parseAExpr (kind : A_Expr_Kind) (lexpr : option Expression)
  (name : list string) (rexpr : option Expression) (context : Context)
  : M ParsedExpression :=
  match kind with
  | AEXPR_OP =>
      opname <- defined (lastOf name) ;;
      l <- parseOptional lexpr context ;;
      r <- parseOptional rexpr context ;;
      lift (parseOperator opname l r)
  | AEXPR_OP_ANY | AEXPR_OP_ALL | AEXPR_IN | AEXPR_LIKE | AEXPR_ILIKE
  | AEXPR_SIMILAR | AEXPR_BETWEEN | AEXPR_NOT_BETWEEN
  | AEXPR_BETWEEN_SYM | AEXPR_NOT_BETWEEN_SYM =>
      l <- parseRequired lexpr context ;;
      n <- (if pe_nullable l then ret true
            else r <- parseRequired rexpr context ;;
                 ret (pe_nullable r)) ;;
      ret (expr n "bool")
  | AEXPR_DISTINCT | AEXPR_NOT_DISTINCT => ret (expr false "bool")
  | AEXPR_NULLIF =>
      l <- parseRequired lexpr context ;;
      ret (mkParsedExpression (pe_constantValue l) (pe_name l) true
             (pe_set l) (pe_type l) (pe_types l))
  end.

(** [x ? parseExpression(x, context).nullable : false] *)
Definition nullableOf (e : option Expression) (context : Context)
  : M bool :=
  match e with
  | Some x => r <- parseExpression x context ;; ret (pe_nullable r)
  | None => ret false
  end.

Definition parseAIndirection (arg : Expression)
  (indirection : list A_Indices) (context : Context)
  : M ParsedExpression :=
  a <- parseExpression arg context ;;
  let nullable := pe_nullable a in
  let type := pe_type a in
  if isArray type then
    if Nat.ltb 1 (List.length indirection) then
      throw (notSupported
               "subscript expressions for multidimensional arrays")
    else
      match indirection with
      | [] => throw TypeError
      | mkA_Indices isSlice lidx uidx :: _ =>
          if isSlice then
            n <- (if nullable then ret true
                  else nl <- nullableOf lidx context ;;
                       if nl then ret true
                       else nullableOf uidx context) ;;
            ret (expr n type)
          else ret (expr true (getElementType type))
      end
  else if isJson type then ret (expr true "any")
  else
    throw (notSupported
             ("subscript expressions with type " +:+ dquote +:+ type
              +:+ dquote)).

Definition parseBoolExpr (args : list Expression) (context : Context)
  : M ParsedExpression :=
  expressions <- mapM (fun arg => parseExpression arg context) args ;;
  ret (expr (List.existsb pe_nullable expressions) "bool").

Definition parseBoolTest : ParsedExpression := expr false "bool".

Definition parseCaseExpr (args : list CaseWhen)
  (defresult : option Expression) (context : Context)
  : M ParsedExpression :=
  results <-
    mapM (fun arg =>
            match arg with
            | mkCaseWhen _ result => parseExpression result context
            end) args ;;
  defaultResult <- parseOptional defresult context ;;
  let possibleResults :=
    match defaultResult with
    | Some d => results ++ [d]
    | None => results
    end in
  let nullable :=
    match defaultResult with
    | None => true
    | Some _ => List.existsb pe_nullable possibleResults
    end in
  first <- defined (List.head results) ;;
  ret (mkParsedExpression None None nullable None (pe_type first)
         (Some possibleResults)).

(** The [for ... of args] loop of [parseCoalesceExpr], which pushes
    each analyzed argument and breaks after the first non-nullable
    one. *)
Definition collectCoalesce (context : Context)
  : list Expression -> M (list ParsedExpression) :=
  fix go (args : list Expression) : M (list ParsedExpression) :=
    match args with
    | [] => ret []
    | arg :: rest =>
        expression <- parseExpression arg context ;;
        if negb (pe_nullable expression) then ret [expression]
        else types <- go rest ;; ret (expression :: types)
    end.

Definition parseCoalesceExpr (args : list Expression) (context : Context)
  : M ParsedExpression :=
  types <- collectCoalesce context args ;;
  first <- defined (List.head types) ;;
  ret (mkParsedExpression None None (List.forallb pe_nullable types) None
         (pe_type first) (Some types)).

(** The [for (const tableName of Object.keys(tables))] loop of
    [parseColumnRef]: the first table, in key order, that has the
    column. *)
Fixpoint findColumn (column : string) (tables : Tables)
  (tableNames : list string) : outcome (option Column) :=
  match tableNames with
  | [] => Ok None
  | tableName :: rest =>
      match lookupTable tableName tables with
      | None => Throw TypeError
      | Some table =>
          match Js.get column (tbl_columns table) with
          | Some maybeColumn => Ok (Some maybeColumn)
          | None => findColumn column tables rest
          end
      end
  end.

(** The tail of [parseColumnRef]: fail on a missing column, else
    [{ ...column, name }]. *)
Definition resolved (fields : list Field) (name : string)
  (column : option Column) : M ParsedExpression :=
  match column with
  | None => throw (UnknownColumn fields)
  | Some c =>
      ret (mkParsedExpression None (Some name) (col_nullable c) None
             (col_type c) None)
  end.

Definition parseColumnRef (fields : list Field) (context : Context)
  : M ParsedExpression :=
  tables <- readTables (tables context) ;;
  if Nat.ltb 2 (List.length fields) then
    throw (notSupported "fully qualified column names")
  else
    match fields with
    | [f0; f1] =>
        if isStar f1 then
          t <- lift (fieldStr (Some f0)) ;;
          ret (mkParsedExpression None (Some EmptyString)
                 match lookupTable t tables with
                 | Some table => tbl_nullable table
                 | None => true
                 end
                 None "any" None)
        else
          t <- lift (fieldStr (Some f0)) ;;
          match lookupTable t tables with
          | None => resolved fields EmptyString None
          | Some table =>
              c <- lift (fieldStr (Some f1)) ;;
              resolved fields c (Js.get c (tbl_columns table))
          end
    | [f0] =>
        if isStar f0 then
          ret (mkParsedExpression None (Some EmptyString) false None
                 "any" None)
        else
          c <- lift (fieldStr (Some f0)) ;;
          column <- lift (findColumn c tables (Js.keys tables)) ;;
          resolved fields c column
    | _ => throw TypeError
    end.

Definition sameShapeFunctions : list string :=
  [ "abs"; "acos"; "acosd"; "acosh"; "asin"; "asind"; "asinh"; "atan";
    "atan2"; "atan2d"; "atand"; "atanh"; "bit_and"; "bit_or"; "bit_xor";
    "btrim"; "cbrt"; "ceil"; "ceiling"; "convert"; "cos"; "cosd"; "cosh";
    "cot"; "cotd"; "degrees"; "div"; "exp"; "factorial"; "floor";
    "format"; "gcd"; "initcap"; "lcm"; "left"; "ln"; "log"; "log10";
    "lower"; "lpad"; "ltrim"; "max"; "md5"; "min"; "mod"; "normalize";
    "overlay"; "power"; "quote_ident"; "radians"; "regexp_replace";
    "repeat"; "replace"; "reverse"; "right"; "round"; "rpad"; "rtrim";
    "set_bit"; "set_byte"; "sha224"; "sha256"; "sha384"; "sha512";
    "sign"; "sin"; "sind"; "sinh"; "split_part"; "sqrt"; "string_agg";
    "substr"; "substring"; "sum"; "tan"; "tand"; "tanh"; "to_ascii";
    "translate"; "trim"; "trim_scale"; "trunc"; "unistr"; "upper" ].

Definition int4Functions : list string :=
  [ "array_length"; "array_lower"; "array_ndims"; "array_upper"; "ascii";
    "bit_length"; "cardinality"; "char_length"; "character_length";
    "chr"; "get_bit"; "get_byte"; "length"; "min_scale"; "ntile";
    "octet_length"; "position"; "scale"; "strpos"; "width_bucket" ].

Definition textFunctions : list string :=
  [ "array_dims"; "array_to_string"; "concat"; "concat_ws";
    "convert_from"; "encode"; "quote_literal"; "quote_nullable";
    "to_char"; "to_hex" ].

(** [{ nullable: args.some(...), type }] *)
Definition anyNullable (type : string) (args : list Expression)
  (context : Context) : M ParsedExpression :=
  n <- someNullable args context ;; ret (expr n type).

Definition parseFuncCall (funcname : list string)
  (args : list Expression) (context : Context) : M ParsedExpression :=
  functionName <- defined (lastOf funcname) ;;
  let oneOf names := Js.includes names functionName in
  if oneOf sameShapeFunctions then
    n <- someNullable args context ;;
    a <- parseArg0 args context ;;
    ret (expr n (pe_type a))
  else if oneOf [ "array_append"; "array_cat"; "array_remove";
                  "array_replace" ] then
    a <- parseArg0 args context ;;
    b <- parseArg0 args context ;;
    ret (expr (pe_nullable a) (pe_type b))
  else if oneOf [ "date_trunc" ] then
    n <- someNullable args context ;;
    a <- parseArg1 args context ;;
    ret (expr n (pe_type a))
  else if oneOf [ "array_prepend" ] then
    a <- parseArg1 args context ;;
    b <- parseArg1 args context ;;
    ret (expr (pe_nullable a) (pe_type b))
  else if oneOf [ "format" ] then
    a <- parseArg0 args context ;;
    ret (expr (pe_nullable a) (pe_type a))
  else if oneOf [ "avg" ] then
    a <- parseArg0 args context ;;
    let type := pe_type a in
    ret (expr (pe_nullable a)
           (if Js.includes [ "interval"; "float8" ] type then type
            else if String.eqb type "float4" then "float8"
            else "numeric"))
  else if oneOf [ "bool_and"; "bool_or"; "every"; "isfinite";
                  "starts_with" ] then
    anyNullable "bool" args context
  else if oneOf [ "convert_to"; "decode" ] then
    anyNullable "bytea" args context
  else if oneOf [ "make_date"; "to_date" ] then
    anyNullable "date" args context
  else if oneOf [ "date_part" ] then
    anyNullable "float8" args context
  else if oneOf [ "cume_dist"; "percent_rank"; "pi"; "random" ] then
    ret (expr false "float8")
  else if oneOf int4Functions then
    anyNullable "int4" args context
  else if oneOf [ "array_position" ] then
    ret (expr true "int4")
  else if oneOf [ "num_nonnulls"; "num_nulls" ] then
    ret (expr false "int4")
  else if oneOf [ "array_positions" ] then
    a <- parseArg0 args context ;;
    ret (expr (pe_nullable a) "int4[]")
  else if oneOf [ "bit_count" ] then
    anyNullable "int8" args context
  else if oneOf [ "count"; "currval"; "dense_rank"; "lastval";
                  "nextval"; "rank"; "row_number"; "setval" ] then
    ret (expr false "int8")
  else if oneOf [ "age"; "justify_days"; "justify_hours";
                  "justify_interval"; "make_interval" ] then
    anyNullable "interval" args context
  else if oneOf [ "extract"; "to_number" ] then
    anyNullable "numeric" args context
  else if oneOf textFunctions then
    anyNullable "text" args context
  else if oneOf [ "timeofday" ] then
    ret (expr false "text")
  else if oneOf [ "parse_ident"; "regexp_match";
                  "regexp_split_to_array" ] then
    anyNullable "text[]" args context
  else if oneOf [ "string_to_array" ] then
    a <- parseArg0 args context ;;
    ret (expr (pe_nullable a) "text[]")
  else if oneOf [ "make_time" ] then
    anyNullable "time" args context
  else if oneOf [ "date_bin"; "make_timestamp" ] then
    anyNullable "timestamp" args context
  else if oneOf [ "make_timestamptz"; "to_timestamp" ] then
    anyNullable "timestamptz" args context
  else if oneOf [ "clock_timestamp"; "now"; "statement_timestamp";
                  "transaction_timestamp" ] then
    ret (expr false "timestamptz")
  else if oneOf [ "gen_random_uuid" ] then
    ret (expr false "uuid")
  else if oneOf [ "array_fill" ] then
    a <- parseArg0 args context ;;
    ret (expr false (getElementType (pe_type a) +:+ "[]"))
  else if oneOf [ "similar_to_escape" ] then
    ret (expr false "text")
  else
    ret (expr true "any").

Definition parseList (items : list Expression) (context : Context)
  : M ParsedExpression :=
  expressions <- mapM (fun item => parseExpression item context) items ;;
  first <- defined (List.head expressions) ;;
  ret (mkParsedExpression None None
         (List.existsb pe_nullable expressions) None (pe_type first)
         (Some expressions)).

Definition parseMinMaxExpr (args : list Expression) (context : Context)
  : M ParsedExpression :=
  types <- mapM (fun arg => parseExpression arg context) args ;;
  let nullable := List.forallb pe_nullable types in
  first <- defined (List.head types) ;;
  ret (expr nullable (pe_type first)).

Definition parseNullTest : ParsedExpression := expr false "bool".

Definition parseParamRef : ParsedExpression := expr true "any".

Definition parseSQLValueFunction (op : SQLValueFunctionOp)
  : ParsedExpression :=
  let nullable := false in
  match op with
  | SVFOP_CURRENT_DATE => expr nullable "date"
  | SVFOP_CURRENT_TIME | SVFOP_CURRENT_TIME_N | SVFOP_LOCALTIME
  | SVFOP_LOCALTIME_N => expr nullable "timetz"
  | SVFOP_CURRENT_TIMESTAMP | SVFOP_CURRENT_TIMESTAMP_N
  | SVFOP_LOCALTIMESTAMP | SVFOP_LOCALTIMESTAMP_N =>
      expr nullable "timestamptz"
  | SVFOP_CURRENT_ROLE | SVFOP_CURRENT_USER | SVFOP_USER
  | SVFOP_SESSION_USER | SVFOP_CURRENT_CATALOG | SVFOP_CURRENT_SCHEMA =>
      expr nullable "text"
  end.

(** For a scalar subquery with an empty projection the source spreads
    [undefined] and returns [{ nullable: true }], which has no [type]
    and is not a value of the declared type; the model throws a
    [TypeError] there. *)
Definition parseSubLink (subLinkType : SubLinkType)
  (subselect : SelectStmt) (context : Context) : M ParsedExpression :=
  match subLinkType with
  | ALL_SUBLINK | ANY_SUBLINK => ret (expr true "bool")
  | ARRAY_SUBLINK =>
      targets <- parseSelectStmt subselect context ;;
      first <- defined (List.head targets) ;;
      ret (expr false (pe_type first +:+ "[]"))
  | EXISTS_SUBLINK | ROWCOMPARE_SUBLINK => ret (expr false "bool")
  | EXPR_SUBLINK =>
      targets <- parseSelectStmt subselect context ;;
      expression <- defined (List.head targets) ;;
      ret (mkParsedExpression (pe_constantValue expression)
             (pe_name expression) true (pe_set expression)
             (pe_type expression) (pe_types expression))
  | MULTIEXPR_SUBLINK => ret (expr false "any")
  end.

Definition parseTypeCast (arg : Expression) (typeName : TypeName)
  (context : Context) : M ParsedExpression :=
  a <- parseExpression arg context ;;
  let constantValue := pe_constantValue a in
  let nullable := pe_nullable a in
  type <- match names typeName with
          | Some ns => defined (lastOf ns)
          | None => ret (fallbackType context)
          end ;;
  let t := dquote +:+ "t" +:+ dquote in
  let f := dquote +:+ "f" +:+ dquote in
  match constantValue with
  | Some cv =>
      if Js.truthy cv && Js.includes [ t; f ] cv && String.eqb type "bool"
      then
        ret (mkParsedExpression
               (Some (if String.eqb cv t then "true" else "false"))
               None nullable None "bool" None)
      else
        match arrayBounds typeName with
        | Some _ => ret (expr nullable (type +:+ "[]"))
        | None =>
            ret (mkParsedExpression constantValue None nullable None
                   type None)
        end
  | None =>
      match arrayBounds typeName with
      | Some _ => ret (expr nullable (type +:+ "[]"))
      | None => ret (expr nullable type)
      end
  end.

(** The [switch (nodeType)] of [parseExpression]. *)
Definition parseExpressionBody (expression : Expression)
  (context : Context) : M ParsedExpression :=
  match expression with
  | A_ArrayExpr elements => parseAArrayExpr elements context
  | A_Const val => ret (parseAConst val)
  | A_Expr kind lexpr name rexpr =>
      parseAExpr kind lexpr name rexpr context
  | A_Indirection arg indirection =>
      parseAIndirection arg indirection context
  | BoolExpr args _ => parseBoolExpr args context
  | BoolTest _ _ => ret parseBoolTest
  | CaseExpr args defresult => parseCaseExpr args defresult context
  | CoalesceExpr args => parseCoalesceExpr args context
  | ColumnRef fields => parseColumnRef fields context
  | FuncCall funcname args _ => parseFuncCall funcname args context
  | List_ items => parseList items context
  | MinMaxExpr _ args => parseMinMaxExpr args context
  | NullTest _ _ => ret parseNullTest
  | ParamRef _ => ret parseParamRef
  | SQLValueFunction op => ret (parseSQLValueFunction op)
  | SubLink subLinkType subselect _ _ =>
      parseSubLink subLinkType subselect context
  | TypeCast arg typeName => parseTypeCast arg typeName context
  end.

End Expressions.

(** *** Target lists, FROM clauses and statements, open in their
    recursive calls *)

Section Statements.

Variable parseExpression : Expression -> Context -> M ParsedExpression.
Variable parseSelectStmt :
  SelectStmt -> Context -> M (list ParsedResultTarget).
Variable parseFromItem :
  FromItem -> list ParsedTable -> Context -> bool -> M (list ParsedTable).
Variable parseStmt : Stmt -> Context -> M (list ParsedResultTarget).

(** [{ ...table.columns[columnName], name: columnName }] *)
Definition columnTarget (columnName : string) (column : Column)
  : ParsedResultTarget :=
  mkParsedExpression None (Some columnName) (col_nullable column) None
                     (col_type column) None.

(** The inner [for (const columnName of Object.keys(table.columns))]
    loop of the star expansions, on the [Map] accumulator. *)
Definition expandColumns (table : Table)
  (acc : Js.obj ParsedResultTarget) : Js.obj ParsedResultTarget :=
  List.fold_left
    (fun acc kv => Js.set (fst kv) (columnTarget (fst kv) (snd kv)) acc)
    (Js.entries (tbl_columns table)) acc.

(** The expansion of a bare star: every table of the scope, in key
    order. *)
Fixpoint expandTables (tables : Tables) (tableNames : list string)
  (acc : Js.obj ParsedResultTarget)
  : outcome (Js.obj ParsedResultTarget) :=
  match tableNames with
  | [] => Ok acc
  | tableName :: rest =>
      match lookupTable tableName tables with
      | None => Throw TypeError
      | Some table => expandTables tables rest (expandColumns table acc)
      end
  end.

(** [name ?? parsedExpression.name] *)
Definition aliasOf (name : option string)
  (parsedExpression : ParsedExpression) : option string :=
  match name with
  | Some n => Some n
  | None => pe_name parsedExpression
  end.

(** One step of the [reduce] of [parseTargetList]. *)
Definition targetStep (context : Context)
  (acc : Js.obj ParsedResultTarget) (target : ResTarget)
  : M (Js.obj ParsedResultTarget) :=
  match target with
  | mkResTarget name _ val =>
      let other :=
        parsedExpression <- parseExpression val context ;;
        match aliasOf name parsedExpression with
        | Some alias =>
            if Js.truthy alias then
              ret (Js.set alias
                     (mkParsedExpression
                        (pe_constantValue parsedExpression) (Some alias)
                        (pe_nullable parsedExpression)
                        (pe_set parsedExpression)
                        (pe_type parsedExpression)
                        (pe_types parsedExpression))
                     acc)
            else throw (MissingAlias val)
        | None => throw (MissingAlias val)
        end in
      match val with
      | ColumnRef fields =>
          match fields with
          | [] => throw TypeError
          | f0 :: more =>
              if isStar f0 then
                tables <- readTables (tables context) ;;
                lift (expandTables tables (Js.keys tables) acc)
              else
                match more with
                | f1 :: _ =>
                    if isStar f1 then
                      tables <- readTables (tables context) ;;
                      tableName <- lift (fieldStr (Some f0)) ;;
                      match lookupTable tableName tables with
                      | None => throw (UnknownTable tableName)
                      | Some table => ret (expandColumns table acc)
                      end
                    else other
                | [] => other
                end
          end
      | _ => other
      end
  end.

Definition parseTargetList (targetList : list ResTarget)
  (context : Context) : M (list ParsedResultTarget) :=
  acc <- foldM (targetStep context) targetList [] ;;
  ret (List.map snd acc).

(** [parsedTable.nullable = true] *)
Definition markNullable (parsedTable : ParsedTable) : ParsedTable :=
  mkParsedTable (pt_alias parsedTable) (pt_columns parsedTable) true.

Definition parseJoinExpr (jointype : JoinType) (larg rarg : FromItem)
  (parsedTables : list ParsedTable) (context : Context)
  : M (list ParsedTable) :=
  parsedTables <- parseFromItem larg parsedTables context false ;;
  let parsedTables :=
    match jointype with
    | JOIN_RIGHT | JOIN_FULL => List.map markNullable parsedTables
    | _ => parsedTables
    end in
  parseFromItem rarg parsedTables context
    match jointype with
    | JOIN_LEFT | JOIN_FULL => true
    | _ => false
    end.

(** A result target's name used as a property key. *)
Definition keyOfName (name : option string) : string :=
  match name with
  | Some n => n
  | None => "undefined"
  end.

(** The [reduce] that turns result targets into the columns of a
    synthetic table; [colnames] is the optional list of column
    aliases. *)
Fixpoint columnsOf (colnames : list string)
  (targets : list ParsedResultTarget) (acc : Js.obj Column)
  : Js.obj Column :=
  match targets with
  | [] => acc
  | resultTarget :: rest =>
      let columnName :=
        match colnames with
        | c :: _ => c
        | [] => keyOfName (pe_name resultTarget)
        end in
      columnsOf (List.tl colnames) rest
        (Js.set columnName
           (mkColumn (pe_nullable resultTarget) (pe_type resultTarget))
           acc)
  end.

Definition parseRangeSubselect (alias : Alias) (subquery : SelectStmt)
  (parsedTables : list ParsedTable) (context : Context) (nullable : bool)
  : M (list ParsedTable) :=
  targets <- parseSelectStmt subquery context ;;
  let colnames :=
    match colnames alias with Some l => l | None => [] end in
  ret (parsedTables
         ++ [ mkParsedTable (aliasname alias)
                (columnsOf colnames targets []) nullable ]).

Definition parseRangeVar (rv : RangeVarT)
  (parsedTables : list ParsedTable) (context : Context) (nullable : bool)
  : M (list ParsedTable) :=
  catalog <- readCatalog (tablesBySchema context) ;;
  let schema :=
    match schemaname rv with
    | Some s => s
    | None => defaultSchema context
    end in
  let table :=
    match Js.get schema catalog with
    | Some tables => Js.get (relname rv) tables
    | None => None
    end in
  let name :=
    match rv_alias rv with
    | Some a => aliasname a
    | None => relname rv
    end in
  match table with
  | None => throw (UnknownTable name)
  | Some table =>
      ret (parsedTables
             ++ [ mkParsedTable name (tbl_columns table) nullable ])
  end.

Definition parseFromItemBody (fromItem : FromItem)
  (parsedTables : list ParsedTable) (context : Context) (nullable : bool)
  : M (list ParsedTable) :=
  match fromItem with
  | JoinExpr jointype larg rarg =>
      parseJoinExpr jointype larg rarg parsedTables context
  | RangeSubselect alias subquery =>
      parseRangeSubselect alias subquery parsedTables context nullable
  | RangeVar rv => parseRangeVar rv parsedTables context nullable
  end.

(** The columns of a nullable parsed table as they enter the scope:
    [{ ...column, nullable: true }] for each. *)
Definition forceNullable (columns : Js.obj Column) : Js.obj Column :=
  List.fold_left
    (fun acc kv => Js.set (fst kv) (mkColumn true (col_type (snd kv))) acc)
    (Js.entries columns) [].

(** What [parseFromClause] stores under a parsed table's alias. *)
Definition scopeEntry (parsedTable : ParsedTable) : Table :=
  if pt_nullable parsedTable then
    mkTable (forceNullable (pt_columns parsedTable))
            (pt_nullable parsedTable)
  else mkTable (pt_columns parsedTable) (pt_nullable parsedTable).

(** The [reduce] of [parseFromClause] over the parsed tables. *)
Definition addToScope (parsedTables : list ParsedTable) (scope : Tables)
  : Tables :=
  List.fold_left
    (fun acc parsedTable =>
       Js.set (pt_alias parsedTable) (Some (scopeEntry parsedTable)) acc)
    parsedTables scope.

(** The first loop of [parseFromClause]: each top-level item is
    analyzed on a list of its own. *)
Definition collectFromItems (fromItems : list FromItem)
  (context : Context) : M (list ParsedTable) :=
  foldM (fun parsedTables fromItem =>
           own <- parseFromItem fromItem [] context false ;;
           ret (parsedTables ++ own))
        fromItems [].

Definition parseFromClause (fromItems : list FromItem)
  (context : Context) : M Context :=
  parsedTables <- collectFromItems fromItems context ;;
  clonedContext <- clone context ;;
  outer <- readTables (tables clonedContext) ;;
  scope <- allocTables (addToScope parsedTables (Js.entries outer)) ;;
  ret (mkContext scope (defaultSchema clonedContext)
         (fallbackType clonedContext) (formatFunc clonedContext)
         (mapType clonedContext) (tablesBySchema clonedContext)).

Definition parseCommonTableExpr (cte : CommonTableExpr)
  (context : Context) : M unit :=
  match cte with
  | mkCommonTableExpr ctename aliascolnames ctequery =>
      targets <- parseStmt ctequery context ;;
      let aliascolnames :=
        match aliascolnames with Some l => l | None => [] end in
      let table := mkTable (columnsOf aliascolnames targets []) false in
      catalog <- readCatalog (tablesBySchema context) ;;
      schema <- defined (Js.get (defaultSchema context) catalog) ;;
      writeCatalog (tablesBySchema context)
        (Js.set (defaultSchema context) (Js.set ctename table schema)
           catalog)
  end.

Definition parseWithClause (ctes : list CommonTableExpr)
  (context : Context) : M Context :=
  clonedContext <- clone context ;;
  foldM (fun _ cte => parseCommonTableExpr cte clonedContext) ctes tt ;;;
  ret clonedContext.

(** The common body of [parseDeleteStmt], [parseInsertStmt] and
    [parseUpdateStmt] up to the analysis of the RETURNING list: clone
    the context and bind the target relation in the clone. *)
Definition bindRelation (relation : RangeVarT) (context : Context)
  : M Context :=
  clonedContext <- clone context ;;
  let schema :=
    match schemaname relation with
    | Some s => s
    | None => defaultSchema context
    end in
  let tableName :=
    match rv_alias relation with
    | Some a => aliasname a
    | None => relname relation
    end in
  catalog <- readCatalog (tablesBySchema context) ;;
  schemaTables <- defined (Js.get schema catalog) ;;
  let table := Js.get (relname relation) schemaTables in
  scope <- readTables (tables clonedContext) ;;
  writeTables (tables clonedContext) (Js.set tableName table scope) ;;;
  ret clonedContext.

(** [parseTargetList(list ?? [], context)] *)
Definition parseTargets (targetList : option (list ResTarget))
  (context : Context) : M (list ParsedResultTarget) :=
  match targetList with
  | Some l => parseTargetList l context
  | None => parseTargetList [] context
  end.

Definition parseDeleteStmt (relation : RangeVarT)
  (returningList : option (list ResTarget)) (context : Context)
  : M (list ParsedResultTarget) :=
  clonedContext <- bindRelation relation context ;;
  parseTargets returningList clonedContext.

Definition parseInsertStmt (relation : RangeVarT)
  (returningList : option (list ResTarget)) (context : Context)
  : M (list ParsedResultTarget) :=
  clonedContext <- bindRelation relation context ;;
  parseTargets returningList clonedContext.

Definition parseUpdateStmt (relation : RangeVarT)
  (returningList : option (list ResTarget)) (context : Context)
  : M (list ParsedResultTarget) :=
  clonedContext <- bindRelation relation context ;;
  parseTargets returningList clonedContext.

(** [array.map(f)] for a pure [f] that may throw. *)
Fixpoint mapO {A B} (f : A -> outcome B) (l : list A)
  : outcome (list B) :=
  match l with
  | [] => Ok []
  | x :: r =>
      obind (f x) (fun y => obind (mapO f r) (fun ys => Ok (y :: ys)))
  end.

(** One column of a VALUES statement: the entries at [index] of every
    row.  When a row is too short to have the entry, the source goes on
    with [undefined] among [types] and throws the [TypeError] only when
    it reads a property of it: at once in [some], unless an earlier
    entry is nullable, and else in whoever reads [types].  A list with
    [undefined] among its members is not a value of the declared type;
    the model throws at once. *)
Definition valuesColumn (lists : list (list ParsedExpression))
  (index : nat) : outcome ParsedResultTarget :=
  obind (mapO (fun l => req (List.nth_error l index)) lists)
    (fun types =>
  obind (req (List.head types)) (fun first =>
  Ok (mkParsedExpression None
        (Some ("column" +:+ Js.toString (Z.of_nat (index + 1))))
        (List.existsb pe_nullable types) None (pe_type first)
        (Some types)))).

(** The loop of the set-operation case of [parseSelectStmt]. *)
Fixpoint combineSets (larg rarg : list ParsedResultTarget)
  : outcome (list ParsedResultTarget) :=
  match larg with
  | [] => Ok []
  | lResult :: ls =>
      match rarg with
      | [] => Throw TypeError
      | rResult :: rs =>
          let set :=
            match pe_set lResult, pe_set rResult with
            | Some l, Some r => l ++ r
            | Some l, None => l ++ [rResult]
            | None, Some r => lResult :: r
            | None, None => [lResult; rResult]
            end in
          obind (combineSets ls rs) (fun more =>
          Ok (mkParsedExpression None (pe_name lResult)
                (pe_nullable lResult || pe_nullable rResult) (Some set)
                (pe_type lResult) None :: more))
      end
  end.

Definition parseSelectStmtBody (stmt : SelectStmt) (context : Context)
  : M (list ParsedResultTarget) :=
  match stmt with
  | SelectValues valuesLists =>
      lists <-
        mapM (fun valuesList =>
                mapM (fun item => parseExpression item context)
                     valuesList)
             valuesLists ;;
      first <- defined (List.head lists) ;;
      lift (mapO (valuesColumn lists) (List.seq 0 (List.length first)))
  | SelectSetOp larg rarg =>
      larg <- parseSelectStmt larg context ;;
      rarg <- parseSelectStmt rarg context ;;
      lift (combineSets larg rarg)
  | SelectPlain targetList fromClause withClause =>
      contextWithWith <-
        match withClause with
        | Some ctes => parseWithClause ctes context
        | None => ret context
        end ;;
      contextWithFrom <-
        match fromClause with
        | Some fromItems => parseFromClause fromItems contextWithWith
        | None => ret contextWithWith
        end ;;
      parseTargets targetList contextWithFrom
  end.

Definition parseStmtBody (stmt : Stmt) (context : Context)
  : M (list ParsedResultTarget) :=
  match stmt with
  | DeleteStmt relation returningList =>
      parseDeleteStmt relation returningList context
  | InsertStmt relation returningList =>
      parseInsertStmt relation returningList context
  | SelectStmt_ s => parseSelectStmt s context
  | UpdateStmt relation returningList =>
      parseUpdateStmt relation returningList context
  end.

End Statements.

(** *** The analyzer *)

Fixpoint parseExpression (expression : Expression) (context : Context)
  {struct expression} : M ParsedExpression :=
  parseExpressionBody parseExpression parseSelectStmt expression context
with parseSelectStmt (stmt : SelectStmt) (context : Context)
  {struct stmt} : M (list ParsedResultTarget) :=
  parseSelectStmtBody parseExpression parseSelectStmt parseFromItem
    parseStmt stmt context
with parseFromItem (fromItem : FromItem) (parsedTables : list ParsedTable)
  (context : Context) (nullable : bool) {struct fromItem}
  : M (list ParsedTable) :=
  parseFromItemBody parseSelectStmt parseFromItem fromItem parsedTables
    context nullable
with parseStmt (stmt : Stmt) (context : Context) {struct stmt}
  : M (list ParsedResultTarget) :=
  parseStmtBody parseExpression parseSelectStmt stmt context.

End Analyzer.

(** ** The formatter *)

(** [name || ""] *)
Definition nameOrEmpty (name : option string) : string :=
  match name with
  | Some n => n
  | None => EmptyString
  end.

(** [expression.constantValue ?? mapType(expression.type)] *)
Definition tsTypeOf (mapType : option (string -> string))
  (expression : ParsedExpression) : outcome string :=
  match pe_constantValue expression with
  | Some c => Ok c
  | None => obind (req mapType) (fun f => Ok (f (pe_type expression)))
  end.

Definition formatExpression (expression : ParsedExpression)
  (context : Context) : outcome string :=
  obind
    match pe_types expression with
    | Some types => mapO (tsTypeOf (mapType context)) types
    | None => obind (tsTypeOf (mapType context) expression)
                (fun t => Ok [t])
    end
    (fun tsTypes =>
  let tsTypes :=
    if pe_nullable expression then tsTypes ++ ["null"] else tsTypes in
  let tsUnionType := Js.join " | " (unique tsTypes) in
  obind (req (formatFunc context)) (fun f =>
  Ok (f (nameOrEmpty (pe_name expression)) tsUnionType))).

(** [resultTargets.every(({ set }) => set)] *)
Definition everySet (resultTargets : list ParsedResultTarget) : bool :=
  List.forallb
    (fun t => match pe_set t with Some _ => true | None => false end)
    resultTargets.

(** The object type of the variant at [index] of a set operation. *)
Definition formatVariant (resultTargets : list ParsedResultTarget)
  (context : Context) (index : nat) : outcome string :=
  obind
    (mapO (fun t =>
             obind (req (pe_set t)) (fun set =>
             obind (req (List.nth_error set index)) (fun e =>
             formatExpression e context)))
          resultTargets)
    (fun columns => Ok (Js.join " " (["{"] ++ columns ++ ["}"]))).

Definition emptyObjectType : string := "{[K in any]: never}".

(** The value of the variable [source] of [format] when it is handed to
    the pretty-printer. *)
Definition formatSource (resultTargets : list ParsedResultTarget)
  (context : Context) : outcome string :=
  match resultTargets with
  | [] => Ok emptyObjectType
  | first :: _ =>
      if everySet resultTargets then
        obind (req (pe_set first)) (fun set =>
        obind (mapO (formatVariant resultTargets context)
                    (List.seq 0 (List.length set)))
          (fun variants => Ok (Js.join " | " variants)))
      else
        obind (mapO (fun e => formatExpression e context) resultTargets)
          (fun columns => Ok (Js.join " " (["{"] ++ columns ++ ["}"])))
  end.

(** White space of [\s] and of [trim], within ASCII. *)
Definition isSpace (c : ascii) : bool :=
  let n := nat_of_ascii c in
  Nat.eqb n 32 || (Nat.leb 9 n && Nat.leb n 13).

Fixpoint trimStart (s : string) : string :=
  match s with
  | String c r => if isSpace c then trimStart r else s
  | EmptyString => EmptyString
  end.

Fixpoint trimEnd (s : string) : string :=
  match s with
  | EmptyString => EmptyString
  | String c r =>
      match trimEnd r with
      | EmptyString => if isSpace c then EmptyString else String c EmptyString
      | r' => String c r'
      end
  end.

Definition trim (s : string) : string := trimEnd (trimStart s).

Fixpoint dropPrefix (p s : string) : option string :=
  match p with
  | EmptyString => Some s
  | String a p' =>
      match s with
      | String b s' => if Ascii.eqb a b then dropPrefix p' s' else None
      | EmptyString => None
      end
  end.

(** [formatted.replace(/^type T\s*=\s*/, "")] *)
Definition stripTypeAlias (formatted : string) : string :=
  match dropPrefix "type T" formatted with
  | Some r =>
      match trimStart r with
      | String c r' =>
          if Ascii.eqb c "="%char then trimStart r' else formatted
      | EmptyString => formatted
      end
  | None => formatted
  end.

(** ** The driver *)

(** What [generate] returns: an object with the key [results] or the key
    [error]. *)
Record GenerateResult : Type := mkGenerateResult {
  results : option (list string);
  error_ : option error
}.

Section Driver.

Variables isArray isBit isJson isTime isTimestamp : string -> bool.
Variable getElementType : string -> string.

(** [parse] of pgsql-parser and [format] of prettier (with the options
    of the generator); either may throw. *)
Variable parse : string -> outcome (list RawStmt).
Variable prettierFormat : string -> outcome string.

Definition format (resultTargets : list ParsedResultTarget)
  (context : Context) : outcome string :=
  obind (formatSource resultTargets context) (fun source =>
  obind (prettierFormat ("type T = " +:+ source)) (fun formatted =>
  Ok (trim (stripTypeAlias formatted)))).

Definition parseRawStmt (rawStmt : RawStmt) (context : Context)
  : M (list ParsedResultTarget) :=
  parseStmt isArray isBit isJson isTime isTimestamp getElementType
    (raw_stmt rawStmt) context.

(** The body of the [try] block of [parseQuery]. *)
Definition tryParseQuery (query : string) (context : Context)
  : M (list string) :=
  rawStmts <- lift (parse query) ;;
  mapM (fun rawStmt =>
          targets <- parseRawStmt rawStmt context ;;
          lift (format targets context))
       rawStmts.

Definition parseQuery (query : string) (context : Context) (h : heap)
  : GenerateResult * heap :=
  match tryParseQuery query context h with
  | (Ok results, h') => (mkGenerateResult (Some results) None, h')
  | (Throw error, h') => (mkGenerateResult None (Some error), h')
  end.

(** The [generate] method of the object [createTypeGenerator] returns;
    [context] is the context that function built. *)
Definition generate (context : Context) (query : string) (h : heap)
  : GenerateResult * heap :=
  parseQuery query context h.

(** The mapper [getTypeMapper] returns, given the enum types read from
    the database. *)
Definition defaultTypeMap : Js.obj string :=
  [ ("any", "any"); ("bool", "boolean"); ("bigserial", "number");
    ("bit", "string"); ("bpchar", "string"); ("bytea", "Buffer");
    ("cidr", "string"); ("citext", "string"); ("circle", "string");
    ("date", "string"); ("decimal", "number"); ("float2", "number");
    ("float4", "number"); ("float8", "number"); ("int2", "number");
    ("int4", "number"); ("int8", "number"); ("inet", "string");
    ("interval", "string"); ("json", "any"); ("jsonb", "any");
    ("line", "string"); ("lseg", "string"); ("macaddr", "string");
    ("macaddr8", "string"); ("money", "string"); ("null", "null");
    ("numeric", "number"); ("oid", "number"); ("path", "string");
    ("point", "string"); ("polygon", "string"); ("serial", "number");
    ("serial2", "number"); ("serial4", "number"); ("serial8", "number");
    ("smallserial", "number"); ("text", "string"); ("time", "string");
    ("timestamp", "string"); ("timestamptz", "string");
    ("timetz", "string"); ("tsquery", "string"); ("tsvector", "string");
    ("unknown", "unknown"); ("uuid", "string"); ("varbit", "string");
    ("varchar", "string"); ("xml", "string") ].

(** The closure [getTypeMapper] returns.  The three maps are spread into
    one object, so that a key is looked up in the custom map, then among
    the enums, then in the built-in map.  (For a key that is a member of
    [Object.prototype] and in none of the three, the source finds the
    inherited member, which is no string; such keys are outside the
    model.) *)
Definition typeMapper (enums customTypeMap : Js.obj string)
  (fallbackType : string) (pgType : string) : string :=
  let key := getElementType pgType in
  let found :=
    match Js.get key customTypeMap with
    | Some t => Some t
    | None =>
        match Js.get key enums with
        | Some t => Some t
        | None => Js.get key defaultTypeMap
        end
    end in
  let tsType :=
    match found with
    | Some t => if Js.truthy t then t else fallbackType
    | None => fallbackType
    end in
  if isArray pgType then "Array<" +:+ tsType +:+ ">" else tsType.

(** The context [createTypeGenerator] builds once the catalog and the
    type mapper are loaded, and the store that holds its two objects. *)
Definition createTypeGenerator (defaultSchema fallbackType : string)
  (formatFunc : string -> string -> string) (mapType : string -> string)
  (tablesBySchema : TablesBySchema) : Context * heap :=
  (mkContext 0 defaultSchema fallbackType (Some formatFunc) (Some mapType)
     0,
   mkHeap [ [] ] [ tablesBySchema ]).

End Driver.

(** The default [formatFunc]. *)
Definition defaultFormatFunc (name tsType : string) : string :=
  dquote +:+ name +:+ dquote +:+ ": " +:+ tsType +:+ ",".

(** ** Loading the catalog and the type mapper

    [getTablesBySchema] and [getTypeMapper] query the database and turn
    the rows into the catalog and the enum map; the rows are the
    arguments here. *)

(** A row of the column query, of the view query and of the enum
    query. *)
Record ColumnRow : Type := mkColumnRow {
  cr_schema : string;
  cr_table : string;
  cr_column : string;
  cr_type : string;
  cr_nullable : bool
}.

Record ViewRow : Type := mkViewRow {
  vr_schema : string;
  vr_name : string;
  vr_definition : string
}.

Record EnumRow : Type := mkEnumRow {
  er_pgType : string;
  er_tsType : string
}.

(** The callback of the [reduce] over the column rows: the schema and
    the table are created when the row is the first to name them, and
    the column is written into the table. *)
Definition addColumn (acc : TablesBySchema) (row : ColumnRow)
  : TablesBySchema :=
  let acc :=
    match Js.get (cr_schema row) acc with
    | Some _ => acc
    | None => Js.set (cr_schema row) [] acc
    end in
  let tables :=
    match Js.get (cr_schema row) acc with
    | Some tables => tables
    | None => []
    end in
  let tables :=
    match Js.get (cr_table row) tables with
    | Some _ => tables
    | None => Js.set (cr_table row) (mkTable [] false) tables
    end in
  let table :=
    match Js.get (cr_table row) tables with
    | Some table => table
    | None => mkTable [] false
    end in
  Js.set (cr_schema row)
    (Js.set (cr_table row)
       (mkTable
          (Js.set (cr_column row)
             (mkColumn (cr_nullable row) (cr_type row))
             (tbl_columns table))
          (tbl_nullable table))
       tables)
    acc.

Definition loadColumns (rows : list ColumnRow) : TablesBySchema :=
  List.fold_left addColumn rows [].

(** The columns of a view, from the result targets of its definition. *)
Definition viewColumns (resultTargets : list ParsedResultTarget)
  : Js.obj Column :=
  columnsOf [] resultTargets [].

(** [getTypeMapper]'s [reduce] over the enum rows. *)
Definition enumsOf (rows : list EnumRow) : Js.obj string :=
  List.fold_left (fun acc row => Js.set (er_pgType row) (er_tsType row) acc)
    rows [].

Section Loader.

Variables isArray isBit isJson isTime isTimestamp : string -> bool.
Variable getElementType : string -> string.
Variable parse : string -> outcome (list RawStmt).

(** The body of the loop over the views; [context] is
    [{ ...context, tablesBySchema }]. *)
Definition loadView (context : Context) (view : ViewRow) : M unit :=
  let schema := vr_schema view in
  catalog <- readCatalog (tablesBySchema context) ;;
  match Js.get schema catalog with
  | Some _ => ret tt
  | None =>
      writeCatalog (tablesBySchema context) (Js.set schema [] catalog)
  end ;;;
  rawStmts <- lift (parse (vr_definition view)) ;;
  rawStmt <- defined (List.head rawStmts) ;;
  resultTargets <-
    parseRawStmt isArray isBit isJson isTime isTimestamp getElementType
      rawStmt context ;;
  catalog <- readCatalog (tablesBySchema context) ;;
  tables <- defined (Js.get schema catalog) ;;
  writeCatalog (tablesBySchema context)
    (Js.set schema
       (Js.set (vr_name view) (mkTable (viewColumns resultTargets) false)
          tables)
       catalog).

(** [getTablesBySchema] on the rows of its two queries. *)
Definition getTablesBySchema (columnQueryResult : list ColumnRow)
  (views : list ViewRow) (context : Context) : M TablesBySchema :=
  tablesBySchema <- allocCatalog (loadColumns columnQueryResult) ;;
  let viewContext :=
    mkContext (tables context) (defaultSchema context)
      (fallbackType context) (formatFunc context) (mapType context)
      tablesBySchema in
  foldM (fun _ view => loadView viewContext view) views tt ;;;
  catalog <- readCatalog tablesBySchema ;;
  match Js.get (defaultSchema context) catalog with
  | Some _ => ret catalog
  | None =>
      let catalog := Js.set (defaultSchema context) [] catalog in
      writeCatalog tablesBySchema catalog ;;; ret catalog
  end.

(** [getTypeMapper] on the rows of its query. *)
Definition getTypeMapper (enumQueryResult : list EnumRow)
  (customTypeMap : Js.obj string) (fallbackType : string)
  : string -> string :=
  typeMapper isArray getElementType (enumsOf enumQueryResult) customTypeMap
    fallbackType.

(** The catalog [createTypeGenerator] loads: [getTablesBySchema] called
    with a context whose [tables] and [tablesBySchema] are new empty
    objects. *)
Definition loadedCatalog (columnQueryResult : list ColumnRow)
  (views : list ViewRow) (defaultSchema fallbackType : string)
  (formatFunc : string -> string -> string) (mapType : string -> string)
  : outcome TablesBySchema :=
  fst (getTablesBySchema columnQueryResult views
         (mkContext 0 defaultSchema fallbackType (Some formatFunc)
            (Some mapType) 0)
         (mkHeap [ [] ] [ [] ])).

End Loader.

(** ** The utilities whose text is not at hand *)

Module SpecUtilities.

Fixpoint endsWithBrackets (s : string) : bool :=
  match s with
  | EmptyString => false
  | String c r =>
      if String.eqb s "[]" then true else endsWithBrackets r
  end.

(** Modelled from the spec: [isArray] of [./utilities] is missing; an
    array type is encoded by a trailing [[]]. *)
Definition isArray (typeName : string) : bool := endsWithBrackets typeName.

(** Modelled from the spec: [getElementType] of [./utilities] is
    missing; the element type is recovered by stripping the trailing
    [[]]. *)
Fixpoint getElementType (typeName : string) : string :=
  match typeName with
  | EmptyString => EmptyString
  | String c r =>
      if String.eqb typeName "[]" then EmptyString
      else String c (getElementType r)
  end.

(** Modelled from the spec: [isBit] of [./utilities] is missing; the
    bit family is [bit], [varbit]. *)
Definition isBit (typeName : string) : bool :=
  Js.includes [ "bit"; "varbit" ] typeName.

(** Modelled from the spec: [isJson] of [./utilities] is missing; the
    json family is [json], [jsonb]. *)
Definition isJson (typeName : string) : bool :=
  Js.includes [ "json"; "jsonb" ] typeName.

(** Modelled from the spec: [isTime] of [./utilities] is missing; the
    time family is [time], [timetz]. *)
Definition isTime (typeName : string) : bool :=
  Js.includes [ "time"; "timetz" ] typeName.

(** Modelled from the spec: [isTimestamp] of [./utilities] is missing;
    the timestamp family is [timestamp], [timestamptz]. *)
Definition isTimestamp (typeName : string) : bool :=
  Js.includes [ "timestamp"; "timestamptz" ] typeName.

End SpecUtilities.

(** * Properties *)

(** ** Evaluation lemmas for the monad *)

Lemma bind_Ok {A B} (m : M A) (k : A -> M B) h a h' :
  m h = (Ok a, h') -> bind m k h = k a h'.
Proof. intros E. unfold bind. rewrite E. reflexivity. Qed.

Lemma bind_Throw {A B} (m : M A) (k : A -> M B) h e h' :
  m h = (Throw e, h') -> bind m k h = (Throw e, h').
Proof. intros E. unfold bind. rewrite E. reflexivity. Qed.

Lemma bind_run {A B} (m : M A) (k : A -> M B) h :
  bind m k h
  = match m h with
    | (Ok a, h') => k a h'
    | (Throw e, h') => (Throw e, h')
    end.
Proof. reflexivity. Qed.

(** Evaluate the binds that are applied to a store. *)
Ltac mnorm :=
  repeat progress
    (rewrite ?bind_run; unfold ret, throw; cbv beta iota zeta).

Lemma bind_inv_Ok {A B} (m : M A) (k : A -> M B) h b h' :
  bind m k h = (Ok b, h') ->
  exists a h1, m h = (Ok a, h1) /\ k a h1 = (Ok b, h').
Proof.
  unfold bind. destruct (m h) as [[a|e] h1]; intros E.
  - exists a, h1. split; [reflexivity | exact E].
  - discriminate E.
Qed.

Lemma mapM_app {A B} (f : A -> M B) l1 l2 h :
  mapM f (l1 ++ l2) h
  = (ys1 <- mapM f l1 ;; ys2 <- mapM f l2 ;; ret (ys1 ++ ys2)) h.
Proof.
  revert h. induction l1 as [|x l1 IH]; intros h; simpl.
  - unfold bind, ret. destruct (mapM f l2 h) as [[ys|e] h']; reflexivity.
  - unfold bind, ret in *. destruct (f x h) as [[y|e] h1]; [|reflexivity].
    rewrite IH. destruct (mapM f l1 h1) as [[ys1|e] h2]; [|reflexivity].
    destruct (mapM f l2 h2) as [[ys2|e] h3]; reflexivity.
Qed.

Lemma mapM_length {A B} (f : A -> M B) l h ys h' :
  mapM f l h = (Ok ys, h') -> List.length ys = List.length l.
Proof.
  revert h ys. induction l as [|x l IH]; intros h ys E; simpl in E.
  - inversion E. reflexivity.
  - apply bind_inv_Ok in E as (y & h1 & _ & E).
    apply bind_inv_Ok in E as (ys' & h2 & E1 & E).
    inversion E; subst. simpl. f_equal. eapply IH, E1.
Qed.

(** ** The frame discipline of the store

    [keeps nt nc h h']: the first [nt] cells of tables objects and the
    first [nc] catalog cells of [h] are the same in [h'], and no cell has
    disappeared. *)

Definition keeps (nt nc : nat) (h h' : heap) : Prop :=
  take nt (tablesCells h') = take nt (tablesCells h)
  /\ take nc (catalogCells h') = take nc (catalogCells h)
  /\ List.length (tablesCells h) <= List.length (tablesCells h')
  /\ List.length (catalogCells h) <= List.length (catalogCells h').

(** A computation protects the first [nt] and [nc] cells when it keeps
    them from every store that has them. *)
Definition protects {A} (nt nc : nat) (m : M A) : Prop :=
  forall h,
    nt <= List.length (tablesCells h) ->
    nc <= List.length (catalogCells h) ->
    keeps nt nc h (snd (m h)).

(** A computation that only reads and allocates. *)
Definition framed {A} (m : M A) : Prop := forall nt nc, protects nt nc m.

(** Every cell of [h] is a cell of [h'], at the same address. *)
Definition extends (h h' : heap) : Prop :=
  tablesCells h `prefix_of` tablesCells h'
  /\ catalogCells h `prefix_of` catalogCells h'.

Lemma keeps_refl nt nc h : keeps nt nc h h.
Proof. unfold keeps. repeat split; lia. Qed.

Lemma keeps_trans nt nc h1 h2 h3 :
  keeps nt nc h1 h2 -> keeps nt nc h2 h3 -> keeps nt nc h1 h3.
Proof.
  unfold keeps. intros (A1 & B1 & C1 & D1) (A2 & B2 & C2 & D2).
  repeat split; try lia; congruence.
Qed.

Lemma take_all_prefix {A} (l l' : list A) :
  take (List.length l) l' = take (List.length l) l -> l `prefix_of` l'.
Proof.
  intros E. rewrite (take_ge l) in E by lia.
  rewrite <- E. apply prefix_take.
Qed.

Lemma keeps_extends h h' :
  keeps (List.length (tablesCells h)) (List.length (catalogCells h)) h h' ->
  extends h h'.
Proof.
  intros (A & B & _ & _). split; apply take_all_prefix; assumption.
Qed.

Lemma framed_extends {A} (m : M A) h :
  framed m -> extends h (snd (m h)).
Proof. intros F. apply keeps_extends, F; lia. Qed.

Lemma prefix_nth {A} (l l' : list A) i d :
  l `prefix_of` l' -> i < List.length l -> List.nth i l' d = List.nth i l d.
Proof.
  intros [k ->] Hi. apply List.app_nth1. exact Hi.
Qed.

Lemma protects_ret {A} nt nc (a : A) : protects nt nc (ret a).
Proof. intros h _ _. apply keeps_refl. Qed.

Lemma protects_throw {A} nt nc e : protects nt nc (@throw A e).
Proof. intros h _ _. apply keeps_refl. Qed.

Lemma protects_lift {A} nt nc (o : outcome A) : protects nt nc (lift o).
Proof. destruct o; [apply protects_ret | apply protects_throw]. Qed.

Lemma protects_defined {A} nt nc (o : option A) : protects nt nc (defined o).
Proof. destruct o; [apply protects_ret | apply protects_throw]. Qed.

Lemma protects_bind {A B} nt nc (m : M A) (k : A -> M B) :
  protects nt nc m -> (forall a, protects nt nc (k a)) ->
  protects nt nc (bind m k).
Proof.
  intros Hm Hk h Ht Hc. specialize (Hm h Ht Hc).
  unfold bind. destruct (m h) as [[a|e] h1]; simpl in *; [|exact Hm].
  eapply keeps_trans; [exact Hm|].
  destruct Hm as (_ & _ & L1 & L2). apply Hk; lia.
Qed.

Lemma protects_mapM {A B} nt nc (f : A -> M B) (l : list A) :
  Forall (fun x => protects nt nc (f x)) l -> protects nt nc (mapM f l).
Proof.
  induction 1 as [|x l Hx _ IH]; simpl.
  - apply protects_ret.
  - apply protects_bind; [exact Hx | intros y].
    apply protects_bind; [exact IH | intros ys; apply protects_ret].
Qed.

Lemma protects_someM {A} nt nc (f : A -> M bool) (l : list A) :
  Forall (fun x => protects nt nc (f x)) l -> protects nt nc (someM f l).
Proof.
  induction 1 as [|x l Hx _ IH]; simpl.
  - apply protects_ret.
  - apply protects_bind; [exact Hx |].
    intros [|]; [apply protects_ret | exact IH].
Qed.

Lemma protects_foldM {A B} nt nc (f : B -> A -> M B) (l : list A) :
  Forall (fun x => forall acc, protects nt nc (f acc x)) l ->
  forall acc, protects nt nc (foldM f l acc).
Proof.
  induction 1 as [|x l Hx _ IH]; intros acc; simpl.
  - apply protects_ret.
  - apply protects_bind; [apply Hx | intros a; apply IH].
Qed.

Lemma protects_readTables nt nc l : protects nt nc (readTables l).
Proof. intros h _ _. apply keeps_refl. Qed.

Lemma protects_readCatalog nt nc l : protects nt nc (readCatalog l).
Proof. intros h _ _. apply keeps_refl. Qed.

Lemma protects_allocTables nt nc t : protects nt nc (allocTables t).
Proof.
  intros h Ht Hc. unfold keeps; simpl. rewrite length_app.
  repeat split; try lia. apply take_app_le; exact Ht.
Qed.

Lemma protects_allocCatalog nt nc c : protects nt nc (allocCatalog c).
Proof.
  intros h Ht Hc. unfold keeps; simpl. rewrite length_app.
  repeat split; try lia. apply take_app_le; exact Hc.
Qed.

Lemma protects_writeTables nt nc l t :
  nt <= l -> protects nt nc (writeTables l t).
Proof.
  intros Hl h Ht Hc. unfold keeps; simpl. rewrite length_insert.
  repeat split; try lia. apply take_insert_ge; exact Hl.
Qed.

Lemma protects_writeCatalog nt nc l c :
  nc <= l -> protects nt nc (writeCatalog l c).
Proof.
  intros Hl h Ht Hc. unfold keeps; simpl. rewrite length_insert.
  repeat split; try lia. apply take_insert_ge; exact Hl.
Qed.

(** [clone] allocates two fresh cells and returns their addresses. *)
Lemma clone_run context h :
  clone context h
  = (Ok (mkContext (List.length (tablesCells h)) (defaultSchema context)
           (fallbackType context) None None
           (List.length (catalogCells h))),
     mkHeap
       (tablesCells h
          ++ [cloneTables (List.nth (tables context) (tablesCells h) [])])
       (catalogCells h
          ++ [cloneCatalog
                (List.nth (tablesBySchema context) (catalogCells h) [])])).
Proof. reflexivity. Qed.

Lemma protects_clone nt nc context : protects nt nc (clone context).
Proof.
  intros h Ht Hc. rewrite clone_run. unfold keeps; simpl.
  rewrite !length_app. repeat split; try lia; apply take_app_le; assumption.
Qed.

(** A continuation that runs after [clone] may rely on the two addresses
    being fresh. *)
Lemma protects_after_clone {B} nt nc context (k : Context -> M B) :
  (forall c, nt <= tables c -> nc <= tablesBySchema c -> protects nt nc (k c)) ->
  protects nt nc (bind (clone context) k).
Proof.
  intros Hk h Ht Hc. unfold bind. rewrite clone_run.
  eapply keeps_trans.
  - pose proof (protects_clone nt nc context h Ht Hc) as K.
    rewrite clone_run in K. exact K.
  - apply Hk; simpl; try rewrite length_app; lia.
Qed.

(** ** Induction over parse trees *)

Definition OptP {A} (P : A -> Prop) (o : option A) : Prop :=
  match o with
  | Some a => P a
  | None => True
  end.

Section TreeInduction.

Variable PE : Expression -> Prop.
Variable PS : SelectStmt -> Prop.
Variable PF : FromItem -> Prop.
Variable PT : Stmt -> Prop.

Definition PIndices (i : A_Indices) : Prop :=
  match i with
  | mkA_Indices _ lidx uidx => OptP PE lidx /\ OptP PE uidx
  end.

Definition PWhen (w : CaseWhen) : Prop :=
  match w with
  | mkCaseWhen e r => PE e /\ PE r
  end.

Definition PTarget (t : ResTarget) : Prop :=
  match t with
  | mkResTarget _ _ val => PE val
  end.

Definition PCte (c : CommonTableExpr) : Prop :=
  match c with
  | mkCommonTableExpr _ _ ctequery => PT ctequery
  end.

Hypothesis H_A_ArrayExpr :
  forall elements, Forall PE elements -> PE (A_ArrayExpr elements).
Hypothesis H_A_Const : forall val, PE (A_Const val).
Hypothesis H_A_Expr :
  forall kind lexpr name rexpr,
    OptP PE lexpr -> OptP PE rexpr -> PE (A_Expr kind lexpr name rexpr).
Hypothesis H_A_Indirection :
  forall arg indirection,
    PE arg -> Forall PIndices indirection ->
    PE (A_Indirection arg indirection).
Hypothesis H_BoolExpr :
  forall args boolop, Forall PE args -> PE (BoolExpr args boolop).
Hypothesis H_BoolTest : forall arg t, PE arg -> PE (BoolTest arg t).
Hypothesis H_CaseExpr :
  forall args defresult,
    Forall PWhen args -> OptP PE defresult -> PE (CaseExpr args defresult).
Hypothesis H_CoalesceExpr :
  forall args, Forall PE args -> PE (CoalesceExpr args).
Hypothesis H_ColumnRef : forall fields, PE (ColumnRef fields).
Hypothesis H_FuncCall :
  forall funcname args agg_star,
    Forall PE args -> PE (FuncCall funcname args agg_star).
Hypothesis H_List : forall items, Forall PE items -> PE (List_ items).
Hypothesis H_MinMaxExpr :
  forall op args, Forall PE args -> PE (MinMaxExpr op args).
Hypothesis H_NullTest : forall arg t, PE arg -> PE (NullTest arg t).
Hypothesis H_ParamRef : forall number, PE (ParamRef number).
Hypothesis H_SQLValueFunction : forall op, PE (SQLValueFunction op).
Hypothesis H_SubLink :
  forall t subselect testexpr operName,
    PS subselect -> OptP PE testexpr ->
    PE (SubLink t subselect testexpr operName).
Hypothesis H_TypeCast :
  forall arg typeName, PE arg -> PE (TypeCast arg typeName).
Hypothesis H_SelectPlain :
  forall targetList fromClause withClause,
    OptP (Forall PTarget) targetList ->
    OptP (Forall PF) fromClause ->
    OptP (Forall PCte) withClause ->
    PS (SelectPlain targetList fromClause withClause).
Hypothesis H_SelectSetOp :
  forall larg rarg, PS larg -> PS rarg -> PS (SelectSetOp larg rarg).
Hypothesis H_SelectValues :
  forall valuesLists,
    Forall (Forall PE) valuesLists -> PS (SelectValues valuesLists).
Hypothesis H_JoinExpr :
  forall jointype larg rarg,
    PF larg -> PF rarg -> PF (JoinExpr jointype larg rarg).
Hypothesis H_RangeVar : forall rv, PF (RangeVar rv).
Hypothesis H_RangeSubselect :
  forall alias subquery, PS subquery -> PF (RangeSubselect alias subquery).
Hypothesis H_DeleteStmt :
  forall relation returningList,
    OptP (Forall PTarget) returningList ->
    PT (DeleteStmt relation returningList).
Hypothesis H_InsertStmt :
  forall relation returningList,
    OptP (Forall PTarget) returningList ->
    PT (InsertStmt relation returningList).
Hypothesis H_SelectStmt : forall stmt, PS stmt -> PT (SelectStmt_ stmt).
Hypothesis H_UpdateStmt :
  forall relation returningList,
    OptP (Forall PTarget) returningList ->
    PT (UpdateStmt relation returningList).

Definition all_of {A} (P : A -> Prop) (f : forall a, P a)
  : forall l : list A, Forall P l :=
  fix go (l : list A) : Forall P l :=
    match l with
    | [] => @List.Forall_nil A P
    | x :: r => @List.Forall_cons A P x r (f x) (go r)
    end.

Definition opt_of {A} (P : A -> Prop) (f : forall a, P a)
  (o : option A) : OptP P o :=
  match o with
  | Some a => f a
  | None => I
  end.

Fixpoint Expression_tree_ind (e : Expression) : PE e :=
  match e with
  | A_ArrayExpr elements =>
      H_A_ArrayExpr elements (all_of PE Expression_tree_ind elements)
  | A_Const val => H_A_Const val
  | A_Expr kind lexpr name rexpr =>
      H_A_Expr kind lexpr name rexpr
        (opt_of PE Expression_tree_ind lexpr)
        (opt_of PE Expression_tree_ind rexpr)
  | A_Indirection arg indirection =>
      H_A_Indirection arg indirection (Expression_tree_ind arg)
        (all_of PIndices
           (fun i =>
              match i with
              | mkA_Indices s lidx uidx =>
                  conj (opt_of PE Expression_tree_ind lidx)
                       (opt_of PE Expression_tree_ind uidx)
              end)
           indirection)
  | BoolExpr args boolop =>
      H_BoolExpr args boolop (all_of PE Expression_tree_ind args)
  | BoolTest arg t => H_BoolTest arg t (Expression_tree_ind arg)
  | CaseExpr args defresult =>
      H_CaseExpr args defresult
        (all_of PWhen
           (fun w =>
              match w with
              | mkCaseWhen c r =>
                  conj (Expression_tree_ind c) (Expression_tree_ind r)
              end)
           args)
        (opt_of PE Expression_tree_ind defresult)
  | CoalesceExpr args =>
      H_CoalesceExpr args (all_of PE Expression_tree_ind args)
  | ColumnRef fields => H_ColumnRef fields
  | FuncCall funcname args agg_star =>
      H_FuncCall funcname args agg_star
        (all_of PE Expression_tree_ind args)
  | List_ items => H_List items (all_of PE Expression_tree_ind items)
  | MinMaxExpr op args =>
      H_MinMaxExpr op args (all_of PE Expression_tree_ind args)
  | NullTest arg t => H_NullTest arg t (Expression_tree_ind arg)
  | ParamRef number => H_ParamRef number
  | SQLValueFunction op => H_SQLValueFunction op
  | SubLink t subselect testexpr operName =>
      H_SubLink t subselect testexpr operName
        (SelectStmt_tree_ind subselect)
        (opt_of PE Expression_tree_ind testexpr)
  | TypeCast arg typeName =>
      H_TypeCast arg typeName (Expression_tree_ind arg)
  end
with SelectStmt_tree_ind (s : SelectStmt) : PS s :=
  match s with
  | SelectPlain targetList fromClause withClause =>
      H_SelectPlain targetList fromClause withClause
        (opt_of (Forall PTarget)
           (all_of PTarget
              (fun t =>
                 match t with
                 | mkResTarget _ _ val => Expression_tree_ind val
                 end))
           targetList)
        (opt_of (Forall PF) (all_of PF FromItem_tree_ind) fromClause)
        (opt_of (Forall PCte)
           (all_of PCte
              (fun c =>
                 match c with
                 | mkCommonTableExpr _ _ q => Stmt_tree_ind q
                 end))
           withClause)
  | SelectSetOp larg rarg =>
      H_SelectSetOp larg rarg (SelectStmt_tree_ind larg)
        (SelectStmt_tree_ind rarg)
  | SelectValues valuesLists =>
      H_SelectValues valuesLists
        (all_of (Forall PE) (all_of PE Expression_tree_ind) valuesLists)
  end
with FromItem_tree_ind (f : FromItem) : PF f :=
  match f with
  | JoinExpr jointype larg rarg =>
      H_JoinExpr jointype larg rarg (FromItem_tree_ind larg)
        (FromItem_tree_ind rarg)
  | RangeVar rv => H_RangeVar rv
  | RangeSubselect alias subquery =>
      H_RangeSubselect alias subquery (SelectStmt_tree_ind subquery)
  end
with Stmt_tree_ind (s : Stmt) : PT s :=
  let targets :=
    opt_of (Forall PTarget)
      (all_of PTarget
         (fun t =>
            match t with
            | mkResTarget _ _ val => Expression_tree_ind val
            end)) in
  match s with
  | DeleteStmt relation returningList =>
      H_DeleteStmt relation returningList (targets returningList)
  | InsertStmt relation returningList =>
      H_InsertStmt relation returningList (targets returningList)
  | SelectStmt_ stmt => H_SelectStmt stmt (SelectStmt_tree_ind stmt)
  | UpdateStmt relation returningList =>
      H_UpdateStmt relation returningList (targets returningList)
  end.

Lemma tree_ind :
  (forall e, PE e) /\ (forall s, PS s) /\ (forall f, PF f)
  /\ (forall s, PT s).
Proof.
  repeat split; intros.
  - apply Expression_tree_ind.
  - apply SelectStmt_tree_ind.
  - apply FromItem_tree_ind.
  - apply Stmt_tree_ind.
Qed.

End TreeInduction.

(** ** The analyzer only reads and allocates

    Each function of the analyzer is shown to protect every cell that
    exists when it is called, given that its recursive calls do. *)

Ltac frame_step :=
  first
    [ apply protects_ret | apply protects_throw | apply protects_lift
    | apply protects_defined | apply protects_readTables
    | apply protects_readCatalog | apply protects_allocTables
    | apply protects_allocCatalog | apply protects_clone
    | apply protects_bind; [| intros ?]
    | match goal with
      | H : forall nt nc, protects nt nc ?m |- protects _ _ ?m => apply H
      | H : framed ?m |- protects _ _ ?m => apply H
      | H : forall c, framed (?f c) |- protects _ _ (?f _) => apply H
      | |- protects _ _ (if ?b then _ else _) => destruct b
      | |- protects _ _ (match ?x with _ => _ end) => destruct x
      end ].

Ltac frame_auto := repeat frame_step.

Section FrameOfBodies.

Variables isArray isBit isJson isTime isTimestamp : string -> bool.
Variable getElementType : string -> string.
Variable pe : Expression -> Context -> M ParsedExpression.
Variable ps : SelectStmt -> Context -> M (list ParsedResultTarget).
Variable pf :
  FromItem -> list ParsedTable -> Context -> bool -> M (list ParsedTable).
Variable pt : Stmt -> Context -> M (list ParsedResultTarget).

Definition FE (e : Expression) : Prop := forall c, framed (pe e c).
Definition FS (s : SelectStmt) : Prop := forall c, framed (ps s c).
Definition FF (f : FromItem) : Prop := forall l c n, framed (pf f l c n).
Definition FT (s : Stmt) : Prop := forall c, framed (pt s c).

Lemma parseArg0_framed args c :
  Forall FE args -> framed (parseArg0 pe args c).
Proof.
  intros H nt nc. destruct H as [|a l Ha _]; simpl.
  - apply protects_throw.
  - apply Ha.
Qed.

Lemma parseArg1_framed args c :
  Forall FE args -> framed (parseArg1 pe args c).
Proof.
  intros H nt nc. destruct H as [|a l _ [|b l' Hb _]]; simpl;
    try apply protects_throw.
  apply Hb.
Qed.

Lemma someNullable_framed args c :
  Forall FE args -> framed (someNullable pe args c).
Proof.
  intros H nt nc. apply protects_someM.
  eapply Forall_impl; [exact H|]. intros a Ha; simpl.
  apply protects_bind; [apply Ha | intros; apply protects_ret].
Qed.

Lemma parseOptional_framed o c :
  OptP FE o -> framed (parseOptional pe o c).
Proof.
  intros H nt nc. destruct o as [x|]; simpl in *.
  - apply protects_bind; [apply H | intros; apply protects_ret].
  - apply protects_ret.
Qed.

Lemma parseRequired_framed o c :
  OptP FE o -> framed (parseRequired pe o c).
Proof.
  intros H nt nc. destruct o as [x|]; simpl in *.
  - apply H.
  - apply protects_throw.
Qed.

Lemma nullableOf_framed o c : OptP FE o -> framed (nullableOf pe o c).
Proof.
  intros H nt nc. destruct o as [x|]; simpl in *.
  - apply protects_bind; [apply H | intros; apply protects_ret].
  - apply protects_ret.
Qed.

Lemma parseAArrayExpr_framed elements c :
  Forall FE elements -> framed (parseAArrayExpr pe elements c).
Proof.
  intros H nt nc. unfold parseAArrayExpr.
  apply protects_bind; [apply parseArg0_framed, H | intros].
  apply protects_ret.
Qed.

Lemma parseAExpr_framed kind lexpr name rexpr c :
  OptP FE lexpr -> OptP FE rexpr ->
  framed (parseAExpr isArray isBit isJson isTime isTimestamp pe kind lexpr
            name rexpr c).
Proof.
  intros Hl Hr nt nc.
  pose proof (parseOptional_framed lexpr c Hl) as OL.
  pose proof (parseOptional_framed rexpr c Hr) as OR.
  pose proof (parseRequired_framed lexpr c Hl) as RL.
  pose proof (parseRequired_framed rexpr c Hr) as RR.
  destruct kind; unfold parseAExpr; frame_auto.
Qed.

Lemma parseAIndirection_framed arg indirection c :
  FE arg -> Forall (PIndices FE) indirection ->
  framed (parseAIndirection isArray isJson getElementType pe arg
            indirection c).
Proof.
  intros Ha Hi nt nc. unfold parseAIndirection.
  apply protects_bind; [apply Ha | intros a].
  destruct (isArray (pe_type a)); [| frame_auto].
  destruct (Nat.ltb 1 (List.length indirection)); [frame_auto|].
  destruct Hi as [|[s lidx uidx] l [Hl Hu] _]; [frame_auto|].
  pose proof (nullableOf_framed lidx c Hl).
  pose proof (nullableOf_framed uidx c Hu).
  frame_auto.
Qed.

Lemma mapM_pe_framed args c :
  Forall FE args -> framed (mapM (fun a => pe a c) args).
Proof.
  intros H nt nc. apply protects_mapM.
  eapply Forall_impl; [exact H|]. intros a Ha. apply Ha.
Qed.

Lemma parseBoolExpr_framed args c :
  Forall FE args -> framed (parseBoolExpr pe args c).
Proof.
  intros H nt nc. unfold parseBoolExpr.
  apply protects_bind; [apply mapM_pe_framed, H | intros].
  apply protects_ret.
Qed.

Lemma parseCaseExpr_framed args defresult c :
  Forall (PWhen FE) args -> OptP FE defresult ->
  framed (parseCaseExpr pe args defresult c).
Proof.
  intros Ha Hd nt nc. unfold parseCaseExpr.
  pose proof (parseOptional_framed defresult c Hd).
  apply protects_bind.
  - apply protects_mapM. eapply Forall_impl; [exact Ha|].
    intros [e r] [_ Hr]. apply Hr.
  - intros. frame_auto.
Qed.

Lemma collectCoalesce_framed args c :
  Forall FE args -> framed (collectCoalesce pe c args).
Proof.
  intros H nt nc. induction H as [|a l Ha _ IH]; simpl.
  - apply protects_ret.
  - apply protects_bind; [apply Ha | intros e].
    destruct (negb (pe_nullable e)); [apply protects_ret|].
    apply protects_bind; [exact IH | intros; apply protects_ret].
Qed.

Lemma parseCoalesceExpr_framed args c :
  Forall FE args -> framed (parseCoalesceExpr pe args c).
Proof.
  intros H nt nc. unfold parseCoalesceExpr.
  apply protects_bind; [apply collectCoalesce_framed, H | intros].
  frame_auto.
Qed.

Lemma resolved_framed fields name column :
  framed (resolved fields name column).
Proof. intros nt nc. unfold resolved. frame_auto. Qed.

Lemma parseColumnRef_framed fields c : framed (parseColumnRef fields c).
Proof.
  intros nt nc. unfold parseColumnRef.
  apply protects_bind; [apply protects_readTables | intros tbls].
  destruct (Nat.ltb 2 (List.length fields)); [apply protects_throw|].
  destruct fields as [|f0 [|f1 [|f2 r]]]; try apply protects_throw.
  - destruct (isStar f0); [apply protects_ret|].
    apply protects_bind; [apply protects_lift | intros].
    apply protects_bind; [apply protects_lift | intros].
    apply resolved_framed.
  - destruct (isStar f1).
    + apply protects_bind; [apply protects_lift | intros].
      apply protects_ret.
    + apply protects_bind; [apply protects_lift | intros t].
      destruct (lookupTable t tbls); [| apply resolved_framed].
      apply protects_bind; [apply protects_lift | intros].
      apply resolved_framed.
Qed.

Lemma anyNullable_framed type args c :
  Forall FE args -> framed (anyNullable pe type args c).
Proof.
  intros H nt nc. unfold anyNullable.
  apply protects_bind; [apply someNullable_framed, H | intros].
  apply protects_ret.
Qed.

Lemma parseFuncCall_framed funcname args c :
  Forall FE args -> framed (parseFuncCall getElementType pe funcname args c).
Proof.
  intros H nt nc. unfold parseFuncCall.
  pose proof (parseArg0_framed args c H) as A0.
  pose proof (parseArg1_framed args c H) as A1.
  pose proof (someNullable_framed args c H) as SN.
  pose proof (fun t => anyNullable_framed t args c H) as AN.
  apply protects_bind; [apply protects_defined | intros fn].
  repeat
    match goal with
    | |- protects _ _ (if ?b then _ else _) =>
        destruct b; [solve [frame_auto; apply AN] |]
    end.
  apply protects_ret.
Qed.

Lemma parseList_framed items c :
  Forall FE items -> framed (parseList pe items c).
Proof.
  intros H nt nc. unfold parseList.
  apply protects_bind; [apply mapM_pe_framed, H | intros].
  frame_auto.
Qed.

Lemma parseMinMaxExpr_framed args c :
  Forall FE args -> framed (parseMinMaxExpr pe args c).
Proof.
  intros H nt nc. unfold parseMinMaxExpr.
  apply protects_bind; [apply mapM_pe_framed, H | intros].
  frame_auto.
Qed.

Lemma parseSubLink_framed t subselect c :
  FS subselect -> framed (parseSubLink ps t subselect c).
Proof.
  intros H nt nc. unfold parseSubLink, FS in *.
  destruct t; frame_auto.
Qed.

Lemma parseTypeCast_framed arg typeName c :
  FE arg -> framed (parseTypeCast pe arg typeName c).
Proof.
  intros H nt nc. unfold parseTypeCast.
  apply protects_bind; [apply H | intros a].
  apply protects_bind; [destruct (names typeName); frame_auto | intros t].
  frame_auto.
Qed.

Lemma targetStep_framed c acc target :
  PTarget FE target -> framed (targetStep pe c acc target).
Proof.
  intros H nt nc. destruct target as [name location val]. simpl in H.
  unfold targetStep, FE in *.
  assert (O : protects nt nc
                (parsedExpression <- pe val c ;;
                 match aliasOf name parsedExpression with
                 | Some alias =>
                     if Js.truthy alias then
                       ret (Js.set alias
                              (mkParsedExpression
                                 (pe_constantValue parsedExpression)
                                 (Some alias)
                                 (pe_nullable parsedExpression)
                                 (pe_set parsedExpression)
                                 (pe_type parsedExpression)
                                 (pe_types parsedExpression))
                              acc)
                     else throw (MissingAlias val)
                 | None => throw (MissingAlias val)
                 end)).
  { apply protects_bind; [apply H | intros]. frame_auto. }
  destruct val; try exact O.
  destruct fields as [|f0 more]; [apply protects_throw|].
  destruct (isStar f0); [frame_auto|].
  destruct more as [|f1 more]; [exact O|].
  destruct (isStar f1); [frame_auto | exact O].
Qed.

Lemma parseTargetList_framed targetList c :
  Forall (PTarget FE) targetList -> framed (parseTargetList pe targetList c).
Proof.
  intros H nt nc. unfold parseTargetList.
  apply protects_bind; [| intros; apply protects_ret].
  apply protects_foldM. eapply Forall_impl; [exact H|].
  intros t Ht acc. apply targetStep_framed, Ht.
Qed.

Lemma parseTargets_framed targetList c :
  OptP (Forall (PTarget FE)) targetList ->
  framed (parseTargets pe targetList c).
Proof.
  intros H. destruct targetList as [l|]; simpl in *.
  - apply parseTargetList_framed, H.
  - apply parseTargetList_framed. constructor.
Qed.

Lemma parseJoinExpr_framed jointype larg rarg parsedTables c :
  FF larg -> FF rarg ->
  framed (parseJoinExpr pf jointype larg rarg parsedTables c).
Proof.
  intros Hl Hr nt nc. unfold parseJoinExpr, FF in *.
  apply protects_bind; [apply Hl | intros]. apply Hr.
Qed.

Lemma parseRangeSubselect_framed alias subquery parsedTables c nullable :
  FS subquery ->
  framed (parseRangeSubselect ps alias subquery parsedTables c nullable).
Proof.
  intros H nt nc. unfold parseRangeSubselect, FS in *. frame_auto.
Qed.

Lemma parseRangeVar_framed rv parsedTables c nullable :
  framed (parseRangeVar rv parsedTables c nullable).
Proof. intros nt nc. unfold parseRangeVar. frame_auto. Qed.

Lemma collectFromItems_framed fromItems c :
  Forall FF fromItems -> framed (collectFromItems pf fromItems c).
Proof.
  intros H nt nc. unfold collectFromItems.
  apply protects_foldM. eapply Forall_impl; [exact H|].
  intros f Hf acc. unfold FF in Hf.
  apply protects_bind; [apply Hf | intros; apply protects_ret].
Qed.

Lemma parseFromClause_framed fromItems c :
  Forall FF fromItems -> framed (parseFromClause pf fromItems c).
Proof.
  intros H nt nc. unfold parseFromClause.
  apply protects_bind; [apply collectFromItems_framed, H | intros].
  frame_auto.
Qed.

(** A common table expression is written into the catalog of the
    context it is given, and nowhere else. *)
Lemma parseCommonTableExpr_protects nt nc cte c :
  PCte FT cte -> nc <= tablesBySchema c ->
  protects nt nc (parseCommonTableExpr pt cte c).
Proof.
  intros H Hc. destruct cte as [ctename aliascolnames ctequery].
  simpl in H. unfold parseCommonTableExpr, FT in *.
  apply protects_bind; [apply H | intros].
  apply protects_bind; [apply protects_readCatalog | intros].
  apply protects_bind; [apply protects_defined | intros].
  apply protects_writeCatalog, Hc.
Qed.

Lemma parseWithClause_framed ctes c :
  Forall (PCte FT) ctes -> framed (parseWithClause pt ctes c).
Proof.
  intros H nt nc. unfold parseWithClause.
  apply protects_after_clone. intros c' _ Hc.
  apply protects_bind; [| intros; apply protects_ret].
  apply protects_foldM. eapply Forall_impl; [exact H|].
  intros cte Hcte acc. apply parseCommonTableExpr_protects; assumption.
Qed.

(** The target relation of a data modifying statement is bound in the
    clone. *)
Lemma bindRelation_framed relation c : framed (bindRelation relation c).
Proof.
  intros nt nc. unfold bindRelation.
  apply protects_after_clone. intros c' Ht _.
  apply protects_bind; [apply protects_readCatalog | intros].
  apply protects_bind; [apply protects_defined | intros].
  apply protects_bind; [apply protects_readTables | intros].
  apply protects_bind; [apply protects_writeTables, Ht | intros].
  apply protects_ret.
Qed.

Lemma parseDeleteStmt_framed relation returningList c :
  OptP (Forall (PTarget FE)) returningList ->
  framed (parseDeleteStmt pe relation returningList c).
Proof.
  intros H nt nc. unfold parseDeleteStmt.
  apply protects_bind; [apply bindRelation_framed | intros].
  apply parseTargets_framed, H.
Qed.

Lemma parseInsertStmt_framed relation returningList c :
  OptP (Forall (PTarget FE)) returningList ->
  framed (parseInsertStmt pe relation returningList c).
Proof. apply parseDeleteStmt_framed. Qed.

Lemma parseUpdateStmt_framed relation returningList c :
  OptP (Forall (PTarget FE)) returningList ->
  framed (parseUpdateStmt pe relation returningList c).
Proof. apply parseDeleteStmt_framed. Qed.

Lemma parseSelectStmtBody_framed stmt c :
  match stmt with
  | SelectPlain targetList fromClause withClause =>
      OptP (Forall (PTarget FE)) targetList
      /\ OptP (Forall FF) fromClause
      /\ OptP (Forall (PCte FT)) withClause
  | SelectSetOp larg rarg => FS larg /\ FS rarg
  | SelectValues valuesLists => Forall (Forall FE) valuesLists
  end ->
  framed (parseSelectStmtBody pe ps pf pt stmt c).
Proof.
  intros H nt nc. destruct stmt as [tl fc wc | l r | vl]; simpl.
  - destruct H as (Ht & Hf & Hw).
    apply protects_bind.
    { destruct wc as [ctes|]; simpl in Hw;
        [apply parseWithClause_framed, Hw | apply protects_ret]. }
    intros c1. apply protects_bind.
    { destruct fc as [items|]; simpl in Hf;
        [apply parseFromClause_framed, Hf | apply protects_ret]. }
    intros c2. apply parseTargets_framed, Ht.
  - destruct H as (Hl & Hr). unfold FS in *. frame_auto.
  - apply protects_bind.
    { apply protects_mapM. eapply Forall_impl; [exact H|].
      intros row Hrow. apply mapM_pe_framed, Hrow. }
    intros. frame_auto.
Qed.

End FrameOfBodies.

Section FrameOfAnalyzer.

Variables isArray isBit isJson isTime isTimestamp : string -> bool.
Variable getElementType : string -> string.

Notation parseExpression' :=
  (parseExpression isArray isBit isJson isTime isTimestamp getElementType).
Notation parseSelectStmt' :=
  (parseSelectStmt isArray isBit isJson isTime isTimestamp getElementType).
Notation parseFromItem' :=
  (parseFromItem isArray isBit isJson isTime isTimestamp getElementType).
Notation parseStmt' :=
  (parseStmt isArray isBit isJson isTime isTimestamp getElementType).

Lemma parseExpression_eq e c :
  parseExpression' e c
  = parseExpressionBody isArray isBit isJson isTime isTimestamp
      getElementType parseExpression' parseSelectStmt' e c.
Proof. destruct e; reflexivity. Qed.

Lemma parseSelectStmt_eq s c :
  parseSelectStmt' s c
  = parseSelectStmtBody parseExpression' parseSelectStmt' parseFromItem'
      parseStmt' s c.
Proof. destruct s; reflexivity. Qed.

Lemma parseFromItem_eq f l c n :
  parseFromItem' f l c n
  = parseFromItemBody parseSelectStmt' parseFromItem' f l c n.
Proof. destruct f; reflexivity. Qed.

Lemma parseStmt_eq s c :
  parseStmt' s c = parseStmtBody parseExpression' parseSelectStmt' s c.
Proof. destruct s; reflexivity. Qed.

Lemma analyzer_framed :
  (forall e, FE parseExpression' e)
  /\ (forall s, FS parseSelectStmt' s)
  /\ (forall f, FF parseFromItem' f)
  /\ (forall s, FT parseStmt' s).
Proof.
  apply tree_ind; intros;
    repeat match goal with
      | |- FE _ _ => intros c; rewrite parseExpression_eq; simpl
      | |- FS _ _ => intros c; rewrite parseSelectStmt_eq
      | |- FF _ _ => intros l c n; rewrite parseFromItem_eq; simpl
      | |- FT _ _ => intros c; rewrite parseStmt_eq; simpl
      end;
    try (intros nt nc; apply protects_ret).
  - apply parseAArrayExpr_framed; assumption.
  - apply parseAExpr_framed; assumption.
  - apply parseAIndirection_framed; assumption.
  - apply parseBoolExpr_framed; assumption.
  - apply parseCaseExpr_framed; assumption.
  - apply parseCoalesceExpr_framed; assumption.
  - apply parseColumnRef_framed.
  - apply parseFuncCall_framed; assumption.
  - apply parseList_framed; assumption.
  - apply parseMinMaxExpr_framed; assumption.
  - apply parseSubLink_framed; assumption.
  - apply parseTypeCast_framed; assumption.
  - apply parseSelectStmtBody_framed. auto.
  - apply parseSelectStmtBody_framed. auto.
  - apply parseSelectStmtBody_framed. assumption.
  - apply parseJoinExpr_framed; assumption.
  - apply parseRangeVar_framed.
  - apply parseRangeSubselect_framed; assumption.
  - apply parseDeleteStmt_framed; assumption.
  - apply parseInsertStmt_framed; assumption.
  - match goal with H : FS _ _ |- _ => apply H end.
  - apply parseUpdateStmt_framed; assumption.
Qed.

Lemma parseExpression_framed e c : framed (parseExpression' e c).
Proof. apply analyzer_framed. Qed.

Lemma parseSelectStmt_framed s c : framed (parseSelectStmt' s c).
Proof. apply analyzer_framed. Qed.

Lemma parseFromItem_framed f l c n : framed (parseFromItem' f l c n).
Proof. apply analyzer_framed. Qed.

Lemma parseStmt_framed s c : framed (parseStmt' s c).
Proof. apply analyzer_framed. Qed.

End FrameOfAnalyzer.

(** ** Dictionary objects *)

Section JsFacts.

Context {V : Type}.

Lemma get_set k k' (v : V) o :
  Js.get k (Js.set k' v o) = if String.eqb k k' then Some v else Js.get k o.
Proof.
  induction o as [|[k0 v0] o IH]; simpl.
  - destruct (String.eqb k k'); reflexivity.
  - destruct (String.eqb_spec k' k0) as [->|N]; simpl.
    + destruct (String.eqb k k0); reflexivity.
    + destruct (String.eqb_spec k k0) as [->|N'].
      * destruct (String.eqb_spec k0 k'); [congruence | reflexivity].
      * exact IH.
Qed.

Lemma get_In k (o : Js.obj V) :
  In k (List.map fst o) <-> exists v, Js.get k o = Some v.
Proof.
  induction o as [|[k0 v0] o IH]; simpl.
  - split; [intros [] | intros [v E]; discriminate].
  - destruct (String.eqb_spec k k0) as [->|N].
    + split; [intros _; eauto | intros _; left; reflexivity].
    + rewrite <- IH. split; [intros [E|I]; [congruence | exact I] | auto].
Qed.

Lemma In_insertIndex n k l x :
  In x (Js.insertIndex n k l) <-> x = (n, k) \/ In x l.
Proof.
  induction l as [|[m k'] l IH]; simpl.
  - split; intros [E|[]]; auto.
  - destruct (n <=? m)%N; simpl.
    + split; intros [E|I]; auto.
    + rewrite IH. split; intros H; decompose [or] H; auto.
Qed.

Lemma In_indexKeys k ks :
  In k (List.map snd (Js.indexKeys ks))
  <-> In k ks /\ Js.isIndexKey k = true.
Proof.
  induction ks as [|k0 ks IH]; simpl.
  - split; [intros [] | intros [[] _]].
  - unfold Js.isIndexKey in *.
    destruct (Js.arrayIndex k0) as [n|] eqn:E.
    + rewrite in_map_iff. split.
      * intros ([m k1] & <- & I). apply In_insertIndex in I as [I|I]; simpl.
        -- inversion I; subst. rewrite E. auto.
        -- assert (J : In k1 (List.map snd (Js.indexKeys ks))).
           { apply in_map_iff. exists (m, k1). auto. }
           apply IH in J as [J1 J2]. auto.
      * intros [[->|I] Hk].
        -- exists (n, k). split; [reflexivity|].
           apply In_insertIndex. auto.
        -- assert (J : In k (List.map snd (Js.indexKeys ks)))
             by (apply IH; auto).
           apply in_map_iff in J as ([m k1] & <- & J).
           exists (m, k1). split; [reflexivity|].
           apply In_insertIndex. auto.
    + rewrite IH. split.
      * intros [I Hk]. auto.
      * intros [[->|I] Hk]; [rewrite E in Hk; discriminate | auto].
Qed.

(** [Object.keys] lists exactly the keys of the object. *)
Lemma In_keys k (o : Js.obj V) :
  In k (Js.keys o) <-> In k (List.map fst o).
Proof.
  unfold Js.keys. rewrite in_app_iff, In_indexKeys, filter_In.
  destruct (Js.isIndexKey k); simpl; intuition congruence.
Qed.

Lemma In_entries k v (o : Js.obj V) :
  In (k, v) (Js.entries o) <-> Js.get k o = Some v.
Proof.
  unfold Js.entries. rewrite in_flat_map. split.
  - intros (k' & _ & I). destruct (Js.get k' o) as [v'|] eqn:E; simpl in I.
    + destruct I as [I|[]]. inversion I; subst. exact E.
    + destruct I.
  - intros E. exists k. split.
    + apply In_keys, get_In. eauto.
    + rewrite E. left. reflexivity.
Qed.

End JsFacts.

Lemma find_app_first {T} (f : T -> bool) l1 l2 :
  List.find f (l1 ++ l2)
  = match List.find f l1 with
    | Some x => Some x
    | None => List.find f l2
    end.
Proof.
  induction l1 as [|x l1 IH]; simpl; [reflexivity|].
  destruct (f x); [reflexivity | exact IH].
Qed.

(** Writing a list of entries one by one. *)
Lemma get_fold_set {V W} (g : string * V -> W) k es acc :
  Js.get k
    (List.fold_left (fun acc kv => Js.set (fst kv) (g kv) acc) es acc)
  = match List.find (fun kv => String.eqb k (fst kv)) (List.rev es) with
    | Some kv => Some (g kv)
    | None => Js.get k acc
    end.
Proof.
  revert acc. induction es as [|x es IH]; intros acc; simpl.
  - reflexivity.
  - rewrite IH, find_app_first.
    destruct (List.find _ (List.rev es)); [reflexivity|].
    simpl. rewrite get_set. destruct (String.eqb k (fst x)); reflexivity.
Qed.


(** ** Joins and the nullability of the tables they bring into scope *)

(** A nullable parsed table enters the scope with each of its columns,
    under the same name and type, forced to nullable. *)
Lemma forceNullable_get name columns :
  Js.get name (forceNullable columns)
  = option_map (fun c => mkColumn true (col_type c)) (Js.get name columns).
Proof.
  unfold forceNullable.
  rewrite (get_fold_set (fun kv => mkColumn true (col_type (snd kv)))).
  destruct (List.find _ (List.rev (Js.entries columns))) as [[k v]|] eqn:F.
  - apply find_some in F as [I E]. simpl in E.
    apply String.eqb_eq in E. subst k.
    apply in_rev, In_entries in I. rewrite I. reflexivity.
  - simpl. destruct (Js.get name columns) as [v|] eqn:G; [|reflexivity].
    apply In_entries, in_rev in G.
    apply (find_none _ _ F) in G. simpl in G.
    rewrite String.eqb_refl in G. discriminate.
Qed.

Lemma scopeEntry_nullable parsedTable name column :
  pt_nullable parsedTable = true ->
  Js.get name (tbl_columns (scopeEntry parsedTable)) = Some column ->
  col_nullable column = true.
Proof.
  intros N G. unfold scopeEntry in G. rewrite N in G. simpl in G.
  rewrite forceNullable_get in G.
  destruct (Js.get name (pt_columns parsedTable)); inversion G. reflexivity.
Qed.

(** [kept] is [before] with some tables marked nullable: same aliases and
    columns position by position, and no flag lowered. *)
Definition marked (before kept : list ParsedTable) : Prop :=
  Forall2
    (fun p q =>
       pt_alias q = pt_alias p /\ pt_columns q = pt_columns p
       /\ (pt_nullable p = true -> pt_nullable q = true))
    before kept.

Lemma marked_refl l : marked l l.
Proof. induction l; constructor; auto. Qed.

Lemma marked_trans l1 l2 l3 : marked l1 l2 -> marked l2 l3 -> marked l1 l3.
Proof.
  unfold marked. intros H. revert l3.
  induction H as [|p q l1 l2 (A & B & C) _ IH]; intros l3 H3;
    inversion H3 as [|q' r l2' l3' (A' & B' & C') H3']; subst;
    constructor; [|apply IH; assumption].
  repeat split; [congruence | congruence | auto].
Qed.

Lemma marked_markNullable l : marked l (List.map markNullable l).
Proof. induction l; simpl; constructor; auto. Qed.

Lemma markNullable_all l :
  Forall (fun t => pt_nullable t = true) (List.map markNullable l).
Proof. induction l; simpl; constructor; auto. Qed.

Lemma marked_app_inv l1 l2 k :
  marked (l1 ++ l2) k ->
  exists k1 k2, k = k1 ++ k2 /\ marked l1 k1 /\ marked l2 k2.
Proof.
  intros H. apply Forall2_app_inv_l in H as (k1 & k2 & H1 & H2 & ->).
  exists k1, k2. auto.
Qed.

Lemma marked_all_nullable l k :
  marked l k -> Forall (fun t => pt_nullable t = true) l ->
  Forall (fun t => pt_nullable t = true) k.
Proof.
  induction 1 as [|p q l k (_ & _ & C) _ IH]; intros F.
  - constructor.
  - inversion F; subst. constructor; auto.
Qed.

Definition isTableItem (fromItem : FromItem) : Prop :=
  match fromItem with
  | JoinExpr _ _ _ => False
  | _ => True
  end.

Definition nullsLeft (jointype : JoinType) : Prop :=
  jointype = JOIN_RIGHT \/ jointype = JOIN_FULL.

Definition nullsRight (jointype : JoinType) : Prop :=
  jointype = JOIN_LEFT \/ jointype = JOIN_FULL.

Section Joins.

Variables isArray isBit isJson isTime isTimestamp : string -> bool.
Variable getElementType : string -> string.

Notation parseFromItem' :=
  (parseFromItem isArray isBit isJson isTime isTimestamp getElementType).
Notation parseSelectStmt' :=
  (parseSelectStmt isArray isBit isJson isTime isTimestamp getElementType).
Notation parseFromClause' :=
  (parseFromClause parseFromItem').
Notation collectFromItems' :=
  (collectFromItems parseFromItem').

(** A table item appends exactly one table, carrying the flag it was
    given. *)
Lemma table_item_appends fromItem parsedTables c nullable h result h' :
  isTableItem fromItem ->
  parseFromItem' fromItem parsedTables c nullable h = (Ok result, h') ->
  exists t, result = parsedTables ++ [t] /\ pt_nullable t = nullable.
Proof.
  intros T E. rewrite parseFromItem_eq in E.
  destruct fromItem as [jt l r | rv | alias subquery]; [destruct T | |];
    simpl in E.
  - unfold parseRangeVar in E.
    apply bind_inv_Ok in E as (catalog & h1 & _ & E).
    match type of E with
    | match ?t with _ => _ end _ = _ => destruct t as [table|]
    end; inversion E; subst.
    eexists. split; reflexivity.
  - unfold parseRangeSubselect in E.
    apply bind_inv_Ok in E as (targets & h1 & _ & E).
    inversion E; subst. eexists. split; reflexivity.
Qed.

(** Analyzing a FROM item keeps the tables collected so far, possibly
    marked nullable, and appends its own. *)
Lemma parseFromItem_appends :
  forall fromItem parsedTables c nullable h result h',
    parseFromItem' fromItem parsedTables c nullable h = (Ok result, h') ->
    exists kept own, result = kept ++ own /\ marked parsedTables kept.
Proof.
  apply (FromItem_tree_ind (fun _ => True) (fun _ => True)
           (fun f =>
              forall parsedTables c nullable h result h',
                parseFromItem' f parsedTables c nullable h
                = (Ok result, h') ->
                exists kept own,
                  result = kept ++ own /\ marked parsedTables kept)
           (fun _ => True)); try (intros; exact I).
  - intros jt l r IHl IHr parsedTables c nullable h result h' E.
    rewrite parseFromItem_eq in E. simpl in E. unfold parseJoinExpr in E.
    apply bind_inv_Ok in E as (left & h1 & El & Er).
    apply IHl in El as (k1 & o1 & -> & M1).
    apply IHr in Er as (k2 & o2 & -> & M2).
    assert (M : marked (k1 ++ o1) k2).
    { destruct jt; try exact M2;
        (eapply marked_trans; [apply marked_markNullable | exact M2]). }
    apply marked_app_inv in M as (ka & kb & -> & Ma & Mb).
    exists ka, (kb ++ o2). split.
    + rewrite app_assoc. reflexivity.
    + eapply marked_trans; eassumption.
  - intros rv parsedTables c nullable h result h' E.
    apply table_item_appends in E as (t & -> & _); [|exact I].
    exists parsedTables, [t]. split; [reflexivity | apply marked_refl].
  - intros alias subquery _ parsedTables c nullable h result h' E.
    apply table_item_appends in E as (t & -> & _); [|exact I].
    exists parsedTables, [t]. split; [reflexivity | apply marked_refl].
Qed.

Lemma foldM_collect fromItems c acc h :
  foldM (fun parsedTables fromItem =>
           own <- parseFromItem' fromItem [] c false ;;
           ret (parsedTables ++ own))
        fromItems acc h
  = (more <- collectFromItems' fromItems c ;; ret (acc ++ more)) h.
Proof.
  unfold collectFromItems.
  revert acc h. induction fromItems as [|x r IH]; intros acc h; simpl.
  - mnorm. rewrite app_nil_r. reflexivity.
  - mnorm.
    destruct (parseFromItem' x [] c false h) as [[own|e] h1];
      [|reflexivity].
    rewrite (IH (acc ++ own)), (IH ([] ++ own)). mnorm.
    destruct (foldM _ r [] h1) as [[more|e] h2]; [|reflexivity].
    simpl. rewrite app_assoc. reflexivity.
Qed.

(** The tables of a FROM clause are those of its items, each analyzed
    on a list of its own. *)
Lemma collectFromItems_item before fromItem after c h :
  collectFromItems' (before ++ fromItem :: after) c h
  = (pb <- collectFromItems' before c ;;
     own <- parseFromItem' fromItem [] c false ;;
     pa <- collectFromItems' after c ;;
     ret (pb ++ own ++ pa)) h.
Proof.
  revert h. induction before as [|x r IH]; intros h.
  - change (collectFromItems' ([] ++ fromItem :: after) c h)
      with (foldM (fun parsedTables fromItem =>
                     own <- parseFromItem' fromItem [] c false ;;
                     ret (parsedTables ++ own))
                  (fromItem :: after) [] h).
    change (collectFromItems' [] c) with (@ret (list ParsedTable) []).
    simpl. mnorm.
    destruct (parseFromItem' fromItem [] c false h) as [[own|e] h1];
      [|reflexivity].
    rewrite foldM_collect. mnorm.
    destruct (collectFromItems' after c h1) as [[pa|e] h2]; reflexivity.
  - change (collectFromItems' ((x :: r) ++ fromItem :: after) c h)
      with (foldM (fun parsedTables fromItem =>
                     own <- parseFromItem' fromItem [] c false ;;
                     ret (parsedTables ++ own))
                  (x :: r ++ fromItem :: after) [] h).
    change (collectFromItems' (x :: r) c)
      with (foldM (fun parsedTables fromItem =>
                     own <- parseFromItem' fromItem [] c false ;;
                     ret (parsedTables ++ own))
                  (x :: r) []).
    simpl. mnorm.
    destruct (parseFromItem' x [] c false h) as [[own|e] h1];
      [|reflexivity].
    rewrite !foldM_collect. mnorm. rewrite IH. mnorm.
    destruct (collectFromItems' r c h1) as [[pb|e] h2]; mnorm;
      [|reflexivity].
    destruct (parseFromItem' fromItem [] c false h2) as [[o|e] h3]; mnorm;
      [|reflexivity].
    destruct (collectFromItems' after c h3) as [[pa|e] h4]; mnorm;
      [|reflexivity].
    simpl. rewrite app_assoc. reflexivity.
Qed.

(** The scope [parseFromClause] returns holds, on top of the cloned
    outer scope, the entry of each parsed table under its alias. *)
Lemma parseFromClause_scope fromItems c h c' h' :
  parseFromClause' fromItems c h = (Ok c', h') ->
  exists parsedTables h1,
    collectFromItems' fromItems c h = (Ok parsedTables, h1)
    /\ List.nth (tables c') (tablesCells h') []
       = addToScope parsedTables
           (Js.entries
              (cloneTables (List.nth (tables c) (tablesCells h1) []))).
Proof.
  unfold parseFromClause. intros E.
  apply bind_inv_Ok in E as (parsedTables & h1 & Ec & E).
  exists parsedTables, h1. split; [exact Ec|].
  unfold bind in E. rewrite clone_run in E. simpl in E.
  inversion E; subst; clear E. simpl.
  rewrite !List.nth_middle. reflexivity.
Qed.

End Joins.

(** ** COALESCE and CASE *)

Section Branches.

Variables isArray isBit isJson isTime isTimestamp : string -> bool.
Variable getElementType : string -> string.

Notation parseExpression' :=
  (parseExpression isArray isBit isJson isTime isTimestamp getElementType).

(** The arguments of a COALESCE that are analyzed: all of them when
    every one is nullable, else those up to and including the first
    non-nullable one. *)
Lemma collectCoalesce_spec c args h types h' :
  collectCoalesce parseExpression' c args h = (Ok types, h') ->
  exists k,
    k <= List.length args
    /\ mapM (fun a => parseExpression' a c) (take k args) h = (Ok types, h')
    /\ Forall (fun e => pe_nullable e = true) (removelast types)
    /\ (k < List.length args ->
        exists e, List.last types e = e /\ lastOf types = Some e
                  /\ pe_nullable e = false).
Proof.
  revert h types. induction args as [|a args IH]; intros h types E;
    simpl in E.
  - inversion E; subst. exists 0. simpl. repeat split; auto; lia.
  - apply bind_inv_Ok in E as (e & h1 & Ea & E).
    destruct (pe_nullable e) eqn:N; simpl in E.
    + apply bind_inv_Ok in E as (ts & h2 & Er & E).
      inversion E; subst; clear E.
      apply IH in Er as (k & Hk & Em & Hn & Hl).
      exists (S k). simpl. split; [lia|]. split; [|split].
      * mnorm. rewrite Ea. mnorm. rewrite Em. reflexivity.
      * destruct ts as [|t ts]; [constructor|].
        constructor; [exact N | exact Hn].
      * intros Hlt. destruct Hl as (x & L1 & L2 & L3); [lia|].
        exists x. destruct ts as [|t ts]; [discriminate L2|].
        repeat split; assumption.
    + inversion E; subst; clear E. exists 1. simpl.
      split; [lia|]. split; [|split].
      * mnorm. rewrite Ea. reflexivity.
      * constructor.
      * intros _. exists e. auto.
Qed.

(** Once an argument is found non-nullable, what follows it is not
    looked at. *)
Lemma collectCoalesce_stops c before a after h results h1 e h2 :
  mapM (fun x => parseExpression' x c) before h = (Ok results, h1) ->
  parseExpression' a c h1 = (Ok e, h2) ->
  pe_nullable e = false ->
  collectCoalesce parseExpression' c (before ++ a :: after) h
  = collectCoalesce parseExpression' c (before ++ [a]) h.
Proof.
  revert h results. induction before as [|b before IH];
    intros h results Em Ea N; simpl in *.
  - inversion Em; subst. mnorm. rewrite Ea. mnorm. rewrite N. reflexivity.
  - apply bind_inv_Ok in Em as (y & h3 & Eb & Em).
    apply bind_inv_Ok in Em as (ys & h4 & Em & Er).
    inversion Er; subst; clear Er.
    mnorm. rewrite Eb. mnorm.
    destruct (negb (pe_nullable y)); [reflexivity|].
    mnorm. erewrite IH; eauto.
Qed.

(** C3. A COALESCE analyzes its arguments in order and stops right
    after the first non-nullable one: the branches are the analyses of
    a prefix of the arguments, all of them nullable except possibly the
    last, which is non-nullable whenever arguments remain; the type is
    that of the first branch; the result is nullable exactly when every
    branch is; the rendered union is made of the branches only; and the
    arguments after a non-nullable one do not matter at all. *)
Theorem coalesce_truncation args c h r h' :
  parseExpression' (CoalesceExpr args) c h = (Ok r, h') ->
  (exists k types first,
     k <= List.length args
     /\ mapM (fun a => parseExpression' a c) (take k args) h
        = (Ok types, h')
     /\ pe_types r = Some types
     /\ Forall (fun e => pe_nullable e = true) (removelast types)
     /\ (k < List.length args ->
         exists e, lastOf types = Some e /\ pe_nullable e = false)
     /\ List.head types = Some first
     /\ pe_type r = pe_type first
     /\ pe_nullable r = List.forallb pe_nullable types
     /\ forall context,
         formatExpression r context
         = obind (mapO (tsTypeOf (mapType context)) types) (fun tsTypes =>
           obind (req (formatFunc context)) (fun f =>
           Ok (f EmptyString
                 (Js.join " | "
                    (unique (if List.forallb pe_nullable types
                             then tsTypes ++ ["null"] else tsTypes)))))))
  /\ (forall before a after results h1 e h2,
        args = before ++ a :: after ->
        mapM (fun x => parseExpression' x c) before h = (Ok results, h1) ->
        parseExpression' a c h1 = (Ok e, h2) ->
        pe_nullable e = false ->
        parseExpression' (CoalesceExpr (before ++ [a])) c h = (Ok r, h')).
Proof.
  intros E. rewrite parseExpression_eq in E. simpl in E. split.
  - unfold parseCoalesceExpr in E.
    apply bind_inv_Ok in E as (types & h1 & Ec & E).
    apply bind_inv_Ok in E as (first & h2 & Ef & E).
    destruct (List.head types) as [f|] eqn:Hd; simpl in Ef; [|discriminate].
    inversion Ef; subst; clear Ef. inversion E; subst; clear E.
    apply collectCoalesce_spec in Ec as (k & Hk & Em & Hn & Hl).
    exists k, types, first. simpl.
    repeat split; try assumption; try reflexivity.
    intros Hlt. destruct (Hl Hlt) as (e & _ & L & N). eauto.
  - intros before a after results h1 e h2 -> Em Ea N.
    rewrite parseExpression_eq. simpl. unfold parseCoalesceExpr in *.
    rewrite bind_run in *.
    erewrite <- collectCoalesce_stops; eauto.
Qed.

Lemma uniqueFrom_keeps seen l x :
  In x l -> Js.includes seen x = false -> In x (Js.uniqueFrom seen l).
Proof.
  revert seen. induction l as [|y l IH]; intros seen I S; simpl.
  - destruct I.
  - destruct (Js.includes seen y) eqn:Sy.
    + destruct I as [->|I]; [congruence | apply IH; assumption].
    + destruct I as [->|I]; [left; reflexivity|].
      destruct (String.eqb_spec x y) as [->|N]; [left; reflexivity|].
      right. apply IH; [exact I|].
      simpl. rewrite S. apply String.eqb_neq in N. rewrite N. reflexivity.
Qed.

Lemma unique_keeps l x : In x l -> In x (unique l).
Proof. intros I. apply uniqueFrom_keeps; [exact I | reflexivity]. Qed.

(** With a type mapper at hand, rendering the branches cannot fail. *)
Lemma mapO_tsTypeOf mt types :
  mapO (tsTypeOf (Some mt)) types
  = Ok (List.map
          (fun e =>
             match pe_constantValue e with
             | Some v => v
             | None => mt (pe_type e)
             end)
          types).
Proof.
  induction types as [|e types IH]; simpl; [reflexivity|].
  rewrite IH. unfold tsTypeOf. destruct (pe_constantValue e); reflexivity.
Qed.

(** The analyses of a list of items, one after the other, each from the
    store the one before it left. *)
Inductive inOrder {A B} (f : A -> M B)
  : list A -> heap -> list B -> heap -> Prop :=
| inOrder_nil h : inOrder f [] h [] h
| inOrder_cons a l h b h1 bs h' :
    f a h = (Ok b, h1) ->
    inOrder f l h1 bs h' ->
    inOrder f (a :: l) h (b :: bs) h'.

Lemma mapM_inOrder {A B} (f g : A -> M B) l :
  (forall a, f a = g a) ->
  forall h bs h',
    mapM f l h = (Ok bs, h') -> inOrder g l h bs h'.
Proof.
  intros X. induction l as [|a l IH]; intros h bs h' E.
  - inversion E; subst. constructor.
  - change (mapM f (a :: l) h)
      with ((y <- f a ;; ys <- mapM f l ;; ret (y :: ys)) h) in E.
    apply bind_inv_Ok in E as (b & h1 & Ea & E).
    apply bind_inv_Ok in E as (ys & h2 & El & E).
    inversion E; subst. rewrite X in Ea.
    econstructor; [exact Ea | apply IH, El].
Qed.

(** The result expression of a WHEN. *)
Definition whenResult (w : CaseWhen) : Expression :=
  match w with
  | mkCaseWhen _ result => result
  end.

(** C4. A CASE analyzes the result of each WHEN in order and then the
    ELSE, when there is one; it has the type of its first WHEN result;
    its branches are the WHEN results followed by the ELSE result; with
    an ELSE it is nullable exactly when some branch is; without ELSE it
    is nullable and its rendered type has [null] among the members of
    the union. *)
Theorem case_branches args defresult c h r h' :
  parseExpression' (CaseExpr args defresult) c h = (Ok r, h') ->
  exists results h1 first,
    inOrder (fun w => parseExpression' (whenResult w) c) args h results h1
    /\ List.head results = Some first
    /\ pe_type r = pe_type first
    /\ match defresult with
       | Some elseExpr =>
           exists elseResult,
             parseExpression' elseExpr c h1 = (Ok elseResult, h')
             /\ pe_types r = Some (results ++ [elseResult])
             /\ pe_nullable r
                = List.existsb pe_nullable (results ++ [elseResult])
       | None =>
           h' = h1
           /\ pe_types r = Some results
           /\ pe_nullable r = true
           /\ forall context f mt,
               formatFunc context = Some f -> mapType context = Some mt ->
               exists members,
                 formatExpression r context
                 = Ok (f EmptyString (Js.join " | " members))
                 /\ In "null" members
       end.
Proof.
  intros E. rewrite parseExpression_eq in E. simpl in E.
  unfold parseCaseExpr in E.
  apply bind_inv_Ok in E as (results & h1 & Er & E).
  apply bind_inv_Ok in E as (d & h2 & Ed & E).
  apply bind_inv_Ok in E as (first & h3 & Ef & E).
  destruct (List.head results) as [f0|] eqn:Hd; simpl in Ef; [|discriminate].
  inversion Ef; subst; clear Ef. inversion E; subst; clear E.
  exists results, h1, first.
  split.
  { eapply mapM_inOrder; [|exact Er]. intros [cond result]. reflexivity. }
  split; [exact Hd|]. split; [reflexivity|].
  destruct defresult as [elseExpr|]; simpl in Ed.
  - apply bind_inv_Ok in Ed as (y & h4 & Ey & Ed). inversion Ed; subst.
    exists y. simpl. repeat split. exact Ey.
  - inversion Ed; subst. simpl. repeat split.
    intros context f mt Hf Hm.
    unfold formatExpression. simpl. rewrite Hm, Hf, mapO_tsTypeOf. simpl.
    eexists. split; [reflexivity|].
    apply unique_keeps, in_or_app. right. left. reflexivity.
Qed.

End Branches.

(** ** Column references, subscripts and literals *)

Section Leaves.

Variables isArray isBit isJson isTime isTimestamp : string -> bool.
Variable getElementType : string -> string.

Notation parseExpression' :=
  (parseExpression isArray isBit isJson isTime isTimestamp getElementType).
Notation parseStmt' :=
  (parseStmt isArray isBit isJson isTime isTimestamp getElementType).

(** A table of the scope that is bound and does not have the column. *)
Definition lacks (column : string) (scope : Tables) (tableName : string)
  : Prop :=
  exists table,
    lookupTable tableName scope = Some table
    /\ Js.get column (tbl_columns table) = None.

Lemma findColumn_first column scope before tableName after table col :
  Forall (lacks column scope) before ->
  lookupTable tableName scope = Some table ->
  Js.get column (tbl_columns table) = Some col ->
  findColumn column scope (before ++ tableName :: after) = Ok (Some col).
Proof.
  intros B T C. induction B as [|b before (tb & Hb & Hc) _ IH]; simpl.
  - rewrite T, C. reflexivity.
  - rewrite Hb, Hc. exact IH.
Qed.

Lemma findColumn_none column scope tableNames :
  Forall (lacks column scope) tableNames ->
  findColumn column scope tableNames = Ok None.
Proof.
  induction 1 as [|b l (tb & Hb & Hc) _ IH]; simpl; [reflexivity|].
  rewrite Hb, Hc. exact IH.
Qed.


(** What a bound of a slice adds to its nullability: the nullability of
    the bound's own analysis, run from the store [h] and leaving [h'];
    nothing when the bound is missing. *)
Definition boundNullable (bound : option Expression) (c : Context)
  (h : heap) (n : bool) (h' : heap) : Prop :=
  match bound with
  | Some e =>
      exists r, parseExpression' e c h = (Ok r, h') /\ n = pe_nullable r
  | None => n = false /\ h' = h
  end.

(** C6. On an array-typed argument, a slice keeps the array type and is
    nullable when the argument, the lower bound or the upper bound is;
    an element subscript has the element type and is nullable whatever
    the argument and the index; more than one subscript is refused.  On
    a json-typed argument the result is [any], nullable. *)
Theorem subscript_types arg indirection c h a h1 :
  parseExpression' arg c h = (Ok a, h1) ->
  (isArray (pe_type a) = true ->
   forall lidx uidx nl h2 nu h3,
     indirection = [mkA_Indices true lidx uidx] ->
     boundNullable lidx c h1 nl h2 ->
     boundNullable uidx c h2 nu h3 ->
     exists h',
       parseExpression' (A_Indirection arg indirection) c h
       = (Ok (expr (pe_nullable a || nl || nu) (pe_type a)), h'))
  /\ (isArray (pe_type a) = true ->
      forall lidx uidx,
        indirection = [mkA_Indices false lidx uidx] ->
        parseExpression' (A_Indirection arg indirection) c h
        = (Ok (expr true (getElementType (pe_type a))), h1))
  /\ (isArray (pe_type a) = true ->
      1 < List.length indirection ->
      parseExpression' (A_Indirection arg indirection) c h
      = (Throw
           (notSupported
              "subscript expressions for multidimensional arrays"),
         h1))
  /\ (isArray (pe_type a) = false -> isJson (pe_type a) = true ->
      parseExpression' (A_Indirection arg indirection) c h
      = (Ok (expr true "any"), h1)).
Proof.
  intros Ea.
  assert (R : parseExpression' (A_Indirection arg indirection) c h
              = parseAIndirection isArray isJson getElementType
                  parseExpression' arg indirection c h)
    by (rewrite parseExpression_eq; reflexivity).
  assert (B : forall bound g n g',
             boundNullable bound c g n g' ->
             nullableOf parseExpression' bound c g = (Ok n, g')).
  { intros [e|] g n g'; simpl.
    - intros (r & E & ->). rewrite bind_run, E. reflexivity.
    - intros [-> ->]. reflexivity. }
  rewrite R. unfold parseAIndirection. rewrite bind_run, Ea.
  repeat split.
  - intros A lidx uidx nl h2 nu h3 -> El Eu. rewrite A. simpl.
    apply B in El. apply B in Eu.
    destruct (pe_nullable a); simpl.
    + mnorm. eauto.
    + mnorm. rewrite El. destruct nl; simpl.
      * mnorm. eauto.
      * rewrite Eu. eauto.
  - intros A lidx uidx ->. rewrite A. reflexivity.
  - intros A L. rewrite A.
    apply Nat.ltb_lt in L. rewrite L. reflexivity.
  - intros A J. rewrite A, J. reflexivity.
Qed.

(** The statement [SELECT <val> <x>]. *)
Definition selectOne (x : string) (location : Z) (val : Expression)
  : Stmt :=
  SelectStmt_ (SelectPlain (Some [mkResTarget (Some x) location val])
                 None None).

(** A boolean literal as the parser delivers it: the string [t] or [f]
    cast to a type whose last name is [bool]. *)
Definition boolLiteral (b : bool) (typeName : TypeName) : Expression :=
  TypeCast (A_Const (String_ (if b then "t" else "f"))) typeName.

Definition notColumnRef (val : Expression) : Prop :=
  match val with
  | ColumnRef _ => False
  | _ => True
  end.

(** [SELECT <val> <x>] for a [val] that is no column reference: the
    analysis of [val], named [x]. *)
Lemma selectOne_run x location val c h e :
  Js.truthy x = true ->
  notColumnRef val ->
  parseExpression' val c h = (Ok e, h) ->
  parseStmt' (selectOne x location val) c h
  = (Ok [mkParsedExpression (pe_constantValue e) (Some x) (pe_nullable e)
           (pe_set e) (pe_type e) (pe_types e)], h).
Proof.
  intros X N E. unfold selectOne.
  rewrite parseStmt_eq. cbn [parseStmtBody].
  rewrite parseSelectStmt_eq.
  cbn [parseSelectStmtBody]. mnorm.
  unfold parseTargets, parseTargetList, targetStep. simpl foldM. mnorm.
  destruct val; try contradiction; mnorm; rewrite E; cbn [aliasOf];
    rewrite X; reflexivity.
Qed.

End Leaves.

(** ** Answers do not depend on the rest of the store

    Two runs of the analyzer agree when the contexts they are given read
    the same scope and the same catalog, wherever those objects live and
    whatever else the two stores hold. *)

Definition valid (c : Context) (h : heap) : Prop :=
  tables c < List.length (tablesCells h)
  /\ tablesBySchema c < List.length (catalogCells h).

Definition sameStatics (c1 c2 : Context) : Prop :=
  defaultSchema c1 = defaultSchema c2 /\ fallbackType c1 = fallbackType c2.

Definition sameCells (c1 : Context) (h1 : heap) (c2 : Context) (h2 : heap)
  : Prop :=
  valid c1 h1 /\ valid c2 h2
  /\ List.nth (tables c1) (tablesCells h1) []
     = List.nth (tables c2) (tablesCells h2) []
  /\ List.nth (tablesBySchema c1) (catalogCells h1) []
     = List.nth (tablesBySchema c2) (catalogCells h2) [].

(** Both runs end the same way, with results related by [Q], and the two
    contexts still read the same. *)
Definition related {A} (c1 c2 : Context) (Q : A -> A -> Prop)
  (m1 m2 : M A) : Prop :=
  forall h1 h2,
    sameCells c1 h1 c2 h2 ->
    match m1 h1, m2 h2 with
    | (Ok a1, h1'), (Ok a2, h2') => Q a1 a2 /\ sameCells c1 h1' c2 h2'
    | (Throw e1, _), (Throw e2, _) => e1 = e2
    | _, _ => False
    end.

(** The same, for a computation that returns a context. *)
Definition relatedContexts (c1 c2 : Context) (m1 m2 : M Context) : Prop :=
  forall h1 h2,
    sameCells c1 h1 c2 h2 ->
    match m1 h1, m2 h2 with
    | (Ok d1, h1'), (Ok d2, h2') =>
        sameStatics d1 d2 /\ sameCells d1 h1' d2 h2'
    | (Throw e1, _), (Throw e2, _) => e1 = e2
    | _, _ => False
    end.

Lemma sameCells_extends c1 h1 c2 h2 h1' h2' :
  sameCells c1 h1 c2 h2 -> extends h1 h1' -> extends h2 h2' ->
  sameCells c1 h1' c2 h2'.
Proof.
  intros ([V1 W1] & [V2 W2] & T & C) [T1 C1] [T2 C2].
  pose proof (prefix_length _ _ T1). pose proof (prefix_length _ _ C1).
  pose proof (prefix_length _ _ T2). pose proof (prefix_length _ _ C2).
  repeat split; try lia.
  - rewrite (prefix_nth _ _ _ _ T1 V1), (prefix_nth _ _ _ _ T2 V2). exact T.
  - rewrite (prefix_nth _ _ _ _ C1 W1), (prefix_nth _ _ _ _ C2 W2). exact C.
Qed.

Lemma sameCells_refl context h :
  valid context h -> sameCells context h context h.
Proof. intros V. repeat split; apply V. Qed.

(** For computations that only read and allocate, it is enough that the
    outcomes agree. *)
Lemma related_framed {A} c1 c2 (m1 m2 : M A) :
  framed m1 -> framed m2 ->
  (forall h1 h2, sameCells c1 h1 c2 h2 -> fst (m1 h1) = fst (m2 h2)) ->
  related c1 c2 eq m1 m2.
Proof.
  intros F1 F2 E h1 h2 S. specialize (E h1 h2 S).
  pose proof (framed_extends m1 h1 F1) as X1.
  pose proof (framed_extends m2 h2 F2) as X2.
  destruct (m1 h1) as [[a1|e1] h1'], (m2 h2) as [[a2|e2] h2'];
    simpl in *; try discriminate; inversion E; subst; auto.
  split; [reflexivity|]. eapply sameCells_extends; eassumption.
Qed.

Lemma related_outcome {A} c1 c2 (m1 m2 : M A) h1 h2 :
  related c1 c2 eq m1 m2 -> sameCells c1 h1 c2 h2 ->
  fst (m1 h1) = fst (m2 h2).
Proof.
  intros R S. specialize (R h1 h2 S).
  destruct (m1 h1) as [[a1|e1] h1'], (m2 h2) as [[a2|e2] h2'];
    simpl; try contradiction.
  - destruct R as [-> _]. reflexivity.
  - subst. reflexivity.
Qed.

Lemma related_ret {A} c1 c2 (Q : A -> A -> Prop) a b :
  Q a b -> related c1 c2 Q (ret a) (ret b).
Proof. intros H h1 h2 S. simpl. auto. Qed.

Lemma related_throw {A} c1 c2 (Q : A -> A -> Prop) e :
  related c1 c2 Q (throw e) (throw e).
Proof. intros h1 h2 S. reflexivity. Qed.

Lemma related_lift {A} c1 c2 (o : outcome A) :
  related c1 c2 eq (lift o) (lift o).
Proof. destruct o; [apply related_ret; reflexivity | apply related_throw]. Qed.

Lemma related_defined {A} c1 c2 (o : option A) :
  related c1 c2 eq (defined o) (defined o).
Proof. destruct o; [apply related_ret; reflexivity | apply related_throw]. Qed.

Lemma related_bind {A B} c1 c2 (Q : A -> A -> Prop) (R : B -> B -> Prop)
  (m1 m2 : M A) (k1 k2 : A -> M B) :
  related c1 c2 Q m1 m2 ->
  (forall a1 a2, Q a1 a2 -> related c1 c2 R (k1 a1) (k2 a2)) ->
  related c1 c2 R (bind m1 k1) (bind m2 k2).
Proof.
  intros Hm Hk h1 h2 S. specialize (Hm h1 h2 S). rewrite !bind_run.
  destruct (m1 h1) as [[a1|e1] h1'], (m2 h2) as [[a2|e2] h2'];
    try contradiction; [|exact Hm].
  destruct Hm as [Q12 S']. apply (Hk a1 a2 Q12 h1' h2' S').
Qed.

Lemma related_bind_eq {A B} c1 c2 (R : B -> B -> Prop)
  (m1 m2 : M A) (k1 k2 : A -> M B) :
  related c1 c2 eq m1 m2 ->
  (forall a, related c1 c2 R (k1 a) (k2 a)) ->
  related c1 c2 R (bind m1 k1) (bind m2 k2).
Proof.
  intros Hm Hk. eapply related_bind; [exact Hm|].
  intros a1 a2 <-. apply Hk.
Qed.

Lemma related_mapM {A B} c1 c2 (f1 f2 : A -> M B) l :
  Forall (fun x => related c1 c2 eq (f1 x) (f2 x)) l ->
  related c1 c2 eq (mapM f1 l) (mapM f2 l).
Proof.
  induction 1 as [|x l Hx _ IH]; simpl.
  - apply related_ret. reflexivity.
  - apply related_bind_eq; [exact Hx | intros y].
    apply related_bind_eq; [exact IH | intros ys].
    apply related_ret. reflexivity.
Qed.

Lemma related_someM {A} c1 c2 (f1 f2 : A -> M bool) l :
  Forall (fun x => related c1 c2 eq (f1 x) (f2 x)) l ->
  related c1 c2 eq (someM f1 l) (someM f2 l).
Proof.
  induction 1 as [|x l Hx _ IH]; simpl.
  - apply related_ret. reflexivity.
  - apply related_bind_eq; [exact Hx | intros [|]].
    + apply related_ret. reflexivity.
    + exact IH.
Qed.

Lemma related_foldM {A B} c1 c2 (f1 f2 : B -> A -> M B) l :
  Forall (fun x => forall acc, related c1 c2 eq (f1 acc x) (f2 acc x)) l ->
  forall acc, related c1 c2 eq (foldM f1 l acc) (foldM f2 l acc).
Proof.
  induction 1 as [|x l Hx _ IH]; intros acc; simpl.
  - apply related_ret. reflexivity.
  - apply related_bind_eq; [apply Hx | intros a; apply IH].
Qed.

Lemma related_readTables c1 c2 :
  related c1 c2 eq (readTables (tables c1)) (readTables (tables c2)).
Proof.
  intros h1 h2 S. simpl. split; [|exact S].
  destruct S as (_ & _ & T & _). exact T.
Qed.

Lemma related_readCatalog c1 c2 :
  related c1 c2 eq (readCatalog (tablesBySchema c1))
    (readCatalog (tablesBySchema c2)).
Proof.
  intros h1 h2 S. simpl. split; [|exact S].
  destruct S as (_ & _ & _ & C). exact C.
Qed.

Ltac rel_step :=
  first
    [ apply related_ret; reflexivity
    | apply related_throw | apply related_lift | apply related_defined
    | apply related_readTables | apply related_readCatalog
    | apply related_bind_eq; [| intros ?]
    | match goal with
      | H : related ?c1 ?c2 eq ?m1 ?m2 |- related ?c1 ?c2 eq ?m1 ?m2 =>
          exact H
      | |- related _ _ _ (if ?b then _ else _) (if ?b then _ else _) =>
          destruct b
      | |- related _ _ _ (match ?x with _ => _ end)
             (match ?x with _ => _ end) =>
          destruct x
      end ].

Ltac rel_auto := repeat rel_step.

Section LocalityOfBodies.

Variables isArray isBit isJson isTime isTimestamp : string -> bool.
Variable getElementType : string -> string.
Variable pe : Expression -> Context -> M ParsedExpression.
Variable ps : SelectStmt -> Context -> M (list ParsedResultTarget).
Variable pf :
  FromItem -> list ParsedTable -> Context -> bool -> M (list ParsedTable).
Variable pt : Stmt -> Context -> M (list ParsedResultTarget).

Definition LE (e : Expression) : Prop :=
  forall c1 c2, sameStatics c1 c2 -> related c1 c2 eq (pe e c1) (pe e c2).
Definition LS (s : SelectStmt) : Prop :=
  forall c1 c2, sameStatics c1 c2 -> related c1 c2 eq (ps s c1) (ps s c2).
Definition LF (f : FromItem) : Prop :=
  forall l n c1 c2,
    sameStatics c1 c2 -> related c1 c2 eq (pf f l c1 n) (pf f l c2 n).
Definition LT (s : Stmt) : Prop :=
  forall c1 c2, sameStatics c1 c2 -> related c1 c2 eq (pt s c1) (pt s c2).

Variables c1 c2 : Context.
Hypothesis statics : sameStatics c1 c2.

Lemma parseArg0_related args :
  Forall LE args ->
  related c1 c2 eq (parseArg0 pe args c1) (parseArg0 pe args c2).
Proof.
  intros H. destruct H as [|a l Ha _]; simpl.
  - apply related_throw.
  - apply Ha, statics.
Qed.

Lemma parseArg1_related args :
  Forall LE args ->
  related c1 c2 eq (parseArg1 pe args c1) (parseArg1 pe args c2).
Proof.
  intros H. destruct H as [|a l _ [|b l' Hb _]]; simpl;
    try apply related_throw.
  apply Hb, statics.
Qed.

Lemma someNullable_related args :
  Forall LE args ->
  related c1 c2 eq (someNullable pe args c1) (someNullable pe args c2).
Proof.
  intros H. apply related_someM.
  eapply Forall_impl; [exact H|]. intros a Ha; simpl.
  apply related_bind_eq; [apply Ha, statics | intros].
  apply related_ret. reflexivity.
Qed.

Lemma parseOptional_related o :
  OptP LE o ->
  related c1 c2 eq (parseOptional pe o c1) (parseOptional pe o c2).
Proof.
  intros H. destruct o as [x|]; simpl in *.
  - apply related_bind_eq; [apply H, statics | intros].
    apply related_ret. reflexivity.
  - apply related_ret. reflexivity.
Qed.

Lemma parseRequired_related o :
  OptP LE o ->
  related c1 c2 eq (parseRequired pe o c1) (parseRequired pe o c2).
Proof.
  intros H. destruct o as [x|]; simpl in *.
  - apply H, statics.
  - apply related_throw.
Qed.

Lemma nullableOf_related o :
  OptP LE o -> related c1 c2 eq (nullableOf pe o c1) (nullableOf pe o c2).
Proof.
  intros H. destruct o as [x|]; simpl in *.
  - apply related_bind_eq; [apply H, statics | intros].
    apply related_ret. reflexivity.
  - apply related_ret. reflexivity.
Qed.

Lemma mapM_pe_related args :
  Forall LE args ->
  related c1 c2 eq (mapM (fun a => pe a c1) args)
    (mapM (fun a => pe a c2) args).
Proof.
  intros H. apply related_mapM.
  eapply Forall_impl; [exact H|]. intros a Ha. apply Ha, statics.
Qed.

Lemma parseAArrayExpr_related elements :
  Forall LE elements ->
  related c1 c2 eq (parseAArrayExpr pe elements c1)
    (parseAArrayExpr pe elements c2).
Proof.
  intros H. unfold parseAArrayExpr.
  pose proof (parseArg0_related elements H). rel_auto.
Qed.

Lemma parseAExpr_related kind lexpr name rexpr :
  OptP LE lexpr -> OptP LE rexpr ->
  related c1 c2 eq
    (parseAExpr isArray isBit isJson isTime isTimestamp pe kind lexpr name
       rexpr c1)
    (parseAExpr isArray isBit isJson isTime isTimestamp pe kind lexpr name
       rexpr c2).
Proof.
  intros Hl Hr.
  pose proof (parseOptional_related lexpr Hl).
  pose proof (parseOptional_related rexpr Hr).
  pose proof (parseRequired_related lexpr Hl).
  pose proof (parseRequired_related rexpr Hr).
  destruct kind; unfold parseAExpr; rel_auto.
Qed.

Lemma parseAIndirection_related arg indirection :
  LE arg -> Forall (PIndices LE) indirection ->
  related c1 c2 eq
    (parseAIndirection isArray isJson getElementType pe arg indirection c1)
    (parseAIndirection isArray isJson getElementType pe arg indirection c2).
Proof.
  intros Ha Hi. unfold parseAIndirection.
  apply related_bind_eq; [apply Ha, statics | intros a].
  destruct (isArray (pe_type a)); [| rel_auto].
  destruct (Nat.ltb 1 (List.length indirection)); [rel_auto|].
  destruct Hi as [|[s lidx uidx] l [Hl Hu] _]; [rel_auto|].
  pose proof (nullableOf_related lidx Hl).
  pose proof (nullableOf_related uidx Hu).
  rel_auto.
Qed.

Lemma parseBoolExpr_related args :
  Forall LE args ->
  related c1 c2 eq (parseBoolExpr pe args c1) (parseBoolExpr pe args c2).
Proof.
  intros H. unfold parseBoolExpr.
  pose proof (mapM_pe_related args H). rel_auto.
Qed.

Lemma parseCaseExpr_related args defresult :
  Forall (PWhen LE) args -> OptP LE defresult ->
  related c1 c2 eq (parseCaseExpr pe args defresult c1)
    (parseCaseExpr pe args defresult c2).
Proof.
  intros Ha Hd. unfold parseCaseExpr.
  pose proof (parseOptional_related defresult Hd).
  apply related_bind_eq.
  - apply related_mapM. eapply Forall_impl; [exact Ha|].
    intros [e r] [_ Hr]. apply Hr, statics.
  - intros. rel_auto.
Qed.

Lemma collectCoalesce_related args :
  Forall LE args ->
  related c1 c2 eq (collectCoalesce pe c1 args) (collectCoalesce pe c2 args).
Proof.
  intros H. induction H as [|a l Ha _ IH]; simpl.
  - apply related_ret. reflexivity.
  - apply related_bind_eq; [apply Ha, statics | intros e].
    destruct (negb (pe_nullable e)); rel_auto.
Qed.

Lemma parseCoalesceExpr_related args :
  Forall LE args ->
  related c1 c2 eq (parseCoalesceExpr pe args c1)
    (parseCoalesceExpr pe args c2).
Proof.
  intros H. unfold parseCoalesceExpr.
  pose proof (collectCoalesce_related args H). rel_auto.
Qed.

Lemma resolved_related fields name column :
  related c1 c2 eq (resolved fields name column)
    (resolved fields name column).
Proof. unfold resolved. rel_auto. Qed.

Lemma parseColumnRef_related fields :
  related c1 c2 eq (parseColumnRef fields c1) (parseColumnRef fields c2).
Proof.
  unfold parseColumnRef.
  apply related_bind_eq; [apply related_readTables | intros tbls].
  destruct (Nat.ltb 2 (List.length fields)); [apply related_throw|].
  destruct fields as [|f0 [|f1 [|f2 r]]]; try apply related_throw.
  - destruct (isStar f0); [apply related_ret; reflexivity|].
    apply related_bind_eq; [apply related_lift | intros].
    apply related_bind_eq; [apply related_lift | intros].
    apply resolved_related.
  - destruct (isStar f1).
    + apply related_bind_eq; [apply related_lift | intros].
      apply related_ret. reflexivity.
    + apply related_bind_eq; [apply related_lift | intros t].
      destruct (lookupTable t tbls); [| apply resolved_related].
      apply related_bind_eq; [apply related_lift | intros].
      apply resolved_related.
Qed.

Lemma anyNullable_related type args :
  Forall LE args ->
  related c1 c2 eq (anyNullable pe type args c1)
    (anyNullable pe type args c2).
Proof.
  intros H. unfold anyNullable.
  pose proof (someNullable_related args H). rel_auto.
Qed.

Lemma parseFuncCall_related funcname args :
  Forall LE args ->
  related c1 c2 eq (parseFuncCall getElementType pe funcname args c1)
    (parseFuncCall getElementType pe funcname args c2).
Proof.
  intros H. unfold parseFuncCall.
  pose proof (parseArg0_related args H) as A0.
  pose proof (parseArg1_related args H) as A1.
  pose proof (someNullable_related args H) as SN.
  pose proof (fun t => anyNullable_related t args H) as AN.
  apply related_bind_eq; [apply related_defined | intros fn].
  repeat
    match goal with
    | |- related _ _ _ (if ?b then _ else _) _ =>
        destruct b; [solve [rel_auto; apply AN] |]
    end.
  apply related_ret. reflexivity.
Qed.

Lemma parseList_related items :
  Forall LE items ->
  related c1 c2 eq (parseList pe items c1) (parseList pe items c2).
Proof.
  intros H. unfold parseList.
  pose proof (mapM_pe_related items H). rel_auto.
Qed.

Lemma parseMinMaxExpr_related args :
  Forall LE args ->
  related c1 c2 eq (parseMinMaxExpr pe args c1) (parseMinMaxExpr pe args c2).
Proof.
  intros H. unfold parseMinMaxExpr.
  pose proof (mapM_pe_related args H). rel_auto.
Qed.

Lemma parseSubLink_related t subselect :
  LS subselect ->
  related c1 c2 eq (parseSubLink ps t subselect c1)
    (parseSubLink ps t subselect c2).
Proof.
  intros H. unfold parseSubLink.
  pose proof (H c1 c2 statics). destruct t; rel_auto.
Qed.

Lemma parseTypeCast_related arg typeName :
  LE arg ->
  related c1 c2 eq (parseTypeCast pe arg typeName c1)
    (parseTypeCast pe arg typeName c2).
Proof.
  intros H. unfold parseTypeCast.
  destruct statics as [_ F]. rewrite F.
  apply related_bind_eq; [apply H, statics | intros a].
  apply related_bind_eq; [destruct (names typeName); rel_auto | intros t].
  rel_auto.
Qed.

Lemma targetStep_related acc target :
  PTarget LE target ->
  related c1 c2 eq (targetStep pe c1 acc target) (targetStep pe c2 acc target).
Proof.
  intros H. destruct target as [name location val]. simpl in H.
  unfold targetStep. cbv zeta.
  pose proof (H c1 c2 statics) as Hv.
  destruct val; rel_auto.
Qed.

Lemma parseTargetList_related targetList :
  Forall (PTarget LE) targetList ->
  related c1 c2 eq (parseTargetList pe targetList c1)
    (parseTargetList pe targetList c2).
Proof.
  intros H. unfold parseTargetList.
  apply related_bind_eq; [| intros; apply related_ret; reflexivity].
  apply related_foldM. eapply Forall_impl; [exact H|].
  intros t Ht acc. apply targetStep_related, Ht.
Qed.

Lemma parseTargets_related targetList :
  OptP (Forall (PTarget LE)) targetList ->
  related c1 c2 eq (parseTargets pe targetList c1)
    (parseTargets pe targetList c2).
Proof.
  intros H. destruct targetList as [l|]; simpl in *.
  - apply parseTargetList_related, H.
  - apply parseTargetList_related. constructor.
Qed.

Lemma parseJoinExpr_related jointype larg rarg parsedTables :
  LF larg -> LF rarg ->
  related c1 c2 eq (parseJoinExpr pf jointype larg rarg parsedTables c1)
    (parseJoinExpr pf jointype larg rarg parsedTables c2).
Proof.
  intros Hl Hr. unfold parseJoinExpr.
  apply related_bind_eq; [apply Hl, statics | intros]. apply Hr, statics.
Qed.

Lemma parseRangeSubselect_related alias subquery parsedTables nullable :
  LS subquery ->
  related c1 c2 eq
    (parseRangeSubselect ps alias subquery parsedTables c1 nullable)
    (parseRangeSubselect ps alias subquery parsedTables c2 nullable).
Proof.
  intros H. unfold parseRangeSubselect.
  pose proof (H c1 c2 statics). rel_auto.
Qed.

Lemma parseRangeVar_related rv parsedTables nullable :
  related c1 c2 eq (parseRangeVar rv parsedTables c1 nullable)
    (parseRangeVar rv parsedTables c2 nullable).
Proof.
  unfold parseRangeVar. destruct statics as [D _]. rewrite D. rel_auto.
Qed.

Lemma collectFromItems_related fromItems :
  Forall LF fromItems ->
  related c1 c2 eq (collectFromItems pf fromItems c1)
    (collectFromItems pf fromItems c2).
Proof.
  intros H. unfold collectFromItems.
  apply related_foldM. eapply Forall_impl; [exact H|].
  intros f Hf acc.
  apply related_bind_eq; [apply Hf, statics | intros].
  apply related_ret. reflexivity.
Qed.

End LocalityOfBodies.

(** *** Functions that build a new context *)

Lemma relatedContexts_ret c1 c2 :
  sameStatics c1 c2 -> relatedContexts c1 c2 (ret c1) (ret c2).
Proof. intros Hs h1 h2 S. simpl. auto. Qed.

Lemma relatedContexts_bind {A} c1 c2 (m1 m2 : M A)
  (k1 k2 : A -> M Context) :
  related c1 c2 eq m1 m2 ->
  (forall a, relatedContexts c1 c2 (k1 a) (k2 a)) ->
  relatedContexts c1 c2 (bind m1 k1) (bind m2 k2).
Proof.
  intros Hm Hk h1 h2 S. specialize (Hm h1 h2 S). rewrite !bind_run.
  destruct (m1 h1) as [[a1|e1] h1'], (m2 h2) as [[a2|e2] h2'];
    try contradiction; [|exact Hm].
  destruct Hm as [<- S']. apply (Hk a1 h1' h2' S').
Qed.

(** The continuation runs in the new contexts. *)
Lemma relatedContexts_then c1 c2 (m1 m2 : M Context)
  (k1 k2 : Context -> M Context) :
  relatedContexts c1 c2 m1 m2 ->
  (forall d1 d2, sameStatics d1 d2 -> relatedContexts d1 d2 (k1 d1) (k2 d2)) ->
  relatedContexts c1 c2 (bind m1 k1) (bind m2 k2).
Proof.
  intros Hm Hk h1 h2 S. specialize (Hm h1 h2 S). rewrite !bind_run.
  destruct (m1 h1) as [[d1|e1] h1'], (m2 h2) as [[d2|e2] h2'];
    try contradiction; [|exact Hm].
  destruct Hm as [Hs S']. apply (Hk d1 d2 Hs h1' h2' S').
Qed.

Lemma relatedContexts_outcome {B} c1 c2 (m1 m2 : M Context)
  (k1 k2 : Context -> M B) h1 h2 :
  relatedContexts c1 c2 m1 m2 ->
  (forall d1 d2 g1 g2,
     sameStatics d1 d2 -> sameCells d1 g1 d2 g2 ->
     fst (k1 d1 g1) = fst (k2 d2 g2)) ->
  sameCells c1 h1 c2 h2 ->
  fst (bind m1 k1 h1) = fst (bind m2 k2 h2).
Proof.
  intros Hm Hk S. specialize (Hm h1 h2 S). rewrite !bind_run.
  destruct (m1 h1) as [[d1|e1] h1'], (m2 h2) as [[d2|e2] h2'];
    try contradiction.
  - destruct Hm as [Hs S']. apply (Hk d1 d2 h1' h2' Hs S').
  - simpl. congruence.
Qed.

Lemma nth_fresh {A} (l : list A) x d : List.nth (List.length l) (l ++ [x]) d = x.
Proof. rewrite List.nth_middle. reflexivity. Qed.

Lemma clone_relatedContexts c1 c2 :
  sameStatics c1 c2 -> relatedContexts c1 c2 (clone c1) (clone c2).
Proof.
  intros [D F] h1 h2 (V1 & V2 & T & C). rewrite !clone_run.
  split; [split; assumption|].
  unfold sameCells, valid; simpl. rewrite !length_app, !nth_fresh, T, C.
  simpl. repeat split; lia.
Qed.

Lemma related_writeCatalog c1 c2 v :
  related c1 c2 eq (writeCatalog (tablesBySchema c1) v)
    (writeCatalog (tablesBySchema c2) v).
Proof.
  intros h1 h2 ([V1 W1] & [V2 W2] & T & C). simpl.
  split; [reflexivity|]. unfold sameCells, valid; simpl.
  rewrite !length_insert. repeat split; try assumption.
  rewrite !nth_lookup, !list_lookup_insert_eq by assumption. reflexivity.
Qed.

Section LocalityOfScopes.

Variable pf :
  FromItem -> list ParsedTable -> Context -> bool -> M (list ParsedTable).
Variable pt : Stmt -> Context -> M (list ParsedResultTarget).

Lemma parseCommonTableExpr_related cte c1 c2 :
  sameStatics c1 c2 -> PCte (LT pt) cte ->
  related c1 c2 eq (parseCommonTableExpr pt cte c1)
    (parseCommonTableExpr pt cte c2).
Proof.
  intros Hs H. destruct cte as [ctename aliascolnames ctequery]. simpl in *.
  pose proof (H c1 c2 Hs). destruct Hs as [D _]. rewrite D.
  apply related_bind_eq; [assumption | intros targets].
  apply related_bind_eq; [apply related_readCatalog | intros catalog].
  apply related_bind_eq; [apply related_defined | intros schema].
  apply related_writeCatalog.
Qed.

Lemma parseWithClause_related ctes c1 c2 :
  sameStatics c1 c2 -> Forall (PCte (LT pt)) ctes ->
  relatedContexts c1 c2 (parseWithClause pt ctes c1)
    (parseWithClause pt ctes c2).
Proof.
  intros Hs H. unfold parseWithClause.
  apply relatedContexts_then; [apply clone_relatedContexts, Hs|].
  intros d1 d2 Hd.
  apply relatedContexts_bind; [| intros; apply relatedContexts_ret, Hd].
  apply related_foldM. eapply Forall_impl; [exact H|].
  intros cte Hc acc. apply parseCommonTableExpr_related; assumption.
Qed.

Lemma allocScope_relatedContexts (v : Tables) d1 d2 :
  sameStatics d1 d2 ->
  relatedContexts d1 d2
    (scope <- allocTables v ;;
     ret (mkContext scope (defaultSchema d1) (fallbackType d1)
            (formatFunc d1) (mapType d1) (tablesBySchema d1)))
    (scope <- allocTables v ;;
     ret (mkContext scope (defaultSchema d2) (fallbackType d2)
            (formatFunc d2) (mapType d2) (tablesBySchema d2))).
Proof.
  intros Hs h1 h2 ([V1 W1] & [V2 W2] & T & C).
  unfold bind, allocTables, ret; simpl.
  split; [exact Hs|]. unfold sameCells, valid; simpl.
  rewrite !length_app, !nth_fresh. simpl. repeat split; try lia. exact C.
Qed.

Lemma scope_relatedContexts parsedTables c1 c2 :
  sameStatics c1 c2 ->
  relatedContexts c1 c2
    (clonedContext <- clone c1 ;;
     outer <- readTables (tables clonedContext) ;;
     scope <- allocTables (addToScope parsedTables (Js.entries outer)) ;;
     ret (mkContext scope (defaultSchema clonedContext)
            (fallbackType clonedContext) (formatFunc clonedContext)
            (mapType clonedContext) (tablesBySchema clonedContext)))
    (clonedContext <- clone c2 ;;
     outer <- readTables (tables clonedContext) ;;
     scope <- allocTables (addToScope parsedTables (Js.entries outer)) ;;
     ret (mkContext scope (defaultSchema clonedContext)
            (fallbackType clonedContext) (formatFunc clonedContext)
            (mapType clonedContext) (tablesBySchema clonedContext))).
Proof.
  intros Hs.
  apply relatedContexts_then; [apply clone_relatedContexts, Hs|].
  intros d1 d2 Hd.
  apply relatedContexts_bind; [apply related_readTables | intros outer].
  apply allocScope_relatedContexts, Hd.
Qed.

Lemma parseFromClause_related fromItems c1 c2 :
  sameStatics c1 c2 -> Forall (LF pf) fromItems ->
  relatedContexts c1 c2 (parseFromClause pf fromItems c1)
    (parseFromClause pf fromItems c2).
Proof.
  intros Hs H. unfold parseFromClause.
  apply relatedContexts_bind.
  - apply collectFromItems_related; assumption.
  - intros parsedTables. apply scope_relatedContexts, Hs.
Qed.

End LocalityOfScopes.

Lemma bindRelation_related relation c1 c2 :
  sameStatics c1 c2 ->
  relatedContexts c1 c2 (bindRelation relation c1) (bindRelation relation c2).
Proof.
  intros [D F] h1 h2 ([V1 W1] & [V2 W2] & T & C).
  unfold bindRelation. rewrite !bind_run, !clone_run. rewrite D.
  unfold bind, readCatalog, readTables, writeTables, ret; simpl.
  rewrite !List.app_nth1 by assumption. rewrite C.
  destruct (Js.get _ (nth (tablesBySchema c2) (catalogCells h2) []))
    as [schemaTables|]; simpl; [| reflexivity].
  split; [split; [reflexivity | exact F]|].
  unfold sameCells, valid; simpl.
  rewrite !length_insert, !length_app, !nth_fresh, T. simpl.
  rewrite !nth_lookup, !list_lookup_insert_eq
    by (rewrite length_app; simpl; lia).
  repeat split; lia.
Qed.

(** *** The whole analyzer *)

Section LocalityOfAnalyzer.

Variables isArray isBit isJson isTime isTimestamp : string -> bool.
Variable getElementType : string -> string.

Notation parseExpression' :=
  (parseExpression isArray isBit isJson isTime isTimestamp getElementType).
Notation parseSelectStmt' :=
  (parseSelectStmt isArray isBit isJson isTime isTimestamp getElementType).
Notation parseFromItem' :=
  (parseFromItem isArray isBit isJson isTime isTimestamp getElementType).
Notation parseStmt' :=
  (parseStmt isArray isBit isJson isTime isTimestamp getElementType).

Lemma selectPlain_related targetList fromClause withClause :
  OptP (Forall (PTarget (LE parseExpression'))) targetList ->
  OptP (Forall (LF parseFromItem')) fromClause ->
  OptP (Forall (PCte (LT parseStmt'))) withClause ->
  LS parseSelectStmt' (SelectPlain targetList fromClause withClause).
Proof.
  intros Ht Hf Hw c1 c2 Hs.
  apply related_framed; try apply parseSelectStmt_framed.
  intros h1 h2 S. rewrite !parseSelectStmt_eq. unfold parseSelectStmtBody.
  apply relatedContexts_outcome with (c1 := c1) (c2 := c2); [| | exact S].
  - destruct withClause as [ctes|]; simpl in Hw.
    + apply parseWithClause_related; assumption.
    + apply relatedContexts_ret, Hs.
  - intros d1 d2 g1 g2 Hd Sd.
    apply relatedContexts_outcome with (c1 := d1) (c2 := d2);
      [| | exact Sd].
    + destruct fromClause as [fromItems|]; simpl in Hf.
      * apply parseFromClause_related; assumption.
      * apply relatedContexts_ret, Hd.
    + intros e1 e2 k1 k2 He Se.
      apply related_outcome with (c1 := e1) (c2 := e2); [| exact Se].
      apply parseTargets_related; assumption.
Qed.

Lemma selectSetOp_related larg rarg :
  LS parseSelectStmt' larg -> LS parseSelectStmt' rarg ->
  LS parseSelectStmt' (SelectSetOp larg rarg).
Proof.
  intros Hl Hr c1 c2 Hs. rewrite !parseSelectStmt_eq. simpl.
  apply related_bind_eq; [apply Hl, Hs | intros l].
  apply related_bind_eq; [apply Hr, Hs | intros r].
  apply related_lift.
Qed.

Lemma selectValues_related valuesLists :
  Forall (Forall (LE parseExpression')) valuesLists ->
  LS parseSelectStmt' (SelectValues valuesLists).
Proof.
  intros H c1 c2 Hs. rewrite !parseSelectStmt_eq. simpl.
  apply related_bind_eq.
  - apply related_mapM. eapply Forall_impl; [exact H|].
    intros valuesList Hl. apply mapM_pe_related; assumption.
  - intros lists. rel_auto.
Qed.

Lemma returning_related relation returningList h1 h2 c1 c2 :
  OptP (Forall (PTarget (LE parseExpression'))) returningList ->
  sameStatics c1 c2 -> sameCells c1 h1 c2 h2 ->
  fst (bind (bindRelation relation c1)
         (parseTargets parseExpression' returningList) h1)
  = fst (bind (bindRelation relation c2)
           (parseTargets parseExpression' returningList) h2).
Proof.
  intros H Hs S.
  apply relatedContexts_outcome with (c1 := c1) (c2 := c2); [| | exact S].
  - apply bindRelation_related, Hs.
  - intros d1 d2 g1 g2 Hd Sd.
    apply related_outcome with (c1 := d1) (c2 := d2); [| exact Sd].
    apply parseTargets_related; assumption.
Qed.

Lemma analyzer_related :
  (forall e, LE parseExpression' e)
  /\ (forall s, LS parseSelectStmt' s)
  /\ (forall f, LF parseFromItem' f)
  /\ (forall s, LT parseStmt' s).
Proof.
  apply tree_ind; intros;
    try (apply selectPlain_related; assumption);
    try (apply selectSetOp_related; assumption);
    try (apply selectValues_related; assumption);
    repeat match goal with
      | |- LE _ _ => intros c1 c2 Hs; rewrite !parseExpression_eq; simpl
      | |- LF _ _ => intros l n c1 c2 Hs; rewrite !parseFromItem_eq; simpl
      | |- LT _ (SelectStmt_ _) =>
          intros c1 c2 Hs; rewrite !parseStmt_eq; simpl
      | |- LT _ _ =>
          intros c1 c2 Hs; apply related_framed;
          try apply parseStmt_framed;
          intros h1 h2 S; rewrite !parseStmt_eq;
          apply returning_related; assumption
      end;
    try solve [rel_auto].
  - apply parseAArrayExpr_related; assumption.
  - apply parseAExpr_related; assumption.
  - apply parseAIndirection_related; assumption.
  - apply parseBoolExpr_related; assumption.
  - apply parseCaseExpr_related; assumption.
  - apply parseCoalesceExpr_related; assumption.
  - apply parseColumnRef_related.
  - apply parseFuncCall_related; assumption.
  - apply parseList_related; assumption.
  - apply parseMinMaxExpr_related; assumption.
  - apply parseSubLink_related; assumption.
  - apply parseTypeCast_related; assumption.
  - apply parseJoinExpr_related; assumption.
  - apply parseRangeVar_related; assumption.
  - apply parseRangeSubselect_related; assumption.
  - match goal with H : LS _ _ |- _ => apply H, Hs end.
Qed.

Lemma parseStmt_related s c1 c2 :
  sameStatics c1 c2 ->
  related c1 c2 eq (parseStmt' s c1) (parseStmt' s c2).
Proof. apply analyzer_related. Qed.

Lemma parseSelectStmt_related s c1 c2 :
  sameStatics c1 c2 ->
  related c1 c2 eq (parseSelectStmt' s c1) (parseSelectStmt' s c2).
Proof. apply analyzer_related. Qed.


End LocalityOfAnalyzer.

(** ** Set operations

    The operand queries of a set operation are the statements at its
    leaves, from left to right; the variants of a column are the
    entries of its [set], or the column itself when it has none. *)

Fixpoint operands (s : SelectStmt) : list SelectStmt :=
  match s with
  | SelectSetOp larg rarg => operands larg ++ operands rarg
  | _ => [s]
  end.

Definition variantsOf (t : ParsedResultTarget) : list ParsedResultTarget :=
  match pe_set t with
  | Some set => set
  | None => [t]
  end.

Definition noVariants (t : ParsedResultTarget) : Prop := pe_set t = None.

(** Column [i] of each of [results], in order. *)
Definition columnsAt (i : nat) (results : list (list ParsedResultTarget))
  (variants : list ParsedResultTarget) : Prop :=
  Forall2 (fun columns v => List.nth_error columns i = Some v) results
    variants.

(** What the claim says of column [o], the [i]th of the result. *)
Definition combines (i : nat) (results : list (list ParsedResultTarget))
  (o : ParsedResultTarget) : Prop :=
  columnsAt i results (variantsOf o)
  /\ (exists first,
        List.head (variantsOf o) = Some first
        /\ pe_name o = pe_name first /\ pe_type o = pe_type first)
  /\ pe_nullable o = List.existsb pe_nullable (variantsOf o).

Lemma combineSets_spec larg : forall rarg out,
  combineSets larg rarg = Ok out ->
  forall i o,
    List.nth_error out i = Some o ->
    exists l r,
      List.nth_error larg i = Some l /\ List.nth_error rarg i = Some r
      /\ variantsOf o = variantsOf l ++ variantsOf r
      /\ pe_name o = pe_name l /\ pe_type o = pe_type l
      /\ pe_nullable o = pe_nullable l || pe_nullable r.
Proof.
  induction larg as [|l ls IH]; intros [|r rs] out E i o Hi;
    simpl in E; try discriminate.
  - inversion E; subst. destruct i; discriminate.
  - inversion E; subst. destruct i; discriminate.
  - destruct (combineSets ls rs) as [more|e] eqn:Em; simpl in E;
      [| discriminate].
    inversion E; subst; clear E. destruct i as [|i]; simpl in Hi.
    + inversion Hi; subst; clear Hi. exists l, r.
      repeat split; try reflexivity.
      unfold variantsOf; simpl.
      destruct (pe_set l), (pe_set r); reflexivity.
    + apply (IH rs more Em i o Hi).
Qed.

Lemma combines_leaf i out o :
  Forall noVariants out -> List.nth_error out i = Some o ->
  combines i [out] o.
Proof.
  intros N Hi.
  assert (No : noVariants o).
  { apply (proj1 (List.Forall_forall _ _) N), (List.nth_error_In _ _ Hi). }
  unfold combines, columnsAt, variantsOf. rewrite No. simpl.
  split; [repeat constructor; exact Hi|].
  split; [exists o; auto | rewrite orb_false_r; reflexivity].
Qed.

Lemma combines_app i resultsL resultsR l r o :
  combines i resultsL l -> combines i resultsR r ->
  variantsOf o = variantsOf l ++ variantsOf r ->
  pe_name o = pe_name l -> pe_type o = pe_type l ->
  pe_nullable o = pe_nullable l || pe_nullable r ->
  combines i (resultsL ++ resultsR) o.
Proof.
  intros (CL & (first & HL & NL & TL) & BL) (CR & _ & BR) V N T B.
  unfold combines, columnsAt in *. rewrite V.
  split; [apply Forall2_app; assumption|]. split.
  - exists first. destruct (variantsOf l); [discriminate|].
    simpl in *. repeat split; congruence.
  - rewrite List.existsb_app, B, BL, BR. reflexivity.
Qed.

Section SetOperations.

Variables isArray isBit isJson isTime isTimestamp : string -> bool.
Variable getElementType : string -> string.

Notation parseSelectStmt' :=
  (parseSelectStmt isArray isBit isJson isTime isTimestamp getElementType).

Variable c : Context.
Variable h : heap.

(** The answers of the operand queries, were each asked on its own. *)
Definition answers (queries : list SelectStmt)
  (results : list (list ParsedResultTarget)) : Prop :=
  Forall2 (fun query columns => fst (parseSelectStmt' query c h) = Ok columns)
    queries results.

Definition plainOperands (s : SelectStmt) : Prop :=
  forall operand columns,
    In operand (operands s) ->
    fst (parseSelectStmt' operand c h) = Ok columns ->
    Forall noVariants columns.

Definition flattens (s : SelectStmt) : Prop :=
  plainOperands s ->
  forall g out g',
    sameCells c g c h ->
    parseSelectStmt' s c g = (Ok out, g') ->
    exists results,
      answers (operands s) results
      /\ forall i o, List.nth_error out i = Some o -> combines i results o.

Lemma flattens_leaf s : operands s = [s] -> flattens s.
Proof.
  intros E P g out g' S R.
  assert (A : fst (parseSelectStmt' s c h) = Ok out).
  { rewrite <- (related_outcome c c _ _ g h
                  (parseSelectStmt_related isArray isBit isJson isTime
                     isTimestamp getElementType s c c
                     (conj eq_refl eq_refl)) S).
    rewrite R. reflexivity. }
  exists [out]. rewrite E. split; [repeat constructor; exact A|].
  intros i o Hi. apply combines_leaf; [| exact Hi].
  apply (P s out); [rewrite E; left; reflexivity | exact A].
Qed.

Lemma flattens_setOp larg rarg :
  flattens larg -> flattens rarg -> flattens (SelectSetOp larg rarg).
Proof.
  intros IHl IHr P g out g' S R.
  rewrite parseSelectStmt_eq in R. simpl in R.
  apply bind_inv_Ok in R. destruct R as (lres & g1 & El & R).
  apply bind_inv_Ok in R. destruct R as (rres & g2 & Er & R).
  assert (S1 : sameCells c g1 c h).
  { apply sameCells_extends with (h1 := g) (h2 := h); [exact S | |].
    - replace g1 with (snd (parseSelectStmt' larg c g))
        by (rewrite El; reflexivity).
      apply framed_extends, parseSelectStmt_framed.
    - split; reflexivity. }
  destruct (IHl (fun o cs I => P o cs (in_or_app _ _ _ (or_introl I)))
              g lres g1 S El) as (resultsL & AL & CL).
  destruct (IHr (fun o cs I => P o cs (in_or_app _ _ _ (or_intror I)))
              g1 rres g2 S1 Er) as (resultsR & AR & CR).
  exists (resultsL ++ resultsR). split.
  - simpl. apply Forall2_app; assumption.
  - intros i o Hi. unfold lift in R.
    destruct (combineSets lres rres) as [out'|e] eqn:Ec;
      [| discriminate].
    inversion R; subst; clear R.
    destruct (combineSets_spec _ _ _ Ec i o Hi)
      as (l & r & Hl & Hr & V & N & T & B).
    apply (combines_app i resultsL resultsR l r o); auto.
Qed.

Lemma flattens_all s : flattens s.
Proof.
  revert s.
  apply (SelectStmt_tree_ind (fun _ => True) flattens (fun _ => True)
           (fun _ => True));
    try (intros; exact I); intros.
  - apply flattens_leaf. reflexivity.
  - apply flattens_setOp; assumption.
  - apply flattens_leaf. reflexivity.
Qed.


End SetOperations.

(** ** The driver: one answer per query, and an untouched generator *)

Section DriverFacts.

Variables isArray isBit isJson isTime isTimestamp : string -> bool.
Variable getElementType : string -> string.
Variable parse : string -> outcome (list RawStmt).
Variable prettierFormat : string -> outcome string.

Notation parseStmt' :=
  (parseStmt isArray isBit isJson isTime isTimestamp getElementType).
Notation parseFromItem' :=
  (parseFromItem isArray isBit isJson isTime isTimestamp getElementType).
Notation parseRawStmt' :=
  (parseRawStmt isArray isBit isJson isTime isTimestamp getElementType).
Notation generate' :=
  (generate isArray isBit isJson isTime isTimestamp getElementType parse
     prettierFormat).
Notation tryParseQuery' :=
  (tryParseQuery isArray isBit isJson isTime isTimestamp getElementType
     parse prettierFormat).

(** What [parseQuery] does with one raw statement. *)
Definition renderStmt (context : Context) (rawStmt : RawStmt) : M string :=
  targets <- parseRawStmt' rawStmt context ;;
  lift (format prettierFormat targets context).

Lemma tryParseQuery_eq query context :
  tryParseQuery' query context
  = (rawStmts <- lift (parse query) ;; mapM (renderStmt context) rawStmts).
Proof. reflexivity. Qed.

Lemma renderStmt_framed context rawStmt :
  framed (renderStmt context rawStmt).
Proof.
  intros nt nc. unfold renderStmt, parseRawStmt.
  apply protects_bind; [apply parseStmt_framed | intros].
  apply protects_lift.
Qed.

Lemma tryParseQuery_framed query context :
  framed (tryParseQuery' query context).
Proof.
  intros nt nc. rewrite tryParseQuery_eq.
  apply protects_bind; [apply protects_lift | intros rawStmts].
  apply protects_mapM. apply Forall_forall. intros rawStmt _.
  apply renderStmt_framed.
Qed.

Lemma generate_store query context h :
  snd (generate' context query h) = snd (tryParseQuery' query context h).
Proof.
  unfold generate, parseQuery.
  destruct (tryParseQuery' query context h) as [[l|e] h']; reflexivity.
Qed.

Lemma generate_extends query context h :
  extends h (snd (generate' context query h)).
Proof.
  rewrite generate_store. apply framed_extends, tryParseQuery_framed.
Qed.

(** The cells a context refers to, when they exist, read the same after
    any extension of the store. *)
Lemma extends_reads context h h' :
  extends h h' ->
  (tables context < List.length (tablesCells h) ->
   List.nth (tables context) (tablesCells h') []
   = List.nth (tables context) (tablesCells h) [])
  /\ (tablesBySchema context < List.length (catalogCells h) ->
      List.nth (tablesBySchema context) (catalogCells h') []
      = List.nth (tablesBySchema context) (catalogCells h) []).
Proof.
  intros [T C]. split; intros L; apply prefix_nth; assumption.
Qed.

Lemma parseWithClause_fresh ctes c h c' h' :
  parseWithClause parseStmt' ctes c h = (Ok c', h') ->
  tables c' = List.length (tablesCells h)
  /\ tablesBySchema c' = List.length (catalogCells h).
Proof.
  unfold parseWithClause. rewrite bind_run, clone_run. intros E.
  apply bind_inv_Ok in E as (u & h1 & _ & E). inversion E; subst.
  split; reflexivity.
Qed.

Lemma parseFromClause_fresh fromItems c h c' h' :
  parseFromClause parseFromItem' fromItems c h = (Ok c', h') ->
  List.length (tablesCells h) <= tables c'
  /\ List.length (catalogCells h) <= tablesBySchema c'.
Proof.
  unfold parseFromClause. intros E.
  apply bind_inv_Ok in E as (parsedTables & h1 & Ec & E).
  assert (X : extends h h1).
  { pose proof (framed_extends
                  (collectFromItems parseFromItem' fromItems c) h) as X.
    rewrite Ec in X. apply X.
    apply collectFromItems_framed, Forall_forall. intros f _.
    intros l c0 n. apply parseFromItem_framed. }
  destruct X as [[kt Et] [kc Ec']].
  rewrite bind_run, clone_run in E. mnorm. unfold readTables in E.
  revert E. mnorm. unfold allocTables. mnorm. simpl. intros E.
  inversion E; subst; clear E. simpl.
  rewrite Et, Ec', !length_app. simpl. lia.
Qed.


Lemma generate_run query context h :
  generate' context query h
  = match tryParseQuery' query context h with
    | (Ok l, h') => (mkGenerateResult (Some l) None, h')
    | (Throw e, h') => (mkGenerateResult None (Some e), h')
    end.
Proof. reflexivity. Qed.

(** The answer of [generate] depends on the store only through the two
    objects of the generator's context. *)
Lemma renderStmt_related context rawStmt :
  related context context eq (renderStmt context rawStmt)
    (renderStmt context rawStmt).
Proof.
  unfold renderStmt, parseRawStmt.
  apply related_bind_eq; [| intros; apply related_lift].
  apply parseStmt_related. split; reflexivity.
Qed.

Lemma tryParseQuery_related query context :
  related context context eq (tryParseQuery' query context)
    (tryParseQuery' query context).
Proof.
  rewrite tryParseQuery_eq.
  apply related_bind_eq; [apply related_lift | intros rawStmts].
  apply related_mapM. apply Forall_forall. intros rawStmt _.
  apply renderStmt_related.
Qed.

Lemma generate_local query context h1 h2 :
  sameCells context h1 context h2 ->
  fst (generate' context query h1) = fst (generate' context query h2).
Proof.
  intros S. rewrite !generate_run.
  pose proof (tryParseQuery_related query context h1 h2 S) as R.
  destruct (tryParseQuery' query context h1) as [[l1|e1] g1],
    (tryParseQuery' query context h2) as [[l2|e2] g2];
    simpl in *; try contradiction.
  - destruct R as [-> _]. reflexivity.
  - subst. reflexivity.
Qed.

Lemma generate_after query other context h :
  valid context h ->
  fst (generate' context other (snd (generate' context query h)))
  = fst (generate' context other h).
Proof.
  intros V. apply generate_local.
  apply sameCells_extends with (h1 := h) (h2 := h).
  - apply sameCells_refl, V.
  - apply generate_extends.
  - split; reflexivity.
Qed.

(** The context [createTypeGenerator] builds has its two objects in the
    store it comes with. *)
Lemma createTypeGenerator_valid defaultSchema fallbackType formatFunc
  mapType tablesBySchema :
  valid
    (fst (createTypeGenerator defaultSchema fallbackType formatFunc mapType
            tablesBySchema))
    (snd (createTypeGenerator defaultSchema fallbackType formatFunc mapType
            tablesBySchema)).
Proof. split; simpl; lia. Qed.

(** A statement that fails stops the [map] over the statements. *)
Lemma mapM_stops {A B} (f : A -> M B) before x after h done h1 e h2 :
  mapM f before h = (Ok done, h1) ->
  f x h1 = (Throw e, h2) ->
  mapM f (before ++ x :: after) h = (Throw e, h2).
Proof.
  intros Eb Ex. rewrite mapM_app. mnorm. rewrite Eb. simpl. mnorm.
  rewrite Ex. reflexivity.
Qed.


(** The answer for a statement whose result-target list is empty. *)
Lemma renderStmt_empty context rawStmt h h' :
  parseRawStmt' rawStmt context h = (Ok [], h') ->
  renderStmt context rawStmt h
  = (match prettierFormat ("type T = " +:+ emptyObjectType) with
     | Ok formatted => Ok (trim (stripTypeAlias formatted))
     | Throw e => Throw e
     end, h').
Proof.
  intros E. unfold renderStmt. rewrite bind_run, E.
  unfold format, formatSource, obind, lift.
  destruct (prettierFormat _); reflexivity.
Qed.

(** A data modifying statement without RETURNING has no result targets,
    provided the schema of its relation is in the catalog. *)
Lemma no_returning_run relation context h :
  (exists tables,
      Js.get match schemaname relation with
             | Some s => s
             | None => defaultSchema context
             end
        (List.nth (tablesBySchema context) (catalogCells h) [])
      = Some tables) ->
  exists h',
    parseStmt' (DeleteStmt relation None) context h = (Ok [], h')
    /\ parseStmt' (InsertStmt relation None) context h = (Ok [], h')
    /\ parseStmt' (UpdateStmt relation None) context h = (Ok [], h').
Proof.
  intros (schemaTables & S).
  assert (B : exists c' h',
             bindRelation relation context h = (Ok c', h')).
  { unfold bindRelation. rewrite bind_run, clone_run.
    unfold readCatalog, readTables, writeTables. mnorm. simpl.
    assert (N : forall (X : Type) (l : list X) x d i,
               i < List.length l ->
               List.nth i (l ++ [x]) d = List.nth i l d).
    { intros. apply List.app_nth1. assumption. }
    destruct (Nat.lt_ge_cases (tablesBySchema context)
                (List.length (catalogCells h))) as [L|L].
    - rewrite N by exact L. rewrite S. simpl. mnorm. eauto.
    - rewrite List.nth_overflow in S by exact L. discriminate S. }
  destruct B as (c' & h' & B). exists h'.
  repeat split; rewrite parseStmt_eq; simpl;
    unfold parseDeleteStmt, parseInsertStmt, parseUpdateStmt;
    rewrite bind_run, B; reflexivity.
Qed.


Notation parseExpression' :=
  (parseExpression isArray isBit isJson isTime isTimestamp getElementType).

(** One column that carries no set variants. *)
Lemma formatSource_plain t context :
  pe_set t = None ->
  formatSource [t] context
  = obind (formatExpression t context)
      (fun column => Ok (Js.join " " ["{"; column; "}"])).
Proof.
  intros S. unfold formatSource, everySet. simpl. rewrite S. simpl.
  destruct (formatExpression t context); reflexivity.
Qed.

(** A query of one statement: the answer of [generate] is what the
    pretty-printer makes of the type of the statement. *)
Lemma generate_one query context h stmt targets h1 source :
  parse query = Ok [mkRawStmt stmt] ->
  parseStmt' stmt context h = (Ok targets, h1) ->
  formatSource targets context = Ok source ->
  generate' context query h
  = (match prettierFormat ("type T = " +:+ source) with
     | Ok formatted =>
         mkGenerateResult (Some [trim (stripTypeAlias formatted)]) None
     | Throw e => mkGenerateResult None (Some e)
     end, h1).
Proof.
  intros P E F. rewrite generate_run, tryParseQuery_eq. mnorm.
  rewrite P. simpl. mnorm. unfold renderStmt at 1, parseRawStmt.
  simpl raw_stmt. mnorm.
  rewrite E. simpl. unfold format. rewrite F. simpl.
  destruct (prettierFormat _); reflexivity.
Qed.

(** [SELECT <literal> x], asked of [generate]: the type handed to the
    pretty-printer has, for the column [x], the literal itself and not
    the type of the literal: an integer in decimal, a float as the
    parser gives its text, a string between double quotes with its
    characters as they are, a boolean as [true] or [false]; for NULL it
    has what the type mapper makes of [null], and [null] when that is
    something else.  The answer is the output
    of the pretty-printer without the prefix that names the type, or
    the error of the pretty-printer. *)
Theorem literal_round_trip x location c h f mt :
  Js.truthy x = true ->
  formatFunc c = Some f ->
  mapType c = Some mt ->
  let renders val text :=
    forall query,
      parse query = Ok [mkRawStmt (selectOne x location val)] ->
      generate' c query h
      = (match prettierFormat
                 ("type T = " +:+ Js.join " " ["{"; f x text; "}"]) with
         | Ok formatted =>
             mkGenerateResult (Some [trim (stripTypeAlias formatted)]) None
         | Throw e => mkGenerateResult None (Some e)
         end, h) in
  (forall ival, renders (A_Const (Integer ival)) (Js.toString ival))
  /\ (forall str, renders (A_Const (Float str)) str)
  /\ (forall str,
       renders (A_Const (String_ str)) (dquote +:+ str +:+ dquote))
  /\ (forall b typeName ns,
       names typeName = Some ns -> lastOf ns = Some "bool" ->
       renders (boolLiteral b typeName) (if b then "true" else "false"))
  /\ renders (A_Const Null) (Js.join " | " (unique [mt "null"; "null"])).
Proof.
  intros X F T renders. unfold renders.
  assert (R : forall val, notColumnRef val ->
              forall e text, parseExpression' val c h = (Ok e, h) ->
              formatExpression
                (mkParsedExpression (pe_constantValue e) (Some x)
                   (pe_nullable e) (pe_set e) (pe_type e) (pe_types e)) c
              = Ok (f x text) ->
              pe_set e = None ->
              forall query,
                parse query = Ok [mkRawStmt (selectOne x location val)] ->
                generate' c query h
                = (match prettierFormat
                           ("type T = "
                            +:+ Js.join " " ["{"; f x text; "}"]) with
                   | Ok formatted =>
                       mkGenerateResult
                         (Some [trim (stripTypeAlias formatted)]) None
                   | Throw e => mkGenerateResult None (Some e)
                   end, h)).
  { intros val N e text E Fe Se query P.
    apply (generate_one query c h _ _ h _ P
             (selectOne_run isArray isBit isJson isTime isTimestamp
                getElementType x location val c h e X N E)).
    rewrite formatSource_plain by exact Se. rewrite Fe. reflexivity. }
  repeat split.
  - intros ival. apply (R (A_Const (Integer ival)) I (mkParsedExpression
                                 (Some (Js.toString ival)) None false None
                                 "int4" None));
      [reflexivity | | reflexivity].
    unfold formatExpression. simpl. rewrite F. reflexivity.
  - intros str. apply (R (A_Const (Float str)) I (mkParsedExpression (Some str) None false None
                                "float4" None));
      [reflexivity | | reflexivity].
    unfold formatExpression. simpl. rewrite F. reflexivity.
  - intros str. apply (R (A_Const (String_ str)) I (mkParsedExpression
                                (Some (dquote +:+ str +:+ dquote)) None
                                false None "text" None));
      [reflexivity | | reflexivity].
    unfold formatExpression. simpl. rewrite F. reflexivity.
  - intros b typeName ns Hn Hl.
    apply (R (boolLiteral b typeName) I (mkParsedExpression
                    (Some (if b then "true" else "false")) None false None
                    "bool" None)).
    + unfold boolLiteral. rewrite parseExpression_eq.
      cbn [parseExpressionBody]. unfold parseTypeCast.
      rewrite parseExpression_eq. cbn [parseExpressionBody].
      mnorm. rewrite Hn, Hl. destruct b; reflexivity.
    + unfold formatExpression. simpl. rewrite F. reflexivity.
    + reflexivity.
  - apply (R (A_Const Null) I (expr true "null")); [reflexivity | | reflexivity].
    unfold formatExpression, tsTypeOf.
    cbn [pe_types pe_constantValue pe_nullable pe_name pe_type expr].
    rewrite T, F. reflexivity.
Qed.

End DriverFacts.

(** * Further properties of the code *)

(** ** Dictionary objects, continued *)

Lemma includes_In l x : Js.includes l x = true <-> In x l.
Proof.
  unfold Js.includes. rewrite existsb_exists. split.
  - intros (y & I & E). apply String.eqb_eq in E. subst. exact I.
  - intros I. exists x. split; [exact I | apply String.eqb_refl].
Qed.

(** Entries listed key by key. *)
Definition listed {W} (f : string -> option W) (ks : list string)
  : Js.obj W :=
  List.flat_map
    (fun k => match f k with Some w => [(k, w)] | None => [] end) ks.

Lemma get_listed {W} (f : string -> option W) k ks :
  Js.get k (listed f ks) = if Js.includes ks k then f k else None.
Proof.
  induction ks as [|k0 ks IH]; simpl; [reflexivity|].
  destruct (String.eqb_spec k k0) as [->|N]; simpl.
  - destruct (f k0) as [w|] eqn:E; simpl.
    + rewrite String.eqb_refl. reflexivity.
    + rewrite IH. destruct (Js.includes ks k0); reflexivity.
  - destruct (f k0) as [w|]; simpl.
    + destruct (String.eqb_spec k k0); [contradiction | exact IH].
    + exact IH.
Qed.

Lemma listed_keys {W} (f : string -> option W) ks :
  (forall k, In k ks -> f k <> None) ->
  List.map fst (listed f ks) = ks.
Proof.
  induction ks as [|k0 ks IH]; intros H; simpl; [reflexivity|].
  destruct (f k0) as [w|] eqn:E.
  - simpl. rewrite IH; [reflexivity|]. intros k I. apply H. right. exact I.
  - exfalso. apply (H k0); [left; reflexivity | exact E].
Qed.

Lemma listed_listed {V W} (f : string -> option V)
  (g : string -> V -> option W) ks :
  List.flat_map
    (fun kv => match g (fst kv) (snd kv) with
               | Some w => [(fst kv, w)]
               | None => []
               end)
    (listed f ks)
  = listed (fun k => match f k with Some v => g k v | None => None end) ks.
Proof.
  induction ks as [|k0 ks IH]; simpl; [reflexivity|].
  rewrite flat_map_app, IH. destruct (f k0) as [v|]; simpl; [| reflexivity].
  destruct (g k0 v); reflexivity.
Qed.

Section MoreJsFacts.

Context {V W : Type}.

Lemma entries_listed (o : Js.obj V) :
  Js.entries o = listed (fun k => Js.get k o) (Js.keys o).
Proof. reflexivity. Qed.

Lemma includes_keys k (o : Js.obj V) :
  Js.includes (Js.keys o) k
  = match Js.get k o with Some _ => true | None => false end.
Proof.
  destruct (Js.includes (Js.keys o) k) eqn:E.
  - apply includes_In, In_keys, get_In in E. destruct E as [v ->].
    reflexivity.
  - destruct (Js.get k o) as [v|] eqn:G; [| reflexivity].
    assert (I : Js.includes (Js.keys o) k = true).
    { apply includes_In, In_keys, get_In. eauto. }
    congruence.
Qed.

(** Reading an object through its entries. *)
Lemma get_entries k (o : Js.obj V) : Js.get k (Js.entries o) = Js.get k o.
Proof.
  rewrite entries_listed, get_listed, includes_keys.
  destruct (Js.get k o); reflexivity.
Qed.

Lemma entries_keys (o : Js.obj V) :
  List.map fst (Js.entries o) = Js.keys o.
Proof.
  rewrite entries_listed. apply listed_keys.
  intros k I. apply In_keys, get_In in I. destruct I as [v ->]. discriminate.
Qed.

Lemma get_map_values (g : V -> W) k (o : Js.obj V) :
  Js.get k (List.map (fun kv => (fst kv, g (snd kv))) o)
  = option_map g (Js.get k o).
Proof.
  induction o as [|[k0 v0] o IH]; simpl; [reflexivity|].
  destruct (String.eqb k k0); [reflexivity | exact IH].
Qed.

End MoreJsFacts.

Lemma set_fresh {V} k (v : V) o :
  ~ In k (List.map fst o) -> Js.set k v o = o ++ [(k, v)].
Proof.
  induction o as [|[k0 v0] o IH]; simpl; intros N; [reflexivity|].
  destruct (String.eqb_spec k k0) as [->|D].
  - exfalso. apply N. left. reflexivity.
  - rewrite IH; [reflexivity|]. intros I. apply N. right. exact I.
Qed.

Lemma set_keys {V} k (v : V) o :
  List.map fst (Js.set k v o)
  = if Js.includes (List.map fst o) k then List.map fst o
    else List.map fst o ++ [k].
Proof.
  induction o as [|[k0 v0] o IH]; simpl; [reflexivity|].
  unfold Js.includes in *. simpl.
  destruct (String.eqb_spec k k0) as [->|D]; simpl; [reflexivity|].
  rewrite IH. destruct (existsb (String.eqb k) (List.map fst o)); reflexivity.
Qed.

(** Writing entries with distinct fresh keys appends them in order. *)
Lemma fold_set_fresh {V W} (g : string * V -> W) es : forall acc,
  NoDup (List.map fst acc ++ List.map fst es) ->
  List.fold_left (fun acc kv => Js.set (fst kv) (g kv) acc) es acc
  = acc ++ List.map (fun kv => (fst kv, g kv)) es.
Proof.
  induction es as [|[k v] es IH]; intros acc N; simpl.
  - rewrite app_nil_r. reflexivity.
  - assert (F : ~ In k (List.map fst acc)).
    { intros I. apply NoDup_app in N. destruct N as (_ & D & _).
      apply (D k); [apply list_elem_of_In; exact I | left]. }
    rewrite (set_fresh k _ acc F), IH.
    + rewrite <- app_assoc. reflexivity.
    + rewrite map_app. simpl. rewrite <- app_assoc. exact N.
Qed.

(** ** [unique] *)

Lemma uniqueFrom_In seen l x :
  In x (Js.uniqueFrom seen l) <-> In x l /\ ~ In x seen.
Proof.
  revert seen. induction l as [|y l IH]; intros seen; simpl.
  - tauto.
  - destruct (Js.includes seen y) eqn:S.
    + apply includes_In in S. rewrite IH. split.
      * tauto.
      * intros [[->|I] N]; [contradiction | tauto].
    + assert (N : ~ In y seen).
      { intros I. apply includes_In in I. congruence. }
      simpl. rewrite IH. simpl. split.
      * intros [->|[I M]]; [tauto|]. split; [tauto|]. intros J. apply M.
        right. exact J.
      * intros [[->|I] M]; [tauto|].
        destruct (String.eqb_spec y x) as [->|D]; [tauto|].
        right. split; [exact I|]. intros [E|J]; [congruence | tauto].
Qed.

Lemma uniqueFrom_NoDup seen l : NoDup (Js.uniqueFrom seen l).
Proof.
  revert seen. induction l as [|y l IH]; intros seen; simpl.
  - constructor.
  - destruct (Js.includes seen y); [apply IH|].
    constructor; [| apply IH].
    intros I. apply list_elem_of_In, uniqueFrom_In in I.
    destruct I as [_ N]. apply N. left. reflexivity.
Qed.

Lemma uniqueFrom_sublist seen l : sublist (Js.uniqueFrom seen l) l.
Proof.
  revert seen. induction l as [|y l IH]; intros seen; simpl.
  - constructor.
  - destruct (Js.includes seen y).
    + apply sublist_cons, IH.
    + apply sublist_skip, IH.
Qed.

(** Only the members of [seen] matter. *)
Lemma uniqueFrom_ext seen seen' l :
  (forall x, In x seen <-> In x seen') ->
  Js.uniqueFrom seen l = Js.uniqueFrom seen' l.
Proof.
  revert seen seen'. induction l as [|y l IH]; intros seen seen' E; simpl.
  - reflexivity.
  - assert (I : Js.includes seen y = Js.includes seen' y).
    { destruct (Js.includes seen y) eqn:S, (Js.includes seen' y) eqn:S';
        try reflexivity.
      - apply includes_In, E, includes_In in S. congruence.
      - apply includes_In, E, includes_In in S'. congruence. }
    rewrite <- I. destruct (Js.includes seen y).
    + apply IH, E.
    + f_equal. apply IH. intros x. simpl. rewrite E. tauto.
Qed.

Lemma uniqueFrom_app seen l1 l2 :
  Js.uniqueFrom seen (l1 ++ l2)
  = Js.uniqueFrom seen l1 ++ Js.uniqueFrom (l1 ++ seen) l2.
Proof.
  revert seen. induction l1 as [|y l1 IH]; intros seen; simpl.
  - reflexivity.
  - destruct (Js.includes seen y) eqn:S.
    + rewrite IH. f_equal. apply uniqueFrom_ext. intros x.
      apply includes_In in S. simpl. rewrite !in_app_iff.
      split; [tauto|]. intros [->|I]; tauto.
    + simpl. rewrite IH. do 2 f_equal. apply uniqueFrom_ext. intros x.
      simpl. rewrite !in_app_iff. simpl. tauto.
Qed.

(** [unique] keeps the first occurrence of each element, in the order
    of the array: the result has no duplicates and the same members, an
    element that occurs for the first time after [before] comes right
    after the elements [before] gives, and an array without duplicates
    comes back as it is; so [unique] of the result is the result. *)
Theorem unique_first_occurrences l :
  NoDup (unique l)
  /\ (forall x, In x (unique l) <-> In x l)
  /\ sublist (unique l) l
  /\ (forall before x after,
        l = before ++ x :: after -> ~ In x before ->
        exists rest, unique l = unique before ++ x :: rest)
  /\ (NoDup l -> unique l = l)
  /\ unique (unique l) = unique l.
Proof.
  assert (F : forall l', NoDup l' -> unique l' = l').
  { unfold unique. intros l' N.
    assert (G : forall seen, (forall x, In x l' -> ~ In x seen) ->
                Js.uniqueFrom seen l' = l').
    { induction N as [|y l' Ny N IH]; intros seen D; simpl; [reflexivity|].
      destruct (Js.includes seen y) eqn:S.
      - apply includes_In in S. exfalso. apply (D y); [left; reflexivity|].
        exact S.
      - f_equal. apply IH. intros x I [<-|J].
        + apply Ny, list_elem_of_In, I.
        + apply (D x); [right; exact I | exact J]. }
    apply G. intros x _ []. }
  split; [apply uniqueFrom_NoDup|].
  split; [intros x; unfold unique; rewrite uniqueFrom_In; simpl; tauto|].
  split; [apply uniqueFrom_sublist|].
  split; [| split; [apply F | apply F, uniqueFrom_NoDup]].
  intros before x after -> N. unfold unique.
  rewrite uniqueFrom_app. simpl.
  destruct (Js.includes (before ++ []) x) eqn:S.
  - apply includes_In in S. rewrite app_nil_r in S. contradiction.
  - eexists. reflexivity.
Qed.

(** ** Which expressions have a name or a literal type *)

(** The expressions whose analysis can give a name: column references,
    scalar subqueries, and NULLIF over such an expression. *)
Fixpoint nameable (e : Expression) : bool :=
  match e with
  | ColumnRef _ => true
  | SubLink EXPR_SUBLINK _ _ _ => true
  | A_Expr AEXPR_NULLIF (Some lexpr) _ _ => nameable lexpr
  | _ => false
  end.

(** The expressions whose analysis can give a literal type: constants,
    scalar subqueries, and casts of and NULLIF over such an
    expression. *)
Fixpoint literal (e : Expression) : bool :=
  match e with
  | A_Const _ => true
  | SubLink EXPR_SUBLINK _ _ _ => true
  | A_Expr AEXPR_NULLIF (Some lexpr) _ _ => literal lexpr
  | TypeCast arg _ => literal arg
  | _ => false
  end.

(** A result built by [expr]: no name, no literal, no variants. *)
Definition bare (r : ParsedExpression) : Prop :=
  pe_name r = None /\ pe_constantValue r = None /\ pe_set r = None.

Lemma bare_expr n t : bare (expr n t).
Proof. repeat split. Qed.

Ltac run_inv H :=
  repeat
    match type of H with
    | bind _ _ _ = (Ok _, _) =>
        let a := fresh "a" in
        let g := fresh "g" in
        let E := fresh "E" in
        apply bind_inv_Ok in H; destruct H as (a & g & E & H)
    | (if ?b then _ else _) _ = (Ok _, _) => destruct b eqn:?
    | (if ?b then _ else _) = Ok _ => destruct b eqn:?
    | obind ?o _ = Ok _ =>
        let x := fresh "x" in
        destruct o as [x|] eqn:?; simpl in H; [| discriminate H]
    end.

Ltac run_all :=
  repeat
    match goal with
    | H : bind _ _ _ = (Ok _, _) |- _ =>
        let a := fresh "a" in
        let g := fresh "g" in
        let E := fresh "E" in
        apply bind_inv_Ok in H; destruct H as (a & g & E & H)
    | H : (if ?b then _ else _) _ = (Ok _, _) |- _ => destruct b eqn:?
    | H : (match ?x with _ => _ end) _ = (Ok _, _) |- _ => destruct x eqn:?
    | H : ret _ _ = (Ok _, _) |- _ => inversion H; subst; clear H
    | H : throw _ _ = (Ok _, _) |- _ => discriminate H
    | H : lift ?o _ = (Ok _, _) |- _ =>
        destruct o eqn:?; [inversion H; subst; clear H | discriminate H]
    | H : defined ?o _ = (Ok _, _) |- _ =>
        destruct o eqn:?; [inversion H; subst; clear H | discriminate H]
    | H : anyNullable _ _ _ _ _ = (Ok _, _) |- _ => unfold anyNullable in H
    end.

Section NamesAndLiterals.

Variables isArray isBit isJson isTime isTimestamp : string -> bool.
Variable getElementType : string -> string.

Notation parseExpression' :=
  (parseExpression isArray isBit isJson isTime isTimestamp getElementType).
Notation parseSelectStmt' :=
  (parseSelectStmt isArray isBit isJson isTime isTimestamp getElementType).

Lemma parseOperator_bare name l r res :
  parseOperator isArray isBit isJson isTime isTimestamp name l r = Ok res ->
  bare res.
Proof.
  unfold parseOperator. intros H. run_inv H;
    try discriminate H; inversion H; subst; repeat split.
Qed.

Definition sourced (e : Expression) : Prop :=
  forall c h r h',
    parseExpression' e c h = (Ok r, h') ->
    (pe_name r <> None -> nameable e = true)
    /\ (pe_constantValue r <> None -> literal e = true).

Lemma sourced_bare e :
  (forall c h r h', parseExpression' e c h = (Ok r, h') -> bare r) ->
  sourced e.
Proof.
  intros B c h r h' H. destruct (B c h r h' H) as (N & C & _).
  split; intros X; contradiction.
Qed.

Lemma expressions_sourced : forall e, sourced e.
Proof.
  apply (Expression_tree_ind sourced (fun _ => True) (fun _ => True)
           (fun _ => True));
    try (intros; exact I); intros.
  all: try solve
    [ apply sourced_bare; intros c0 h0 r0 h0' Hrun;
      rewrite parseExpression_eq in Hrun; simpl in Hrun;
      unfold parseAArrayExpr, parseAIndirection, parseBoolExpr,
        parseCaseExpr, parseCoalesceExpr, parseFuncCall, parseList,
        parseMinMaxExpr, parseBoolTest, parseNullTest, parseParamRef,
        parseSQLValueFunction in Hrun;
      run_all; try apply bare_expr; repeat split ].
  - (* A_Const *)
    intros c h r h' Hrun. rewrite parseExpression_eq in Hrun.
    simpl in Hrun. run_all. split; [| reflexivity].
    destruct val; intros X; contradiction.
  - (* A_Expr *)
    intros c h r h' Hrun. rewrite parseExpression_eq in Hrun.
    simpl in Hrun. unfold parseAExpr in Hrun.
    destruct kind; run_all;
      try (match goal with
           | E : parseOperator _ _ _ _ _ _ _ _ = Ok _ |- _ =>
               apply parseOperator_bare in E; destruct E as (N & C & _)
           end; split; intros X; contradiction);
      try (split; intros X; contradiction).
    unfold parseRequired in *. destruct lexpr as [l|]; [| discriminate].
    simpl. match goal with IH : OptP sourced (Some l) |- _ =>
      apply (IH c h _ _ E) end.
  - (* ColumnRef *)
    intros c h r h' Hrun. rewrite parseExpression_eq in Hrun.
    simpl in Hrun. unfold parseColumnRef, resolved in Hrun. run_all;
      (split; [reflexivity | intros X; contradiction]).
  - (* SQLValueFunction *)
    apply sourced_bare. intros c h r h' Hrun.
    rewrite parseExpression_eq in Hrun. simpl in Hrun. run_all.
    destruct op; apply bare_expr.
  - (* SubLink *)
    intros c h r h' Hrun. rewrite parseExpression_eq in Hrun.
    simpl in Hrun. unfold parseSubLink in Hrun.
    destruct t; run_all; split; try reflexivity; intros X; contradiction.
  - (* TypeCast *)
    intros c h r h' Hrun. rewrite parseExpression_eq in Hrun.
    simpl in Hrun. unfold parseTypeCast in Hrun.
    apply bind_inv_Ok in Hrun. destruct Hrun as (a & g & Ea & Hrun).
    apply bind_inv_Ok in Hrun. destruct Hrun as (ty & g' & Et & Hrun).
    match goal with IH : sourced arg |- _ =>
      destruct (IH c h a g Ea) as [_ L] end.
    split.
    + destruct (pe_constantValue a); run_all; intros X; contradiction.
    + intros X. simpl. apply L.
      destruct (pe_constantValue a); [discriminate|].
      run_all; simpl in X; contradiction.
Qed.

(** An expression is given a name only if it is a column reference, a
    scalar subquery or NULLIF over such an expression, and a literal
    type only if it is a constant, a scalar subquery, or a cast of or
    NULLIF over such an expression: operators, function calls, CASE,
    COALESCE and the other expressions never have either. *)
Theorem names_and_literals_have_a_source e c h r h' :
  parseExpression' e c h = (Ok r, h') ->
  (forall n, pe_name r = Some n -> nameable e = true)
  /\ (forall v, pe_constantValue r = Some v -> literal e = true).
Proof.
  intros H. destruct (expressions_sourced e c h r h' H) as [N L].
  split; intros x E; [apply N | apply L]; rewrite E; discriminate.
Qed.

(** A target of a select list that can get a name: it has an alias, or
    its expression is one that is given a name. *)
Definition acceptable (t : ResTarget) : Prop :=
  match t with
  | mkResTarget (Some alias) _ val => alias <> "" \/ nameable val = true
  | mkResTarget None _ val => nameable val = true
  end.

Lemma targetStep_acceptable c acc t h acc' h' :
  targetStep parseExpression' c acc t h = (Ok acc', h') -> acceptable t.
Proof.
  destruct t as [name location val]. unfold targetStep, acceptable.
  intros H.
  assert (O : forall g,
             bind (parseExpression' val c)
               (fun parsedExpression =>
                  match aliasOf name parsedExpression with
                  | Some alias =>
                      if Js.truthy alias
                      then ret (Js.set alias
                                  (mkParsedExpression
                                     (pe_constantValue parsedExpression)
                                     (Some alias)
                                     (pe_nullable parsedExpression)
                                     (pe_set parsedExpression)
                                     (pe_type parsedExpression)
                                     (pe_types parsedExpression)) acc)
                      else throw (MissingAlias val)
                  | None => throw (MissingAlias val)
                  end) g = (Ok acc', h') ->
             match name with
             | Some alias => alias <> "" \/ nameable val = true
             | None => nameable val = true
             end).
  { intros g R. apply bind_inv_Ok in R. destruct R as (p & g1 & Ep & R).
    destruct (aliasOf name p) as [alias|] eqn:A; [| discriminate R].
    destruct (Js.truthy alias) eqn:T; [| discriminate R].
    destruct name as [n|]; simpl in A.
    - inversion A; subst. left. intros ->. discriminate T.
    - apply (expressions_sourced val c g p g1 Ep). rewrite A. discriminate. }
  cbv zeta in H.
  destruct val; try exact (O h H).
  destruct name; [right|]; reflexivity.
Qed.

(** A select list is accepted only if each of its targets has an alias
    or an expression that is given a name; one without, such as an
    operator, a function call or a cast, makes the analysis fail. *)
Theorem unnamed_targets_are_rejected targetList c h r h' :
  parseTargetList parseExpression' targetList c h = (Ok r, h') ->
  Forall acceptable targetList.
Proof.
  unfold parseTargetList. intros H.
  apply bind_inv_Ok in H. destruct H as (acc & g & H & _).
  revert H. generalize (@nil (string * ParsedResultTarget)).
  revert h. induction targetList as [|t l IH]; intros h acc0 H.
  - constructor.
  - simpl in H. apply bind_inv_Ok in H. destruct H as (acc1 & g1 & E & H).
    constructor; [eapply targetStep_acceptable, E | eapply IH, H].
Qed.

End NamesAndLiterals.

(** ** The names of the result targets *)

(** The accumulator of [parseTargetList]: a [Map] from names to targets
    that carry the name they are stored under. *)
Definition keyed (acc : Js.obj ParsedResultTarget) : Prop :=
  NoDup (List.map fst acc)
  /\ Forall (fun kv => pe_name (snd kv) = Some (fst kv)) acc.

Lemma set_NoDup {V} k (v : V) o :
  NoDup (List.map fst o) -> NoDup (List.map fst (Js.set k v o)).
Proof.
  intros N. rewrite set_keys.
  destruct (Js.includes (List.map fst o) k) eqn:I; [exact N|].
  apply NoDup_app. split; [exact N|]. split; [| apply NoDup_singleton].
  intros x Hx Hk. apply list_elem_of_In in Hx.
  apply list_elem_of_In in Hk. destruct Hk as [<-|[]].
  apply includes_In in Hx. congruence.
Qed.

Lemma In_set {V} k (v : V) o kv :
  In kv (Js.set k v o) -> kv = (k, v) \/ In kv o.
Proof.
  induction o as [|[k0 v0] o IH]; simpl.
  - intros [<-|[]]. left. reflexivity.
  - destruct (String.eqb k k0); simpl.
    + intros [<-|I]; auto.
    + intros [<-|I]; auto. destruct (IH I); auto.
Qed.

Lemma keyed_set k v acc :
  pe_name v = Some k -> keyed acc -> keyed (Js.set k v acc).
Proof.
  intros E [N F]. split; [apply set_NoDup, N|].
  apply List.Forall_forall. intros kv I. apply In_set in I.
  destruct I as [->|I]; [exact E|].
  apply (proj1 (List.Forall_forall _ _) F kv I).
Qed.

Lemma keyed_expandColumns table acc :
  keyed acc -> keyed (expandColumns table acc).
Proof.
  unfold expandColumns. generalize (Js.entries (tbl_columns table)).
  intros es. revert acc. induction es as [|[k col] es IH]; intros acc K.
  - exact K.
  - simpl. apply IH, keyed_set; [reflexivity | exact K].
Qed.

Lemma keyed_expandTables tables names : forall acc acc',
  expandTables tables names acc = Ok acc' -> keyed acc -> keyed acc'.
Proof.
  induction names as [|n names IH]; intros acc acc' E K; simpl in E.
  - inversion E; subst. exact K.
  - destruct (lookupTable n tables) as [table|]; [| discriminate E].
    apply (IH _ _ E), keyed_expandColumns, K.
Qed.

Section TargetNames.

Variable parseExpression : Expression -> Context -> M ParsedExpression.

Lemma keyed_targetStep c acc t h acc' h' :
  targetStep parseExpression c acc t h = (Ok acc', h') ->
  keyed acc -> keyed acc'.
Proof.
  destruct t as [name location val]. unfold targetStep. cbv zeta.
  intros H K.
  assert (O : forall g,
             bind (parseExpression val c)
               (fun parsedExpression =>
                  match aliasOf name parsedExpression with
                  | Some alias =>
                      if Js.truthy alias
                      then ret (Js.set alias
                                  (mkParsedExpression
                                     (pe_constantValue parsedExpression)
                                     (Some alias)
                                     (pe_nullable parsedExpression)
                                     (pe_set parsedExpression)
                                     (pe_type parsedExpression)
                                     (pe_types parsedExpression)) acc)
                      else throw (MissingAlias val)
                  | None => throw (MissingAlias val)
                  end) g = (Ok acc', h') ->
             keyed acc').
  { intros g R. apply bind_inv_Ok in R. destruct R as (p & g1 & Ep & R).
    destruct (aliasOf name p) as [alias|]; [| discriminate R].
    destruct (Js.truthy alias); [| discriminate R].
    inversion R; subst. apply keyed_set; [reflexivity | exact K]. }
  destruct val; try exact (O h H).
  destruct fields as [|f0 more]; [discriminate H|].
  destruct (isStar f0).
  - apply bind_inv_Ok in H. destruct H as (tbls & g & _ & H).
    unfold lift in H.
    destruct (expandTables tbls (Js.keys tbls) acc) as [a|e] eqn:E;
      [| discriminate H].
    inversion H; subst. apply (keyed_expandTables _ _ _ _ E K).
  - destruct more as [|f1 more]; [exact (O h H)|].
    destruct (isStar f1); [| exact (O h H)].
    apply bind_inv_Ok in H. destruct H as (tbls & g & _ & H).
    apply bind_inv_Ok in H. destruct H as (tn & g1 & _ & H).
    destruct (lookupTable tn tbls) as [table|]; [| discriminate H].
    inversion H; subst. apply keyed_expandColumns, K.
Qed.

(** The result targets of a select list have names, and no two have the
    same. *)
Theorem result_names_are_distinct targetList c h r h' :
  parseTargetList parseExpression targetList c h = (Ok r, h') ->
  NoDup (List.map pe_name r)
  /\ Forall (fun t => exists n, pe_name t = Some n) r.
Proof.
  unfold parseTargetList. intros H.
  apply bind_inv_Ok in H. destruct H as (acc & g & H & R).
  inversion R; subst; clear R.
  assert (K : keyed acc).
  { assert (K0 : keyed []) by (split; constructor).
    revert H K0. generalize (@nil (string * ParsedResultTarget)).
    revert h. induction targetList as [|t l IH]; intros h acc0 H K0.
    - inversion H; subst. exact K0.
    - simpl in H. apply bind_inv_Ok in H.
      destruct H as (acc1 & g1 & E & H).
      apply (IH _ _ H), (keyed_targetStep _ _ _ _ _ _ E K0). }
  destruct K as [N F]. split.
  - rewrite List.map_map.
    rewrite (List.map_ext_in _ (fun kv => Some (fst kv)));
      [| intros kv I; apply (proj1 (List.Forall_forall _ _) F kv I)].
    rewrite <- (List.map_map fst Some). apply NoDup_fmap_2; [| exact N].
    intros x y Exy. inversion Exy. reflexivity.
  - apply List.Forall_forall. intros t I. apply in_map_iff in I.
    destruct I as (kv & <- & I). exists (fst kv).
    apply (proj1 (List.Forall_forall _ _) F kv I).
Qed.

End TargetNames.

(** ** Operators and qualified column references *)

Section Operators.

Variables isArray isBit isJson isTime isTimestamp : string -> bool.
Variable getElementType : string -> string.

Notation parseExpression' :=
  (parseExpression isArray isBit isJson isTime isTimestamp getElementType).
Notation parseOperator' :=
  (parseOperator isArray isBit isJson isTime isTimestamp).

Lemma parseOperator_binary name l r res :
  parseOperator' name (Some l) (Some r) = Ok res ->
  pe_nullable res = pe_nullable l || pe_nullable r.
Proof.
  unfold parseOperator, orNullable, orNullableOpt. simpl.
  destruct (pe_nullable l), (pe_nullable r); simpl; intros H;
    run_inv H; try discriminate H; inversion H; subst; reflexivity.
Qed.

Lemma parseOperator_prefix name r res :
  parseOperator' name None (Some r) = Ok res ->
  pe_nullable res = pe_nullable r
  /\ (pe_type res = pe_type r \/ pe_type res = "bool").
Proof.
  unfold parseOperator, orNullable, orNullableOpt, plusType, minusType.
  simpl.
  destruct (pe_nullable r); simpl; intros H;
    run_inv H; try discriminate H; inversion H; subst; simpl;
    try destruct (isNumber (pe_type r) || isBit (pe_type r)); auto.
Qed.

(** An operator applied to two operands analyzes both, the left one
    first, and an error of either is the error of the whole; its result
    is nullable exactly when one of the operands is, whatever the
    operator, and it has no name and no literal type.  A prefix
    operator gives the nullability of its operand, and its type or
    [bool]. *)
Theorem operators_are_strict name rexpr c h res h' :
  (forall lexpr,
      parseExpression' (A_Expr AEXPR_OP (Some lexpr) name (Some rexpr)) c h
      = (Ok res, h') ->
      exists l h1 r,
        parseExpression' lexpr c h = (Ok l, h1)
        /\ parseExpression' rexpr c h1 = (Ok r, h')
        /\ pe_nullable res = pe_nullable l || pe_nullable r
        /\ bare res)
  /\ (parseExpression' (A_Expr AEXPR_OP None name (Some rexpr)) c h
      = (Ok res, h') ->
      exists r,
        parseExpression' rexpr c h = (Ok r, h')
        /\ pe_nullable res = pe_nullable r
        /\ (pe_type res = pe_type r \/ pe_type res = "bool")
        /\ bare res)
  /\ (forall lexpr e h1,
        parseExpression' lexpr c h = (Throw e, h1) ->
        parseExpression' (A_Expr AEXPR_OP (Some lexpr) name (Some rexpr)) c h
        = (match lastOf name with
           | Some _ => Throw e
           | None => Throw TypeError
           end, match lastOf name with Some _ => h1 | None => h end)).
Proof.
  split; [| split].
  - intros lexpr H. rewrite parseExpression_eq in H. simpl in H.
    apply bind_inv_Ok in H. destruct H as (op & g0 & E0 & H).
    apply bind_inv_Ok in H. destruct H as (ol & g1 & El & H).
    apply bind_inv_Ok in H. destruct H as (or & g2 & Er & H).
    simpl in El, Er.
    apply bind_inv_Ok in El. destruct El as (l & g3 & El & Rl).
    apply bind_inv_Ok in Er. destruct Er as (r & g4 & Er & Rr).
    inversion Rl; subst; clear Rl. inversion Rr; subst; clear Rr.
    unfold lift in H.
    destruct (parseOperator' op (Some l) (Some r)) as [x|] eqn:O;
      [| discriminate H].
    inversion H; subst; clear H.
    destruct (lastOf name); [| discriminate E0].
    inversion E0; subst; clear E0.
    exists l, g1, r. repeat split; try assumption.
    + apply (parseOperator_binary _ _ _ _ O).
    + apply (parseOperator_bare _ _ _ _ _ _ _ _ _ O).
    + apply (parseOperator_bare _ _ _ _ _ _ _ _ _ O).
    + apply (parseOperator_bare _ _ _ _ _ _ _ _ _ O).
  - intros H. rewrite parseExpression_eq in H. simpl in H.
    apply bind_inv_Ok in H. destruct H as (op & g0 & E0 & H).
    apply bind_inv_Ok in H. destruct H as (ol & g1 & El & H).
    apply bind_inv_Ok in H. destruct H as (or & g2 & Er & H).
    simpl in El, Er. inversion El; subst; clear El.
    apply bind_inv_Ok in Er. destruct Er as (r & g4 & Er & Rr).
    inversion Rr; subst; clear Rr.
    unfold lift in H.
    destruct (parseOperator' op None (Some r)) as [x|] eqn:O;
      [| discriminate H].
    inversion H; subst; clear H.
    destruct (lastOf name); [| discriminate E0].
    inversion E0; subst; clear E0.
    destruct (parseOperator_prefix _ _ _ O) as [N T].
    exists r. repeat split; try assumption;
      apply (parseOperator_bare _ _ _ _ _ _ _ _ _ O).
  - intros lexpr e h1 E. rewrite parseExpression_eq. simpl.
    unfold parseAExpr. destruct (lastOf name); simpl; [| reflexivity].
    mnorm. rewrite E. reflexivity.
Qed.

End Operators.

(** ** [clone] *)

(** A column of a table of a schema of the catalog, and a column of a
    table of the scope. *)
Definition catalogColumn (catalog : TablesBySchema)
  (schema table column : string) : option Column :=
  match Js.get schema catalog with
  | Some tables =>
      match Js.get table tables with
      | Some t => Js.get column (tbl_columns t)
      | None => None
      end
  | None => None
  end.

Definition scopeColumn (scope : Tables) (table column : string)
  : option Column :=
  match lookupTable table scope with
  | Some t => Js.get column (tbl_columns t)
  | None => None
  end.

Lemma get_cloneTables k (t : Tables) :
  Js.get k (cloneTables t)
  = match Js.get k t with
    | Some (Some table) => Some (Some (cloneTable table))
    | _ => None
    end.
Proof.
  unfold cloneTables. rewrite entries_listed.
  rewrite (flat_map_ext _
             (fun kv =>
                match match snd kv with
                      | Some table => Some (Some (cloneTable table))
                      | None => None
                      end with
                | Some w => [(fst kv, w)]
                | None => []
                end)).
  - rewrite (listed_listed (fun k => Js.get k t)
               (fun _ v => match v with
                           | Some table => Some (Some (cloneTable table))
                           | None => None
                           end)).
    rewrite get_listed, includes_keys.
    destruct (Js.get k t) as [[table|]|]; reflexivity.
  - intros [k0 [table|]]; reflexivity.
Qed.

Lemma lookupTable_cloneTables k (t : Tables) :
  lookupTable k (cloneTables t) = option_map cloneTable (lookupTable k t).
Proof.
  unfold lookupTable. rewrite get_cloneTables.
  destruct (Js.get k t) as [[table|]|]; reflexivity.
Qed.

Lemma get_cloneCatalog k (c : TablesBySchema) :
  Js.get k (cloneCatalog c) = option_map cloneSchema (Js.get k c).
Proof.
  unfold cloneCatalog.
  rewrite (get_map_values cloneSchema), get_entries. reflexivity.
Qed.

Lemma get_cloneSchema k (s : Js.obj Table) :
  Js.get k (cloneSchema s) = option_map cloneTable (Js.get k s).
Proof.
  unfold cloneSchema.
  rewrite (get_map_values cloneTable), get_entries. reflexivity.
Qed.

Lemma get_cloneTable k (t : Table) :
  Js.get k (tbl_columns (cloneTable t)) = Js.get k (tbl_columns t).
Proof. apply get_entries. Qed.

(** The clone of a context is a context of its own: its scope and its
    catalog are new objects, in which every table and every column
    reads as in the original, with the same default schema and fallback
    type; [formatFunc] and [mapType], being functions, do not survive
    the JSON round trip. *)
Theorem clone_preserves_lookups c h :
  let scope := List.nth (tables c) (tablesCells h) [] in
  let catalog := List.nth (tablesBySchema c) (catalogCells h) [] in
  exists c' h',
    clone c h = (Ok c', h')
    /\ extends h h'
    /\ tables c' = List.length (tablesCells h)
    /\ tablesBySchema c' = List.length (catalogCells h)
    /\ defaultSchema c' = defaultSchema c
    /\ fallbackType c' = fallbackType c
    /\ formatFunc c' = None /\ mapType c' = None
    /\ (forall schema table column,
          catalogColumn (List.nth (tablesBySchema c') (catalogCells h') [])
            schema table column
          = catalogColumn catalog schema table column)
    /\ (forall table column,
          scopeColumn (List.nth (tables c') (tablesCells h') []) table column
          = scopeColumn scope table column)
    /\ (forall table,
          option_map tbl_nullable
            (lookupTable table (List.nth (tables c') (tablesCells h') []))
          = option_map tbl_nullable (lookupTable table scope)).
Proof.
  intros scope catalog. rewrite clone_run. eexists. eexists.
  split; [reflexivity|]. simpl. rewrite !nth_fresh.
  split; [split; simpl; apply prefix_app_r; reflexivity|].
  repeat split.
  - intros schema table column. unfold catalogColumn.
    rewrite get_cloneCatalog. fold catalog.
    destruct (Js.get schema catalog) as [tables|]; simpl; [| reflexivity].
    rewrite get_cloneSchema.
    destruct (Js.get table tables) as [t|]; simpl; [| reflexivity].
    apply get_cloneTable.
  - intros table column. unfold scopeColumn.
    rewrite lookupTable_cloneTables. fold scope.
    destruct (lookupTable table scope) as [t|]; simpl; [| reflexivity].
    apply get_cloneTable.
  - intros table. rewrite lookupTable_cloneTables. fold scope.
    destruct (lookupTable table scope); reflexivity.
Qed.

(** ** The scope a FROM clause builds *)

Lemma get_addToScope name parsedTables : forall base,
  Js.get name (addToScope parsedTables base)
  = match List.find (fun t => String.eqb name (pt_alias t))
            (List.rev parsedTables) with
    | Some t => Some (Some (scopeEntry t))
    | None => Js.get name base
    end.
Proof.
  unfold addToScope.
  induction parsedTables as [|t l IH]; intros base; simpl; [reflexivity|].
  rewrite IH, find_app_first. simpl.
  destruct (List.find _ (List.rev l)); [reflexivity|].
  rewrite get_set. destruct (String.eqb name (pt_alias t)); reflexivity.
Qed.

Section Scopes.

Variables isArray isBit isJson isTime isTimestamp : string -> bool.
Variable getElementType : string -> string.

Notation parseExpression' :=
  (parseExpression isArray isBit isJson isTime isTimestamp getElementType).
Notation parseSelectStmt' :=
  (parseSelectStmt isArray isBit isJson isTime isTimestamp getElementType).
Notation parseFromItem' :=
  (parseFromItem isArray isBit isJson isTime isTimestamp getElementType).
Notation parseStmt' :=
  (parseStmt isArray isBit isJson isTime isTimestamp getElementType).

Lemma collectFromItems_extends fromItems c h :
  extends h (snd (collectFromItems parseFromItem' fromItems c h)).
Proof.
  apply framed_extends, collectFromItems_framed, Forall_forall.
  intros f _ l c0 n. apply parseFromItem_framed.
Qed.


(** The table of a collected list that a name reads: the last one of
    that alias. *)
Definition lastNamed (name : string) (parsedTables : list ParsedTable)
  : option ParsedTable :=
  List.find (fun t => String.eqb name (pt_alias t)) (List.rev parsedTables).


End Scopes.

(** ** Star expansion *)

Lemma NoDup_insertIndex n k l :
  NoDup (List.map snd l) -> ~ In k (List.map snd l) ->
  NoDup (List.map snd (Js.insertIndex n k l)).
Proof.
  induction l as [|[m k'] l IH]; simpl; intros N F.
  - constructor; [intros I; inversion I | constructor].
  - destruct (n <=? m)%N; simpl.
    + constructor; [| exact N]. intros I. apply list_elem_of_In in I.
      exact (F I).
    + inversion N as [|? ? N1 N2]; subst. constructor.
      * intros I. apply list_elem_of_In, in_map_iff in I.
        destruct I as ([m' k''] & E & I). simpl in E. subst k''.
        apply In_insertIndex in I. destruct I as [I|I].
        -- inversion I; subst. apply F. left. reflexivity.
        -- apply N1, list_elem_of_In, in_map_iff. exists (m', k'). auto.
      * apply IH; [exact N2|]. intros I. apply F. right. exact I.
Qed.

Lemma NoDup_indexKeys ks :
  NoDup ks -> NoDup (List.map snd (Js.indexKeys ks)).
Proof.
  induction 1 as [|k ks F N IH]; simpl; [constructor|].
  destruct (Js.arrayIndex k) as [n|]; [| exact IH].
  apply NoDup_insertIndex; [exact IH|].
  intros I. apply In_indexKeys in I. destruct I as [I _].
  apply F, list_elem_of_In, I.
Qed.

Lemma NoDup_keys {V} (o : Js.obj V) :
  NoDup (List.map fst o) -> NoDup (Js.keys o).
Proof.
  intros N. unfold Js.keys. apply NoDup_app. split; [| split].
  - apply NoDup_indexKeys, N.
  - intros k I J. apply list_elem_of_In, In_indexKeys in I.
    apply list_elem_of_In, filter_In in J.
    destruct I as [_ I], J as [_ J]. rewrite I in J. discriminate J.
  - apply NoDup_ListNoDup, List.NoDup_filter, NoDup_ListNoDup, N.
Qed.

Lemma indexKeys_plain ks :
  Forall (fun k => Js.isIndexKey k = false) ks -> Js.indexKeys ks = [].
Proof.
  induction 1 as [|k ks E F IH]; simpl; [reflexivity|].
  unfold Js.isIndexKey in E. destruct (Js.arrayIndex k); [discriminate E|].
  exact IH.
Qed.

(** Without array-index keys, [Object.keys] is the insertion order. *)
Lemma keys_plain {V} (o : Js.obj V) :
  Forall (fun k => Js.isIndexKey k = false) (List.map fst o) ->
  Js.keys o = List.map fst o.
Proof.
  unfold Js.keys. generalize (List.map fst o). intros ks F.
  rewrite (indexKeys_plain ks F). simpl.
  induction F as [|k ks E F IH]; simpl; [reflexivity|].
  rewrite E. simpl. f_equal. exact IH.
Qed.

Lemma listed_ext_in {W} (f g : string -> option W) ks :
  (forall k, In k ks -> f k = g k) -> listed f ks = listed g ks.
Proof.
  induction ks as [|k ks IH]; intros E; simpl; [reflexivity|].
  rewrite (E k (or_introl eq_refl)), IH; [reflexivity|].
  intros k' I. apply E. right. exact I.
Qed.

Lemma entries_plain {V} (o : Js.obj V) :
  NoDup (List.map fst o) ->
  Forall (fun k => Js.isIndexKey k = false) (List.map fst o) ->
  Js.entries o = o.
Proof.
  intros N F. rewrite entries_listed, (keys_plain o F).
  clear F. induction o as [|[k v] o IH]; [reflexivity|].
  inversion N as [|? ? N1 N2]; subst.
  change (listed (fun k0 => Js.get k0 ((k, v) :: o))
            (List.map fst ((k, v) :: o))
          = (k, v) :: o).
  simpl. rewrite String.eqb_refl. simpl. f_equal.
  rewrite <- (IH N2) at 2. apply listed_ext_in. intros k' I.
  destruct (String.eqb_spec k' k) as [->|D]; [| reflexivity].
  exfalso. apply N1, list_elem_of_In, I.
Qed.

Lemma keys_singleton {V} k (v : V) : Js.keys [(k, v)] = [k].
Proof.
  unfold Js.keys. simpl. unfold Js.isIndexKey.
  destruct (Js.arrayIndex k); reflexivity.
Qed.

(** The result targets a star gives for one table. *)
Definition starColumns (columns : Js.obj Column)
  : list ParsedResultTarget :=
  List.map (fun kv => columnTarget (fst kv) (snd kv)) (Js.entries columns).

Lemma expandColumns_fresh table :
  NoDup (List.map fst (tbl_columns table)) ->
  List.map snd (expandColumns table []) = starColumns (tbl_columns table).
Proof.
  intros N. unfold expandColumns, starColumns.
  rewrite (fold_set_fresh (fun kv => columnTarget (fst kv) (snd kv))).
  - simpl. rewrite List.map_map. reflexivity.
  - simpl. rewrite entries_keys. apply NoDup_keys, N.
Qed.

Section Star.

Variable parseExpression : Expression -> Context -> M ParsedExpression.

Definition star : ResTarget := mkResTarget None 0 (ColumnRef [A_Star]).

(** A star over a scope of one table. *)
Lemma star_one_table d g alias table :
  List.nth (tables d) (tablesCells g) [] = [(alias, Some table)] ->
  NoDup (List.map fst (tbl_columns table)) ->
  parseTargets parseExpression (Some [star]) d g
  = (Ok (starColumns (tbl_columns table)), g).
Proof.
  intros S N. unfold parseTargets, parseTargetList, star. simpl foldM.
  unfold targetStep. mnorm. simpl. unfold readTables. mnorm. rewrite S.
  rewrite keys_singleton. simpl. unfold lookupTable. simpl.
  rewrite String.eqb_refl. simpl. mnorm.
  rewrite (expandColumns_fresh table N). reflexivity.
Qed.

(** A star over a scope whose only entry holds [undefined]. *)
Lemma star_no_table d g alias :
  List.nth (tables d) (tablesCells g) [] = [(alias, None)] ->
  parseTargets parseExpression (Some [star]) d g = (Throw TypeError, g).
Proof.
  intros S. unfold parseTargets, parseTargetList, star. simpl foldM.
  unfold targetStep. mnorm. simpl. unfold readTables. mnorm. rewrite S.
  rewrite keys_singleton. simpl. unfold lookupTable. simpl.
  rewrite String.eqb_refl. reflexivity.
Qed.

End Star.

Lemma columnsOf_NoDup colnames targets : forall acc,
  NoDup (List.map fst acc) ->
  NoDup (List.map fst (columnsOf colnames targets acc)).
Proof.
  revert colnames. induction targets as [|t l IH]; intros colnames acc N.
  - exact N.
  - simpl. apply IH, set_NoDup, N.
Qed.

(** A result target as a column of a table in FROM: its name, type and
    nullability, without its literal type or variants. *)
Definition widen (t : ParsedResultTarget) : ParsedResultTarget :=
  mkParsedExpression None (pe_name t) (pe_nullable t) None (pe_type t) None.

Lemma columnsOf_plain targets : forall acc,
  NoDup (List.map fst acc
           ++ List.map (fun t => keyOfName (pe_name t)) targets) ->
  columnsOf [] targets acc
  = acc ++ List.map
             (fun t => (keyOfName (pe_name t),
                        mkColumn (pe_nullable t) (pe_type t)))
             targets.
Proof.
  induction targets as [|t l IH]; intros acc N; simpl.
  - rewrite app_nil_r. reflexivity.
  - assert (F : ~ In (keyOfName (pe_name t)) (List.map fst acc)).
    { intros I. apply NoDup_app in N. destruct N as (_ & D & _).
      apply (D _ (proj2 (list_elem_of_In _ _) I)). left. }
    rewrite (set_fresh _ _ acc F), IH.
    + rewrite <- app_assoc. reflexivity.
    + rewrite map_app. simpl. rewrite <- app_assoc. exact N.
Qed.

Section StarStatements.

Variables isArray isBit isJson isTime isTimestamp : string -> bool.
Variable getElementType : string -> string.

Notation parseExpression' :=
  (parseExpression isArray isBit isJson isTime isTimestamp getElementType).
Notation parseSelectStmt' :=
  (parseSelectStmt isArray isBit isJson isTime isTimestamp getElementType).
Notation parseFromItem' :=
  (parseFromItem isArray isBit isJson isTime isTimestamp getElementType).
Notation parseStmt' :=
  (parseStmt isArray isBit isJson isTime isTimestamp getElementType).

(** The schema and the name under which a relation is looked up and
    bound. *)
Definition schemaOf (relation : RangeVarT) (c : Context) : string :=
  match schemaname relation with
  | Some s => s
  | None => defaultSchema c
  end.

Definition nameOf (relation : RangeVarT) : string :=
  match rv_alias relation with
  | Some a => aliasname a
  | None => relname relation
  end.

Lemma bindRelation_run relation c h schemaTables :
  valid c h ->
  List.nth (tables c) (tablesCells h) [] = [] ->
  Js.get (schemaOf relation c)
    (List.nth (tablesBySchema c) (catalogCells h) [])
  = Some schemaTables ->
  exists d g,
    bindRelation relation c h = (Ok d, g)
    /\ List.nth (tables d) (tablesCells g) []
       = [(nameOf relation, Js.get (relname relation) schemaTables)].
Proof.
  intros [V W] S G. unfold bindRelation, schemaOf in *.
  rewrite bind_run, clone_run. mnorm.
  unfold readCatalog, readTables, writeTables, bind, ret. simpl.
  rewrite (List.app_nth1 _ _ _ W), G. simpl.
  eexists. eexists. split; [reflexivity|]. simpl.
  rewrite nth_fresh, S, nth_lookup, list_lookup_insert_eq
    by (rewrite length_app; simpl; lia).
  reflexivity.
Qed.

Lemma parseFromClause_one fromItem c h t h1 :
  valid c h ->
  List.nth (tables c) (tablesCells h) [] = [] ->
  parseFromItem' fromItem [] c false h = (Ok [t], h1) ->
  exists d g,
    parseFromClause parseFromItem' [fromItem] c h = (Ok d, g)
    /\ List.nth (tables d) (tablesCells g) []
       = [(pt_alias t, Some (scopeEntry t))].
Proof.
  intros [V W] S E.
  assert (X : extends h h1).
  { replace h1 with (snd (parseFromItem' fromItem [] c false h))
      by (rewrite E; reflexivity).
    apply framed_extends, parseFromItem_framed. }
  destruct (extends_reads c h h1 X) as [R _]. specialize (R V).
  unfold parseFromClause, collectFromItems. simpl foldM.
  rewrite !bind_run, E. mnorm. rewrite clone_run.
  unfold readTables, allocTables, bind, ret. simpl.
  eexists. eexists. split; [reflexivity|]. simpl.
  rewrite !nth_fresh, R, S. reflexivity.
Qed.

Lemma parseRangeVar_run relation c h schemaTables nullable l :
  Js.get (schemaOf relation c)
    (List.nth (tablesBySchema c) (catalogCells h) [])
  = Some schemaTables ->
  parseFromItem' (RangeVar relation) l c nullable h
  = (match Js.get (relname relation) schemaTables with
     | Some table =>
         Ok (l ++ [mkParsedTable (nameOf relation) (tbl_columns table)
                     nullable])
     | None => Throw (UnknownTable (nameOf relation))
     end, h).
Proof.
  intros G. rewrite parseFromItem_eq. simpl. unfold parseRangeVar.
  unfold schemaOf in G. unfold readCatalog. mnorm. rewrite G.
  destruct (Js.get (relname relation) schemaTables); reflexivity.
Qed.

(** From a context whose scope is empty, as the generator's is:
    [SELECT * FROM t], and [DELETE], [INSERT] and [UPDATE] of [t] with
    [RETURNING *], all give the columns of [t] in the order of
    [Object.keys], each with its type and nullability.  When the schema
    has no table [t], and [t] is not a member of [Object.prototype]
    either, the SELECT fails with [UnknownTable], and the other three
    with a [TypeError].  The name the table is bound to is not
    [__proto__], which an assignment does not make a property. *)
Theorem star_lists_the_columns relation c h schemaTables :
  valid c h ->
  List.nth (tables c) (tablesCells h) [] = [] ->
  nameOf relation <> "__proto__" ->
  Js.get (schemaOf relation c)
    (List.nth (tablesBySchema c) (catalogCells h) [])
  = Some schemaTables ->
  let select :=
    SelectStmt_ (SelectPlain (Some [star]) (Some [RangeVar relation]) None) in
  let modifying :=
    [ DeleteStmt relation (Some [star]); InsertStmt relation (Some [star]);
      UpdateStmt relation (Some [star]) ] in
  match Js.get (relname relation) schemaTables with
  | Some table =>
      NoDup (List.map fst (tbl_columns table)) ->
      Forall (fun s =>
                fst (parseStmt' s c h) = Ok (starColumns (tbl_columns table)))
        (select :: modifying)
  | None =>
      Js.inherited (relname relation) = false ->
      fst (parseStmt' select c h) = Throw (UnknownTable (nameOf relation))
      /\ Forall (fun s => fst (parseStmt' s c h) = Throw TypeError) modifying
  end.
Proof.
  intros V S _ G select modifying.
  destruct (bindRelation_run relation c h schemaTables V S G)
    as (d & g & B & Sd).
  pose proof (parseRangeVar_run relation c h schemaTables false [] G) as P.
  assert (M : forall r,
             Forall (fun s => fst (parseStmt' s c h) = r) modifying
             <-> fst (bind (bindRelation relation c)
                        (parseTargets parseExpression' (Some [star])) h)
                 = r).
  { intros r. split.
    - intros F. apply Forall_cons in F. destruct F as [F1 _].
      rewrite parseStmt_eq in F1. exact F1.
    - intros E. repeat constructor; rewrite parseStmt_eq; exact E. }
  destruct (Js.get (relname relation) schemaTables) as [table|] eqn:T.
  - intros N. constructor.
    + unfold select. rewrite parseStmt_eq. cbn [parseStmtBody].
      rewrite parseSelectStmt_eq. unfold parseSelectStmtBody. mnorm.
      destruct (parseFromClause_one (RangeVar relation) c h _ h V S P)
        as (d' & g' & F & Sd').
      rewrite F. cbv beta iota zeta.
      rewrite (star_one_table parseExpression' d' g' _ _ Sd' N).
      reflexivity.
    + apply M. rewrite bind_run, B.
      rewrite (star_one_table parseExpression' d g _ _ Sd N). reflexivity.
  - intros _. split.
    + unfold select. rewrite parseStmt_eq. cbn [parseStmtBody].
      rewrite parseSelectStmt_eq. unfold parseSelectStmtBody. mnorm.
      unfold parseFromClause, collectFromItems. simpl foldM.
      change (parseRangeVar relation [] c false)
        with (parseFromItem' (RangeVar relation) [] c false).
      rewrite !bind_run, P. reflexivity.
    + apply M. rewrite bind_run, B.
      rewrite (star_no_table parseExpression' d g _ Sd). reflexivity.
Qed.


(** A column qualified by the alias of a table of the FROM clause gets
    the type and the nullability the catalog gives it; qualified by
    the name of the table instead, it is not found, because the table
    is in scope under its alias only.  The name of the table is not a
    member of [Object.prototype], which every scope has, and the alias
    is not [__proto__], which an assignment does not make a
    property. *)
Theorem alias_hides_table_name relation alias c h schemaTables table column
  col :
  valid c h ->
  List.nth (tables c) (tablesCells h) [] = [] ->
  Js.get (schemaOf relation c)
    (List.nth (tablesBySchema c) (catalogCells h) [])
  = Some schemaTables ->
  Js.get (relname relation) schemaTables = Some table ->
  Js.get column (tbl_columns table) = Some col ->
  column <> "" ->
  rv_alias relation = Some alias ->
  aliasname alias <> relname relation ->
  aliasname alias <> "__proto__" ->
  Js.inherited (relname relation) = false ->
  let selecting qualifier :=
    SelectPlain
      (Some [mkResTarget None 0
               (ColumnRef [FString qualifier; FString column])])
      (Some [RangeVar relation]) None in
  fst (parseSelectStmt' (selecting (aliasname alias)) c h)
  = Ok [ mkParsedExpression None (Some column) (col_nullable col) None
           (col_type col) None ]
  /\ fst (parseSelectStmt' (selecting (relname relation)) c h)
     = Throw (UnknownColumn [FString (relname relation); FString column]).
Proof.
  intros V S G T C N A D _ _ selecting.
  pose proof (parseRangeVar_run relation c h schemaTables false [] G) as P.
  rewrite T in P. simpl in P.
  destruct (parseFromClause_one (RangeVar relation) c h _ h V S P)
    as (d & g & F & Sd).
  simpl in Sd. unfold nameOf in Sd. rewrite A in Sd.
  assert (R : forall qualifier,
             fst (parseSelectStmt' (selecting qualifier) c h)
             = fst (parseTargets parseExpression'
                      (Some [mkResTarget None 0
                               (ColumnRef [FString qualifier;
                                           FString column])]) d g)).
  { intros qualifier. unfold selecting. rewrite parseSelectStmt_eq.
    unfold parseSelectStmtBody. mnorm. rewrite F. reflexivity. }
  assert (E : Js.truthy column = true).
  { unfold Js.truthy. destruct (String.eqb_spec column ""); [contradiction|].
    reflexivity. }
  split; rewrite R; unfold parseTargets, parseTargetList; simpl foldM;
    unfold targetStep; simpl; mnorm;
    unfold parseColumnRef, readTables; mnorm; simpl; mnorm;
    rewrite Sd; unfold lookupTable; simpl.
  - rewrite String.eqb_refl. simpl. mnorm. unfold scopeEntry. simpl.
    rewrite C. simpl. rewrite E. reflexivity.
  - destruct (String.eqb_spec (relname relation) (aliasname alias)) as [X|X];
      [exfalso; apply D; symmetry; exact X |].
    reflexivity.
Qed.

End StarStatements.

(** ** Common table expressions *)

Definition catalogTable (catalog : TablesBySchema) (schema table : string)
  : option Table :=
  match Js.get schema catalog with
  | Some tables => Js.get table tables
  | None => None
  end.

Section CommonTables.

Variables isArray isBit isJson isTime isTimestamp : string -> bool.
Variable getElementType : string -> string.

Notation parseStmt' :=
  (parseStmt isArray isBit isJson isTime isTimestamp getElementType).


End CommonTables.

(** ** Queries of several statements *)

Lemma mapM_local {A B} c (f : A -> M B) l : forall h h0,
  (forall x, framed (f x)) ->
  (forall x, related c c eq (f x) (f x)) ->
  sameCells c h c h0 ->
  fst (mapM f l h) = mapO (fun x => fst (f x h0)) l.
Proof.
  induction l as [|x l IH]; intros h h0 F R S; [reflexivity|].
  simpl. rewrite bind_run.
  pose proof (related_outcome c c (f x) (f x) h h0 (R x) S) as E.
  pose proof (framed_extends (f x) h (F x)) as X.
  destruct (f x h) as [[y|e] h1]; simpl in E; rewrite <- E; simpl;
    [| reflexivity].
  assert (S1 : sameCells c h1 c h0).
  { apply sameCells_extends with (h1 := h) (h2 := h0); [exact S | exact X |].
    split; reflexivity. }
  rewrite bind_run. specialize (IH h1 h0 F R S1).
  destruct (mapM f l h1) as [[ys|e] h2]; simpl in IH; rewrite <- IH;
    reflexivity.
Qed.

Section Queries.

Variables isArray isBit isJson isTime isTimestamp : string -> bool.
Variable getElementType : string -> string.
Variable parse : string -> outcome (list RawStmt).
Variable prettierFormat : string -> outcome string.

Notation generate' :=
  (generate isArray isBit isJson isTime isTimestamp getElementType parse
     prettierFormat).
Notation renderStmt' :=
  (renderStmt isArray isBit isJson isTime isTimestamp getElementType
     prettierFormat).


End Queries.

(** ** The type of a set operation *)

Lemma Forall2_nth_error {A B} (P : A -> B -> Prop) l k j x :
  Forall2 P l k -> List.nth_error l j = Some x ->
  exists y, List.nth_error k j = Some y /\ P x y.
Proof.
  intros F. revert j. induction F as [|a b l k Pab F IH]; intros j E.
  - destruct j; discriminate E.
  - destruct j as [|j]; simpl in *.
    + inversion E; subst. eauto.
    + apply IH, E.
Qed.

Lemma mapO_seq {B C} (f : nat -> outcome C) (g : B -> outcome C) l :
  forall a,
    (forall j x, List.nth_error l j = Some x -> f (a + j) = g x) ->
    mapO f (List.seq a (List.length l)) = mapO g l.
Proof.
  induction l as [|x l IH]; intros a E; [reflexivity|].
  simpl. rewrite <- (E 0 x eq_refl), Nat.add_0_r.
  rewrite (IH (S a)); [reflexivity|].
  intros j y Ey. rewrite <- (E (S j) y Ey). f_equal. lia.
Qed.

(** Column [j] of the variants of each result column, against the
    columns of one operand. *)
Lemma variant_row {C} (F : ParsedExpression -> outcome C) j out :
  forall columns,
    (forall i o,
        List.nth_error out i = Some o ->
        exists set e,
          pe_set o = Some set /\ List.nth_error set j = Some e
          /\ List.nth_error columns i = Some e) ->
    mapO (fun t =>
            obind (req (pe_set t)) (fun set =>
            obind (req (List.nth_error set j)) (fun e => F e)))
         out
    = mapO F (take (List.length out) columns).
Proof.
  induction out as [|o out IH]; intros columns H; [reflexivity|].
  destruct (H 0 o eq_refl) as (set & e & Es & Ee & Ec).
  destruct columns as [|e' columns]; [discriminate Ec|].
  simpl in Ec. inversion Ec; subst e'. simpl.
  rewrite Es. simpl. rewrite Ee. simpl.
  rewrite (IH columns); [reflexivity|].
  intros i o' Eo. apply (H (S i) o' Eo).
Qed.

Lemma combineSets_set larg : forall rarg out,
  combineSets larg rarg = Ok out ->
  Forall (fun o => pe_set o = Some (variantsOf o)) out.
Proof.
  induction larg as [|l ls IH]; intros [|r rs] out E; simpl in E;
    try discriminate E.
  - inversion E; subst. constructor.
  - inversion E; subst. constructor.
  - destruct (combineSets ls rs) as [more|e] eqn:Em; simpl in E;
      [| discriminate E].
    inversion E; subst. constructor; [reflexivity | apply (IH rs), Em].
Qed.

Section UnionTypes.

Variables isArray isBit isJson isTime isTimestamp : string -> bool.
Variable getElementType : string -> string.

Notation parseSelectStmt' :=
  (parseSelectStmt isArray isBit isJson isTime isTimestamp getElementType).
Notation answers' :=
  (answers isArray isBit isJson isTime isTimestamp getElementType).
Notation plainOperands' :=
  (plainOperands isArray isBit isJson isTime isTimestamp getElementType).

Variable c : Context.
Variable h : heap.

(** The object type of the first [k] columns of an operand. *)
Definition alternative (context : Context) (k : nat)
  (columns : list ParsedResultTarget) : outcome string :=
  formatSource (take k columns) context.

Lemma alternative_plain context k e columns :
  noVariants e ->
  alternative context (S k) (e :: columns)
  = obind (mapO (fun x => formatExpression x context)
             (take (S k) (e :: columns)))
      (fun cs => Ok (Js.join " " (["{"] ++ cs ++ ["}"]))).
Proof.
  intros N. unfold alternative, formatSource. simpl.
  unfold everySet. simpl. rewrite N. reflexivity.
Qed.

(** The source text of a set operation whose operands' own columns
    carry no variants. *)
Lemma union_source s out h' :
  valid c h ->
  plainOperands' c h s ->
  parseSelectStmt' s c h = (Ok out, h') ->
  out <> [] ->
  exists results,
    answers' c h (operands s) results
    /\ forall context,
        formatSource out context
        = obind (mapO (alternative context (List.length out)) results)
            (fun alternatives => Ok (Js.join " | " alternatives)).
Proof.
  intros V P R N.
  destruct (flattens_all isArray isBit isJson isTime isTimestamp
              getElementType c h s P h out h' (sameCells_refl c h V) R)
    as (results & A & C).
  exists results. split; [exact A|]. intros context.
  assert (PR : forall j columns,
             List.nth_error results j = Some columns ->
             Forall noVariants columns).
  { intros j columns E.
    assert (F : Forall2 (fun columns query =>
                           fst (parseSelectStmt' query c h) = Ok columns)
                  results (operands s)).
    { clear - A. induction A; constructor; assumption. }
    destruct (Forall2_nth_error _ _ _ _ _ F E) as (query & Eq & Ea).
    apply (P query columns); [| exact Ea].
    apply (List.nth_error_In _ _ Eq). }
  destruct out as [|first rest]; [contradiction|]. clear N.
  destruct (C 0 first eq_refl) as (C0 & _).
  destruct s as [tl fc wc | larg rarg | vl].
  - (* a single query *)
    simpl in A. inversion A as [|? cols ? ? E A']; subst.
    inversion A'; subst. rewrite R in E. simpl in E. inversion E; subst.
    simpl mapO. unfold alternative at 1.
    change (S (List.length rest)) with (List.length (first :: rest)).
    rewrite firstn_all. destruct (formatSource (first :: rest) context);
      reflexivity.
  - (* a set operation *)
    rewrite parseSelectStmt_eq in R. simpl in R.
    apply bind_inv_Ok in R. destruct R as (lres & g1 & _ & R).
    apply bind_inv_Ok in R. destruct R as (rres & g2 & _ & R).
    unfold lift in R.
    destruct (combineSets lres rres) as [out'|e] eqn:Ec; [| discriminate R].
    inversion R; subst; clear R.
    pose proof (combineSets_set _ _ _ Ec) as HS.
    assert (ES : everySet (first :: rest) = true).
    { unfold everySet. apply forallb_forall. intros t I.
      rewrite (proj1 (List.Forall_forall _ _) HS t I). reflexivity. }
    unfold formatSource. rewrite ES.
    rewrite (proj1 (List.Forall_forall _ _) HS first (or_introl eq_refl)).
    simpl obind at 1.
    assert (L : @List.length ParsedExpression (variantsOf first)
                = List.length results)
      by (symmetry; apply (Forall2_length _ _ _ C0)).
    rewrite L.
    rewrite (mapO_seq _ (alternative context (List.length (first :: rest)))
               results 0); [reflexivity|].
    intros j columns Ej. simpl Nat.add. unfold formatVariant.
    assert (H0 : exists e tl, columns = e :: tl /\ noVariants e).
    { destruct (Forall2_nth_error _ _ _ _ _ C0 Ej) as (v & _ & E0).
      destruct columns as [|e tl]; [discriminate E0|].
      exists e, tl. split; [reflexivity|].
      pose proof (PR j _ Ej) as F. apply Forall_cons in F. apply F. }
    destruct H0 as (e & tl & -> & Ne).
    change (List.length (first :: rest)) with (S (List.length rest)).
    rewrite (alternative_plain context (List.length rest) e tl Ne).
    f_equal.
    rewrite (variant_row (fun x => formatExpression x context) j
               (first :: rest) (e :: tl)); [reflexivity|].
    intros i o Eo. destruct (C i o Eo) as (Ci & _).
    destruct (Forall2_nth_error _ _ _ _ _ Ci Ej) as (v & Ev & Ec').
    exists (variantsOf o), v. split; [| split; assumption].
    apply (proj1 (List.Forall_forall _ _) HS o), (List.nth_error_In _ _ Eo).
  - (* VALUES *)
    simpl in A. inversion A as [|? cols ? ? E A']; subst.
    inversion A'; subst. rewrite R in E. simpl in E. inversion E; subst.
    simpl mapO. unfold alternative at 1.
    change (S (List.length rest)) with (List.length (first :: rest)).
    rewrite firstn_all. destruct (formatSource (first :: rest) context);
      reflexivity.
Qed.


End UnionTypes.

(** ** The catalog built from the rows of the database *)

Definition sameColumn (schema table column : string) (row : ColumnRow)
  : bool :=
  String.eqb schema (cr_schema row) && String.eqb table (cr_table row)
  && String.eqb column (cr_column row).

Definition sameTable (schema table : string) (row : ColumnRow) : bool :=
  String.eqb schema (cr_schema row) && String.eqb table (cr_table row).

Lemma set_set {V} k (v v' : V) o :
  Js.set k v (Js.set k v' o) = Js.set k v o.
Proof.
  induction o as [|[k0 v0] o IH]; simpl.
  - rewrite String.eqb_refl. reflexivity.
  - destruct (String.eqb_spec k k0) as [->|D]; simpl.
    + rewrite String.eqb_refl. reflexivity.
    + destruct (String.eqb_spec k k0); [contradiction|]. rewrite IH.
      reflexivity.
Qed.

(** [addColumn] in one step. *)
Lemma addColumn_eq acc row :
  addColumn acc row
  = let tables := default [] (Js.get (cr_schema row) acc) in
    let table := default (mkTable [] false) (Js.get (cr_table row) tables) in
    Js.set (cr_schema row)
      (Js.set (cr_table row)
         (mkTable
            (Js.set (cr_column row)
               (mkColumn (cr_nullable row) (cr_type row))
               (tbl_columns table))
            (tbl_nullable table))
         tables)
      acc.
Proof.
  unfold addColumn. destruct row as [s t col ty n]. simpl.
  destruct (Js.get s acc) as [tables|] eqn:Gs; simpl.
  - rewrite Gs. destruct (Js.get t tables) as [tbl|] eqn:Gt; simpl.
    + rewrite Gt. reflexivity.
    + rewrite get_set, String.eqb_refl, set_set. reflexivity.
  - rewrite get_set, String.eqb_refl. simpl.
    rewrite !String.eqb_refl, !set_set. reflexivity.
Qed.

Lemma addColumn_column acc row schema table column :
  catalogColumn (addColumn acc row) schema table column
  = if sameColumn schema table column row
    then Some (mkColumn (cr_nullable row) (cr_type row))
    else catalogColumn acc schema table column.
Proof.
  rewrite addColumn_eq. unfold catalogColumn, sameColumn.
  destruct row as [s t col ty n]. simpl. rewrite get_set.
  destruct (String.eqb_spec schema s) as [->|Ds]; simpl; [| reflexivity].
  rewrite get_set.
  destruct (String.eqb_spec table t) as [->|Dt]; simpl.
  - rewrite get_set. destruct (String.eqb column col); [reflexivity|].
    destruct (Js.get s acc) as [tables|]; simpl; [| reflexivity].
    destruct (Js.get t tables); reflexivity.
  - destruct (Js.get s acc); reflexivity.
Qed.

Lemma addColumn_nullable acc row :
  (forall schema table t,
      catalogTable acc schema table = Some t -> tbl_nullable t = false) ->
  forall schema table t,
    catalogTable (addColumn acc row) schema table = Some t ->
    tbl_nullable t = false.
Proof.
  intros H schema table t. rewrite addColumn_eq. unfold catalogTable in *.
  destruct row as [s tn col ty n]. simpl. rewrite get_set.
  destruct (String.eqb_spec schema s) as [->|Ds]; simpl.
  - rewrite get_set.
    destruct (String.eqb_spec table tn) as [->|Dt]; simpl.
    + intros E. inversion E; subst; clear E. simpl.
      specialize (H s tn).
      destruct (Js.get s acc) as [tables|]; simpl; [| reflexivity].
      destruct (Js.get tn tables) as [t0|]; simpl; [| reflexivity].
      apply (H t0 eq_refl).
    + specialize (H s table t).
      destruct (Js.get s acc) as [tables|]; simpl; [exact H|].
      intros E; discriminate E.
  - apply H.
Qed.

(** A row whose names the [reduce] of [getTablesBySchema] handles as
    names: its schema and its table are not members of
    [Object.prototype], which the tests [!acc[...]] would find, and its
    column is not [__proto__], which an assignment does not make a
    property. *)
Definition plainRow (row : ColumnRow) : Prop :=
  Js.inherited (cr_schema row) = false
  /\ Js.inherited (cr_table row) = false
  /\ cr_column row <> "__proto__".

(** The catalog built from column rows with plain names has, for each
    schema, table and column that some row names, the type and
    nullability of the last such row, and no column where there is no
    such row and the names are not members of [Object.prototype]; none
    of its tables is marked nullable. *)
Theorem columns_of_the_rows rows :
  Forall plainRow rows ->
  (forall schema table column,
      Js.inherited schema = false ->
      Js.inherited table = false ->
      Js.inherited column = false ->
      catalogColumn (loadColumns rows) schema table column
      = option_map (fun row => mkColumn (cr_nullable row) (cr_type row))
          (List.find (sameColumn schema table column) (List.rev rows)))
  /\ (forall schema table t,
        catalogTable (loadColumns rows) schema table = Some t ->
        tbl_nullable t = false).
Proof.
  intros _. unfold loadColumns. split.
  - intros schema table column _ _ _.
    assert (G : forall acc,
               catalogColumn (List.fold_left addColumn rows acc) schema
                 table column
               = match List.find (sameColumn schema table column)
                         (List.rev rows) with
                 | Some row =>
                     Some (mkColumn (cr_nullable row) (cr_type row))
                 | None => catalogColumn acc schema table column
                 end).
    { induction rows as [|row rows IH]; intros acc; simpl; [reflexivity|].
      rewrite IH, find_app_first. simpl.
      destruct (List.find _ (List.rev rows)); [reflexivity|].
      rewrite addColumn_column.
      destruct (sameColumn schema table column row); reflexivity. }
    rewrite G. destruct (List.find _ (List.rev rows)); reflexivity.
  - assert (G : forall acc,
               (forall schema table t,
                   catalogTable acc schema table = Some t ->
                   tbl_nullable t = false) ->
               forall schema table t,
                 catalogTable (List.fold_left addColumn rows acc) schema
                   table = Some t ->
                 tbl_nullable t = false).
    { induction rows as [|row rows IH]; intros acc H; simpl; [exact H|].
      apply IH, addColumn_nullable, H. }
    apply G. intros schema table t E. discriminate E.
Qed.

Lemma nth_written {A} l (v : A) cells d :
  l < List.length cells -> List.nth l (<[l := v]> cells) d = v.
Proof.
  intros L. rewrite nth_lookup, list_lookup_insert_eq by exact L.
  reflexivity.
Qed.

Lemma catalogTable_set_other (catalog : TablesBySchema) schema name t
  tables s n :
  Js.get schema catalog = Some tables ->
  ~ (s = schema /\ n = name) ->
  catalogTable (Js.set schema (Js.set name t tables) catalog) s n
  = catalogTable catalog s n.
Proof.
  intros G D. unfold catalogTable. rewrite get_set.
  destruct (String.eqb_spec s schema) as [->|N]; [| reflexivity].
  rewrite G, get_set.
  destruct (String.eqb_spec n name) as [->|N']; [| reflexivity].
  exfalso. apply D. split; reflexivity.
Qed.

Lemma catalogTable_new_schema (catalog : TablesBySchema) schema s n :
  Js.get schema catalog = None ->
  catalogTable (Js.set schema [] catalog) s n = catalogTable catalog s n.
Proof.
  intros G. unfold catalogTable. rewrite get_set.
  destruct (String.eqb_spec s schema) as [E|N]; [subst s | reflexivity].
  simpl. rewrite G. reflexivity.
Qed.

Section LoadedCatalog.

Variables isArray isBit isJson isTime isTimestamp : string -> bool.
Variable getElementType : string -> string.
Variable parse : string -> outcome (list RawStmt).

Notation loadView' :=
  (loadView isArray isBit isJson isTime isTimestamp getElementType parse).
Notation getTablesBySchema' :=
  (getTablesBySchema isArray isBit isJson isTime isTimestamp getElementType
     parse).
Notation parseStmt' :=
  (parseStmt isArray isBit isJson isTime isTimestamp getElementType).

Lemma loadView_protects nt nc c view :
  nc <= tablesBySchema c -> protects nt nc (loadView' c view).
Proof.
  intros L. unfold loadView.
  apply protects_bind; [apply protects_readCatalog | intros catalog].
  apply protects_bind.
  { destruct (Js.get (vr_schema view) catalog);
      [apply protects_ret | apply protects_writeCatalog, L]. }
  intros _.
  apply protects_bind; [apply protects_lift | intros rawStmts].
  apply protects_bind; [apply protects_defined | intros rawStmt].
  apply protects_bind; [apply parseStmt_framed | intros targets].
  apply protects_bind; [apply protects_readCatalog | intros catalog'].
  apply protects_bind; [apply protects_defined | intros tables].
  apply protects_writeCatalog, L.
Qed.

(** A view is written into its schema under its name, and nothing else
    of the catalog changes. *)
Lemma loadView_run c view g g' :
  tablesBySchema c < List.length (catalogCells g) ->
  loadView' c view g = (Ok tt, g') ->
  tablesBySchema c < List.length (catalogCells g')
  /\ forall s n,
      ~ (s = vr_schema view /\ n = vr_name view) ->
      catalogTable (List.nth (tablesBySchema c) (catalogCells g') []) s n
      = catalogTable (List.nth (tablesBySchema c) (catalogCells g) []) s n.
Proof.
  intros L H. unfold loadView in H.
  apply bind_inv_Ok in H. destruct H as (catalog & g0 & E0 & H).
  inversion E0; subst; clear E0.
  apply bind_inv_Ok in H. destruct H as (u & g1 & E1 & H).
  assert (X1 : tablesBySchema c < List.length (catalogCells g1)
               /\ (exists tables,
                      Js.get (vr_schema view)
                        (List.nth (tablesBySchema c) (catalogCells g1) [])
                      = Some tables)
               /\ forall s n,
                   catalogTable
                     (List.nth (tablesBySchema c) (catalogCells g1) []) s n
                   = catalogTable
                       (List.nth (tablesBySchema c) (catalogCells g0) []) s
                       n).
  { destruct (Js.get (vr_schema view)
                (List.nth (tablesBySchema c) (catalogCells g0) []))
      as [tables|] eqn:G.
    - inversion E1; subst. split; [exact L|]. split; [eauto | reflexivity].
    - inversion E1; subst. simpl. rewrite length_insert.
      split; [exact L|]. rewrite (nth_written _ _ _ _ L). split.
      + rewrite get_set, String.eqb_refl. eauto.
      + intros s n. apply catalogTable_new_schema, G. }
  destruct X1 as (L1 & (tables1 & G1) & K1).
  apply bind_inv_Ok in H. destruct H as (rawStmts & g2 & E2 & H).
  unfold lift in E2. destruct (parse (vr_definition view)); inversion E2.
  subst; clear E2.
  apply bind_inv_Ok in H. destruct H as (rawStmt & g3 & E3 & H).
  destruct (List.head rawStmts); inversion E3; subst; clear E3.
  apply bind_inv_Ok in H. destruct H as (targets & g4 & E4 & H).
  assert (X4 : extends g3 g4).
  { replace g4 with (snd (parseStmt' (raw_stmt rawStmt) c g3))
      by (unfold parseRawStmt in E4; rewrite E4; reflexivity).
    apply framed_extends, parseStmt_framed. }
  destruct X4 as [_ X4].
  assert (R4 : readCatalog (tablesBySchema c) g4
               = (Ok (List.nth (tablesBySchema c) (catalogCells g3) []), g4)).
  { unfold readCatalog. f_equal. f_equal. apply prefix_nth; assumption. }
  apply prefix_length in X4.
  apply bind_inv_Ok in H. destruct H as (catalog' & g5 & E5 & H).
  rewrite R4 in E5. inversion E5; subst; clear E5.
  apply bind_inv_Ok in H. destruct H as (tables & g6 & E6 & H).
  rewrite G1 in E6. inversion E6; subst; clear E6.
  inversion H; subst; clear H. simpl. rewrite length_insert.
  split; [lia|]. intros s n D.
  rewrite nth_written by lia.
  rewrite (catalogTable_set_other _ _ _ _ _ s n G1 D). apply K1.
Qed.

Lemma loadViews_run c views : forall g g',
  tablesBySchema c < List.length (catalogCells g) ->
  foldM (fun _ view => loadView' c view) views tt g = (Ok tt, g') ->
  tablesBySchema c < List.length (catalogCells g')
  /\ forall s n,
      (forall view, In view views ->
                    ~ (s = vr_schema view /\ n = vr_name view)) ->
      catalogTable (List.nth (tablesBySchema c) (catalogCells g') []) s n
      = catalogTable (List.nth (tablesBySchema c) (catalogCells g) []) s n.
Proof.
  induction views as [|view views IH]; intros g g' L H; simpl in H.
  - inversion H; subst. split; [exact L | reflexivity].
  - apply bind_inv_Ok in H. destruct H as ([] & g1 & E & H).
    destruct (loadView_run c view g g1 L E) as [L1 K1].
    destruct (IH g1 g' L1 H) as [L' K']. split; [exact L'|].
    intros s n D. rewrite K', K1; [reflexivity | |].
    + apply D. left. reflexivity.
    + intros v I. apply D. right. exact I.
Qed.


End LoadedCatalog.

(** ** Function calls *)

(** [array.some(f)] on outcomes. *)
Fixpoint someO {A} (f : A -> outcome bool) (l : list A) : outcome bool :=
  match l with
  | [] => Ok false
  | x :: r => obind (f x) (fun b => if b then Ok true else someO f r)
  end.

Lemma someM_local {A} c (f : A -> M bool) l : forall h h0,
  (forall x, framed (f x)) ->
  (forall x, related c c eq (f x) (f x)) ->
  sameCells c h c h0 ->
  fst (someM f l h) = someO (fun x => fst (f x h0)) l
  /\ sameCells c (snd (someM f l h)) c h0.
Proof.
  induction l as [|x l IH]; intros h h0 F R S; [split; [reflexivity | exact S]|].
  simpl. rewrite bind_run.
  pose proof (related_outcome c c (f x) (f x) h h0 (R x) S) as E.
  pose proof (framed_extends (f x) h (F x)) as X.
  assert (S1 : sameCells c (snd (f x h)) c h0).
  { apply sameCells_extends with (h1 := h) (h2 := h0); [exact S | exact X |].
    split; reflexivity. }
  destruct (f x h) as [[b|e] h1]; simpl in E, S1; rewrite <- E; simpl;
    [| split; [reflexivity | exact S1]].
  destruct b; [split; [reflexivity | exact S1]|].
  apply (IH h1 h0 F R S1).
Qed.

Lemma someO_ext {A} (f g : A -> outcome bool) l :
  (forall x, f x = g x) -> someO f l = someO g l.
Proof.
  intros E. induction l as [|x l IH]; simpl; [reflexivity|].
  rewrite E, IH. reflexivity.
Qed.

Lemma someO_results {A B} (F : A -> outcome B) (p : B -> bool) args results :
  Forall2 (fun arg r => F arg = Ok r) args results ->
  someO (fun arg => obind (F arg) (fun r => Ok (p r))) args
  = Ok (List.existsb p results).
Proof.
  induction 1 as [|arg r args results E F2 IH]; simpl; [reflexivity|].
  rewrite E. simpl. destruct (p r); [reflexivity | exact IH].
Qed.

Section FunctionCalls.

Variables isArray isBit isJson isTime isTimestamp : string -> bool.
Variable getElementType : string -> string.

Notation parseExpression' :=
  (parseExpression isArray isBit isJson isTime isTimestamp getElementType).

Lemma parseExpression_related e c :
  related c c eq (parseExpression' e c) (parseExpression' e c).
Proof.
  apply (proj1 (analyzer_related isArray isBit isJson isTime isTimestamp
                  getElementType)).
  split; reflexivity.
Qed.


End FunctionCalls.

(** ** The rendered type of a column *)

Lemma mapO_In {A B} (f : A -> outcome B) l : forall ys,
  mapO f l = Ok ys ->
  forall y, In y ys -> exists x, In x l /\ f x = Ok y.
Proof.
  induction l as [|x l IH]; intros ys E y I; simpl in E.
  - inversion E; subst. destruct I.
  - destruct (f x) as [y0|] eqn:Ex; simpl in E; [| discriminate E].
    destruct (mapO f l) as [ys0|] eqn:El; simpl in E; [| discriminate E].
    inversion E; subst. destruct I as [<-|I].
    + exists x. split; [left; reflexivity | exact Ex].
    + destruct (IH ys0 eq_refl y I) as (x' & I' & E').
      exists x'. split; [right; exact I' | exact E'].
Qed.

(** The branches of an expression: its [types] when it has them, else
    the expression itself. *)
Definition branchesOf (e : ParsedExpression) : list ParsedExpression :=
  match pe_types e with
  | Some types => types
  | None => [e]
  end.

(** A column is rendered by [formatFunc] from its name and a union
    whose members are all different: each is the literal or the mapped
    type of one of the branches of the expression, or [null], which is
    among them whenever the expression is nullable. *)
Theorem rendered_union_has_no_duplicates e c s :
  formatExpression e c = Ok s ->
  exists formatFunc' members,
    formatFunc c = Some formatFunc'
    /\ s = formatFunc' (nameOrEmpty (pe_name e)) (Js.join " | " members)
    /\ NoDup members
    /\ (pe_nullable e = true -> In "null" members)
    /\ forall m,
        In m members ->
        (m = "null" /\ pe_nullable e = true)
        \/ exists branch,
            In branch (branchesOf e)
            /\ tsTypeOf (mapType c) branch = Ok m.
Proof.
  unfold formatExpression. intros H.
  match type of H with
  | obind ?o _ = _ => destruct o as [tsTypes|] eqn:T
  end; simpl in H; [| discriminate H].
  destruct (formatFunc c) as [ff|]; simpl in H; [| discriminate H].
  inversion H; subst; clear H.
  exists ff. eexists. split; [reflexivity|]. split; [reflexivity|].
  assert (B : forall m, In m tsTypes ->
                exists branch,
                  In branch (branchesOf e)
                  /\ tsTypeOf (mapType c) branch = Ok m).
  { unfold branchesOf. destruct (pe_types e) as [types|].
    - intros m I. apply (mapO_In _ _ _ T m I).
    - destruct (tsTypeOf (mapType c) e) as [t|] eqn:E; simpl in T;
        [| discriminate T].
      inversion T; subst. intros m [<-|[]]. exists e.
      split; [left; reflexivity | exact E]. }
  unfold unique. split; [apply uniqueFrom_NoDup|]. split.
  - intros N. rewrite N. apply uniqueFrom_In. split; [| intros []].
    apply in_or_app. right. left. reflexivity.
  - intros m I. apply uniqueFrom_In in I. destruct I as [I _].
    destruct (pe_nullable e).
    + apply in_app_or in I. destruct I as [I|[<-|[]]].
      * right. apply B, I.
      * left. split; reflexivity.
    + right. apply B, I.
Qed.

(** * A worked generator

    A small catalog, the generator built on it with the default options,
    and the theorems above applied to it. *)

Module Example.

Import SpecUtilities.

Definition customer : Table :=
  mkTable [ ("customer_id", mkColumn false "int4");
            ("address_id", mkColumn false "int4");
            ("email", mkColumn true "text") ] false.

Definition address : Table :=
  mkTable [ ("address_id", mkColumn false "int4");
            ("address", mkColumn false "text");
            ("postal_code", mkColumn true "text") ] false.

Definition film : Table :=
  mkTable [ ("film_id", mkColumn false "int4");
            ("special_features", mkColumn true "text[]") ] false.

Definition catalog : TablesBySchema :=
  [ ("public",
     [ ("customer", customer); ("address", address); ("film", film) ]) ].

Definition mapper : string -> string :=
  typeMapper isArray getElementType [] [] "string".

Definition context : Context :=
  fst (createTypeGenerator "public" "string" defaultFormatFunc mapper
         catalog).

Definition store : heap :=
  snd (createTypeGenerator "public" "string" defaultFormatFunc mapper
         catalog).

(** The store when the scope of [context] holds the given tables. *)
Definition storeWith (scope : Tables) : heap := mkHeap [ scope ] [ catalog ].

Notation analyze :=
  (parseExpression isArray isBit isJson isTime isTimestamp getElementType).
Notation fromItem :=
  (parseFromItem isArray isBit isJson isTime isTimestamp getElementType).
Notation statement :=
  (parseStmt isArray isBit isJson isTime isTimestamp getElementType).

Definition table (name : string) (alias : string) : FromItem :=
  RangeVar (mkRangeVar (Some (mkAlias alias None)) name None).

Definition column (name : string) : Expression :=
  ColumnRef [FString name].

Definition target (name : string) (val : Expression) : ResTarget :=
  mkResTarget (Some name) 0 val.

Definition select (targets : list ResTarget) : SelectStmt :=
  SelectPlain (Some targets) None None.

Definition int (n : Z) : Expression := A_Const (Integer n).

(** [customer c LEFT JOIN address a] *)
Definition leftJoin : list FromItem :=
  [ JoinExpr JOIN_LEFT (table "customer" "c") (table "address" "a") ].


(** [SELECT a.address, c.customer_id FROM customer c LEFT JOIN address
    a]: the column of [a], which the catalog has as not nullable, is
    nullable; the column of [c] is as the catalog has it. *)
Example left_join_columns :
  Js.get "address" (tbl_columns address) = Some (mkColumn false "text")
  /\ fst (statement
            (SelectStmt_
               (SelectPlain
                  (Some [ mkResTarget None 0
                            (ColumnRef [FString "a"; FString "address"]);
                          mkResTarget None 0
                            (ColumnRef [FString "c"; FString "customer_id"]) ])
                  (Some leftJoin) None))
            context store)
     = Ok [ mkParsedExpression None (Some "address") true None "text" None;
            mkParsedExpression None (Some "customer_id") false None "int4"
              None ].
Proof. split; reflexivity. Qed.

(** [a LEFT JOIN (b JOIN c)]: the flag of the outer join does not reach
    the tables of a join nested on its right. *)
Example nested_right_join_not_marked :
  fromItem
    (JoinExpr JOIN_LEFT (table "film" "f")
       (JoinExpr JOIN_INNER (table "customer" "c") (table "address" "a")))
    [] context false store
  = (Ok [ mkParsedTable "f" (tbl_columns film) false;
          mkParsedTable "c" (tbl_columns customer) false;
          mkParsedTable "a" (tbl_columns address) false ], store).
Proof. reflexivity. Qed.

(** C1, at a failing input.  [SELECT c.customer_id FROM film f LEFT JOIN
    (customer c JOIN address a)]: the tables on the right of the LEFT
    JOIN are collected as not nullable, and the column of [c], which is
    NULL in the rows of [f] that have no match, is given as not
    nullable. *)
Theorem nested_join_misses_flag :
  fromItem
    (JoinExpr JOIN_LEFT (table "film" "f")
       (JoinExpr JOIN_INNER (table "customer" "c") (table "address" "a")))
    [] context false store
  = (Ok [ mkParsedTable "f" (tbl_columns film) false;
          mkParsedTable "c" (tbl_columns customer) false;
          mkParsedTable "a" (tbl_columns address) false ], store)
  /\ fst (statement
            (SelectStmt_
               (SelectPlain
                  (Some [ mkResTarget None 0
                            (ColumnRef [FString "c"; FString "customer_id"]) ])
                  (Some [ JoinExpr JOIN_LEFT (table "film" "f")
                            (JoinExpr JOIN_INNER (table "customer" "c")
                               (table "address" "a")) ])
                  None))
            context store)
     = Ok [ mkParsedExpression None (Some "customer_id") false None "int4"
              None ].
Proof. split; reflexivity. Qed.

(** [SELECT (SELECT 1 a UNION SELECT 2 a) x UNION SELECT 3 x] *)
Definition leakingUnion : Stmt :=
  SelectStmt_
    (SelectSetOp
       (select
          [ target "x"
              (SubLink EXPR_SUBLINK
                 (SelectSetOp (select [target "a" (int 1)])
                              (select [target "a" (int 2)]))
                 None None) ])
       (select [target "x" (int 3)])).

Definition constant (name : string) (n : Z) : ParsedExpression :=
  mkParsedExpression (Some (Js.toString n)) (Some name) false None "int4"
                     None.

(** C2, at a failing input. A set operation with two operand queries
    whose left operand selects a scalar subquery that is itself a UNION:
    the variants of the subquery ride along, and the column ends up with
    three set variants. *)
Theorem set_variants_leak :
  forall isArray isBit isJson isTime isTimestamp getElementType,
    parseStmt isArray isBit isJson isTime isTimestamp getElementType
      leakingUnion context store
    = (Ok [ mkParsedExpression None (Some "x") true
              (Some [ constant "a" 1; constant "a" 2; constant "x" 3 ])
              "int4" None ],
       store).
Proof. intros. reflexivity. Qed.

(** [SELECT 1 a UNION SELECT 2 a UNION SELECT 3 a] *)
Definition threeWay : SelectStmt :=
  SelectSetOp
    (SelectSetOp (select [target "a" (int 1)]) (select [target "a" (int 2)]))
    (select [target "a" (int 3)]).


(** [SELECT c.email FROM customer c] asked of the generator's context
    and of a context whose objects are at other addresses of a store
    that holds other objects as well. *)
Definition emailOfCustomer : Stmt :=
  SelectStmt_
    (SelectPlain
       (Some [ mkResTarget None 0 (ColumnRef [FString "c"; FString "email"]) ])
       (Some [ table "customer" "c" ]) None).

Definition elsewhere : Context := mkContext 1 "public" "string" None None 2.

Definition crowded : heap :=
  mkHeap [ [ ("film", Some film) ]; [] ] [ []; [ ("public", []) ]; catalog ].


Example email_of_customer :
  fst (statement emailOfCustomer elsewhere crowded)
  = Ok [ mkParsedExpression None (Some "email") true None "text" None ].
Proof. reflexivity. Qed.

(** [COALESCE(postal_code, address, $1)] with [address] in scope: the
    parameter is never looked at. *)
Definition coalesceArgs : list Expression :=
  [ column "postal_code"; column "address"; ParamRef 1 ].

Definition coalesceResult : ParsedExpression :=
  mkParsedExpression None None false None "text"
    (Some [ mkParsedExpression None (Some "postal_code") true None "text"
              None;
            mkParsedExpression None (Some "address") false None "text"
              None ]).

Lemma coalesce_truncation_witness :
  analyze (CoalesceExpr coalesceArgs) context
    (storeWith [("address", Some address)])
  = (Ok coalesceResult, storeWith [("address", Some address)])
  /\ analyze (CoalesceExpr [column "postal_code"; column "address"])
       context (storeWith [("address", Some address)])
     = (Ok coalesceResult, storeWith [("address", Some address)]).
Proof.
  split; [reflexivity|].
  refine (proj2 (coalesce_truncation isArray isBit isJson isTime
                   isTimestamp getElementType coalesceArgs context
                   (storeWith [("address", Some address)]) coalesceResult
                   (storeWith [("address", Some address)]) eq_refl)
            [column "postal_code"] (column "address") [ParamRef 1]
            _ _ _ _ eq_refl eq_refl eq_refl eq_refl).
Defined.

(** [CASE WHEN $1 THEN 1 WHEN $2 THEN 2 END] *)
Definition caseArgs : list CaseWhen :=
  [ mkCaseWhen (ParamRef 1) (int 1); mkCaseWhen (ParamRef 2) (int 2) ].

Definition caseResult : ParsedExpression :=
  mkParsedExpression None None true None "int4"
    (Some [ mkParsedExpression (Some "1") None false None "int4" None;
            mkParsedExpression (Some "2") None false None "int4" None ]).

Lemma case_branches_witness :
  analyze (CaseExpr caseArgs None) context store = (Ok caseResult, store)
  /\ formatExpression caseResult context
     = Ok (defaultFormatFunc EmptyString "1 | 2 | null")
  /\ exists results h1 first,
      inOrder (fun w => analyze (whenResult w) context) caseArgs store
        results h1
      /\ List.head results = Some first
      /\ pe_type caseResult = pe_type first
      /\ store = h1
      /\ pe_types caseResult = Some results
      /\ pe_nullable caseResult = true.
Proof.
  split; [reflexivity|]. split; [reflexivity|].
  destruct (case_branches isArray isBit isJson isTime isTimestamp
              getElementType caseArgs None context store caseResult store
              eq_refl)
    as (results & h1 & first & A & B & C & D & E & F & _).
  exists results, h1, first.
  exact (conj A (conj B (conj C (conj D (conj E F))))).
Defined.

Definition orders : Table := mkTable [ ("id", mkColumn false "int4") ] false.

Definition notes : Table := mkTable [ ("id", mkColumn true "text") ] false.

Definition twoTables : Tables := [ ("o", Some orders); ("n", Some notes) ].



(** [special_features[1]] and friends, with [film] in scope. *)
Definition features : ParsedExpression :=
  mkParsedExpression None (Some "special_features") true None "text[]" None.

Lemma subscript_types_witness :
  analyze (column "special_features") context
    (storeWith [("film", Some film)])
  = (Ok features, storeWith [("film", Some film)])
  /\ analyze
       (A_Indirection (column "special_features")
          [mkA_Indices false None (Some (int 1))])
       context (storeWith [("film", Some film)])
     = (Ok (expr true "text"), storeWith [("film", Some film)])
  /\ exists h',
      analyze
        (A_Indirection (column "special_features")
           [mkA_Indices true (Some (int 1)) (Some (int 2))])
        context (storeWith [("film", Some film)])
      = (Ok (expr (true || false || false) "text[]"), h').
Proof.
  split; [reflexivity|].
  pose proof (subscript_types isArray isBit isJson isTime isTimestamp
                getElementType (column "special_features")) as T.
  split.
  - refine (proj1 (proj2 (T [mkA_Indices false None (Some (int 1))]
                            context (storeWith [("film", Some film)])
                            features (storeWith [("film", Some film)])
                            eq_refl))
              eq_refl None (Some (int 1)) eq_refl).
  - refine (proj1 (T [mkA_Indices true (Some (int 1)) (Some (int 2))]
                     context (storeWith [("film", Some film)])
                     features (storeWith [("film", Some film)])
                     eq_refl)
              eq_refl (Some (int 1)) (Some (int 2)) false
              (storeWith [("film", Some film)]) false
              (storeWith [("film", Some film)]) eq_refl _ _);
      simpl; eexists; split; reflexivity.
Defined.

(** [SELECT 42 x], with a pretty-printer that returns its input. *)
Lemma literal_round_trip_witness :
  generate isArray isBit isJson isTime isTimestamp getElementType
    (fun _ => Ok [mkRawStmt (selectOne "x" 0 (int 42))])
    (fun source => Ok source) context "SELECT 42 x" store
  = (mkGenerateResult
       (Some [trim (stripTypeAlias
                      ("type T = "
                       +:+ Js.join " "
                             ["{"; defaultFormatFunc "x" "42"; "}"]))])
       None, store).
Proof.
  exact (proj1 (literal_round_trip isArray isBit isJson isTime isTimestamp
                  getElementType
                  (fun _ => Ok [mkRawStmt (selectOne "x" 0 (int 42))])
                  (fun source => Ok source) "x" 0 context store
                  defaultFormatFunc mapper eq_refl eq_refl eq_refl)
           42%Z "SELECT 42 x" eq_refl).
Defined.

Example select_42 :
  fst (generate isArray isBit isJson isTime isTimestamp getElementType
         (fun _ => Ok [mkRawStmt (selectOne "x" 0 (int 42))])
         (fun source => Ok source) context "SELECT 42 x" store)
  = mkGenerateResult (Some ["{ " +:+ dquote +:+ "x" +:+ dquote +:+ ": 42, }"])
      None.
Proof. reflexivity. Qed.

(** C7, at a failing input.  A SELECT of the string of the three
    characters [a], double quote, [b] under the alias [x]: the string
    is put between double quotes as it is, without escaping, so that
    the type handed to the pretty-printer for the column [x] has three
    double quotes and is no string literal type; the answer is the
    pretty-printer's, which for prettier is an error. *)
Theorem unescaped_quote_in_literal :
  forall prettierFormat,
    fst (generate isArray isBit isJson isTime isTimestamp getElementType
           (fun _ =>
              Ok [mkRawStmt
                    (selectOne "x" 0
                       (A_Const (String_ ("a" +:+ dquote +:+ "b"))))])
           prettierFormat context EmptyString store)
    = match prettierFormat
              ("type T = { " +:+ dquote +:+ "x" +:+ dquote +:+ ": "
               +:+ dquote +:+ "a" +:+ dquote +:+ "b" +:+ dquote +:+ ", }")
      with
      | Ok formatted =>
          mkGenerateResult (Some [trim (stripTypeAlias formatted)]) None
      | Throw e => mkGenerateResult None (Some e)
      end.
Proof.
  intros prettierFormat.
  erewrite (generate_one isArray isBit isJson isTime isTimestamp
              getElementType _ prettierFormat EmptyString context store
              (selectOne "x" 0 (A_Const (String_ ("a" +:+ dquote +:+ "b")))));
    reflexivity.
Qed.

(** The type mapper of the default options writes the type [null] as
    [null]. *)
Example mapper_null : mapper "null" = "null".
Proof. reflexivity. Qed.

(** [DELETE FROM film] answers with the empty object type. *)
Example delete_without_returning :
  fst (generate isArray isBit isJson isTime isTimestamp getElementType
         (fun _ => Ok [mkRawStmt (DeleteStmt (mkRangeVar None "film" None)
                                    None)])
         (fun source => Ok source) context EmptyString store)
  = mkGenerateResult (Some ["{[K in any]: never}"]) None.
Proof. reflexivity. Qed.

(** [1::int8] keeps the literal type of [1]. *)
Lemma names_and_literals_have_a_source_witness :
  (forall n,
      pe_name (mkParsedExpression (Some "1") None false None "int8" None)
      = Some n ->
      nameable (TypeCast (int 1) (mkTypeName None (Some ["int8"]))) = true)
  /\ (forall v,
        pe_constantValue
          (mkParsedExpression (Some "1") None false None "int8" None)
        = Some v ->
        literal (TypeCast (int 1) (mkTypeName None (Some ["int8"]))) = true).
Proof.
  exact (names_and_literals_have_a_source isArray isBit isJson isTime
           isTimestamp getElementType
           (TypeCast (int 1) (mkTypeName None (Some ["int8"])))
           context store _ store eq_refl).
Defined.

(** [SELECT 1 AS one, email] with [customer] in scope. *)
Lemma unnamed_targets_are_rejected_witness :
  Forall acceptable [ target "one" (int 1); mkResTarget None 0 (column "email") ].
Proof.
  exact (unnamed_targets_are_rejected isArray isBit isJson isTime
           isTimestamp getElementType
           [ target "one" (int 1); mkResTarget None 0 (column "email") ]
           context (storeWith [("customer", Some customer)]) _ _ eq_refl).
Defined.

(** [SELECT 1 + 1] has no name for its column. *)
Example sum_without_alias :
  parseTargetList analyze
    [ mkResTarget None 0 (A_Expr AEXPR_OP (Some (int 1)) ["+"] (Some (int 1))) ]
    context store
  = (Throw
       (MissingAlias
          (A_Expr AEXPR_OP (Some (int 1)) ["+"] (Some (int 1)))),
     store).
Proof. reflexivity. Qed.

(** [SELECT 1 AS a, 2 AS b, 3 AS a]: the second [a] takes the place of
    the first. *)
Lemma result_names_are_distinct_witness :
  NoDup (List.map pe_name [ constant "a" 3; constant "b" 2 ])
  /\ Forall (fun t => exists n, pe_name t = Some n)
       [ constant "a" 3; constant "b" 2 ].
Proof.
  exact (result_names_are_distinct analyze
           [ target "a" (int 1); target "b" (int 2); target "a" (int 3) ]
           context store _ store eq_refl).
Defined.

Lemma store_valid : valid context store.
Proof. split; simpl; lia. Qed.


(** [SELECT * FROM customer] and the three statements on [customer]
    with [RETURNING *]. *)
Lemma star_lists_the_columns_witness :
  Forall
    (fun s =>
       fst (statement s context store)
       = Ok [ mkParsedExpression None (Some "customer_id") false None
                "int4" None;
              mkParsedExpression None (Some "address_id") false None
                "int4" None;
              mkParsedExpression None (Some "email") true None "text"
                None ])
    [ SelectStmt_
        (SelectPlain (Some [star])
           (Some [RangeVar (mkRangeVar None "customer" None)]) None);
      DeleteStmt (mkRangeVar None "customer" None) (Some [star]);
      InsertStmt (mkRangeVar None "customer" None) (Some [star]);
      UpdateStmt (mkRangeVar None "customer" None) (Some [star]) ].
Proof.
  refine (star_lists_the_columns isArray isBit isJson isTime isTimestamp
            getElementType (mkRangeVar None "customer" None) context store
            [ ("customer", customer); ("address", address); ("film", film) ]
            store_valid eq_refl _ eq_refl _).
  - discriminate.
  - repeat constructor; simpl; intros I;
      repeat (apply elem_of_cons in I; destruct I as [I|I];
              [discriminate I|]);
      inversion I.
Defined.

(** [SELECT * FROM payment], a table the catalog does not have, and the
    three statements on it. *)
Example star_of_unknown_table :
  fst (statement
         (SelectStmt_
            (SelectPlain (Some [star])
               (Some [RangeVar (mkRangeVar None "payment" None)]) None))
         context store)
  = Throw (UnknownTable "payment")
  /\ Forall (fun s => fst (statement s context store) = Throw TypeError)
       [ DeleteStmt (mkRangeVar None "payment" None) (Some [star]);
         InsertStmt (mkRangeVar None "payment" None) (Some [star]);
         UpdateStmt (mkRangeVar None "payment" None) (Some [star]) ].
Proof. split; [reflexivity|]. repeat constructor. Qed.


(** [SELECT * FROM (SELECT 1 AS b, 2 AS "1") s]: a column whose name is
    an array index comes first. *)
Example index_named_column_comes_first :
  fst (parseSelectStmt isArray isBit isJson isTime isTimestamp
         getElementType
         (SelectPlain (Some [star])
            (Some [ RangeSubselect (mkAlias "s" None)
                      (select [target "b" (int 1); target "1" (int 2)]) ])
            None)
         context store)
  = Ok [ mkParsedExpression None (Some "1") false None "int4" None;
         mkParsedExpression None (Some "b") false None "int4" None ].
Proof. reflexivity. Qed.


(** A query of two statements, with a parser that knows it and a
    pretty-printer that changes nothing. *)
Definition twoStatements : list RawStmt :=
  [ mkRawStmt (SelectStmt_ (select [target "a" (int 1)]));
    mkRawStmt (DeleteStmt (mkRangeVar None "film" None) None) ].



Example three_way_union_type :
  format (fun source => Ok source)
    [ mkParsedExpression None (Some "a") false
        (Some [ constant "a" 1; constant "a" 2; constant "a" 3 ])
        "int4" None ] context
  = Ok ("{ " +:+ dquote +:+ "a" +:+ dquote +:+ ": 1, } | { " +:+ dquote
        +:+ "a" +:+ dquote +:+ ": 2, } | { " +:+ dquote +:+ "a" +:+ dquote
        +:+ ": 3, }").
Proof. reflexivity. Qed.

(** A database with one table and one view over it. *)
Definition rows : list ColumnRow :=
  [ mkColumnRow "shop" "customer" "customer_id" "int4" false;
    mkColumnRow "shop" "customer" "email" "text" true ].

Definition emails : ViewRow :=
  mkViewRow "shop" "emails" "SELECT email FROM shop.customer".

Definition parseView (definition : string) : outcome (list RawStmt) :=
  Ok [ mkRawStmt
         (SelectStmt_
            (SelectPlain (Some [mkResTarget None 0 (column "email")])
               (Some [RangeVar (mkRangeVar None "customer" (Some "shop"))])
               None)) ].


Example loaded_view :
  loadedCatalog isArray isBit isJson isTime isTimestamp getElementType
    parseView rows [emails] "public" "string" defaultFormatFunc mapper
  = Ok [ ("shop",
          [ ("customer",
             mkTable [ ("customer_id", mkColumn false "int4");
                       ("email", mkColumn true "text") ] false);
            ("emails", mkTable [ ("email", mkColumn true "text") ] false) ]);
         ("public", []) ].
Proof. reflexivity. Qed.

(** [SELECT c.email FROM customer c] and [SELECT customer.email FROM
    customer c]. *)
Lemma alias_hides_table_name_witness :
  fst (parseSelectStmt isArray isBit isJson isTime isTimestamp
         getElementType
         (SelectPlain
            (Some [mkResTarget None 0
                     (ColumnRef [FString "c"; FString "email"])])
            (Some [table "customer" "c"]) None)
         context store)
  = Ok [ mkParsedExpression None (Some "email") true None "text" None ]
  /\ fst (parseSelectStmt isArray isBit isJson isTime isTimestamp
            getElementType
            (SelectPlain
               (Some [mkResTarget None 0
                        (ColumnRef [FString "customer"; FString "email"])])
               (Some [table "customer" "c"]) None)
            context store)
     = Throw (UnknownColumn [FString "customer"; FString "email"]).
Proof.
  apply (alias_hides_table_name isArray isBit isJson isTime isTimestamp
           getElementType
           (mkRangeVar (Some (mkAlias "c" None)) "customer" None)
           (mkAlias "c" None) context store
           [ ("customer", customer); ("address", address); ("film", film) ]
           customer "email" (mkColumn true "text") store_valid);
    try reflexivity; discriminate.
Defined.


(** A nullable column whose branches are of the types [text], [varchar]
    and [int4]: [string] is listed once. *)
Lemma rendered_union_has_no_duplicates_witness :
  exists formatFunc' members,
    formatFunc context = Some formatFunc'
    /\ dquote +:+ "x" +:+ dquote +:+ ": string | number | null,"
       = formatFunc' "x" (Js.join " | " members)
    /\ NoDup members
    /\ In "null" members
    /\ forall m,
        In m members ->
        m = "null"
        \/ exists branch,
            In branch [ expr false "text"; expr false "varchar";
                        expr false "int4" ]
            /\ tsTypeOf (mapType context) branch = Ok m.
Proof.
  destruct (rendered_union_has_no_duplicates
              (mkParsedExpression None (Some "x") true None "text"
                 (Some [ expr false "text"; expr false "varchar";
                         expr false "int4" ]))
              context
              (dquote +:+ "x" +:+ dquote +:+ ": string | number | null,")
              eq_refl)
    as (f & members & F & E & N & I & B).
  exists f, members. repeat split; try assumption.
  - apply I. reflexivity.
  - intros m M. destruct (B m M) as [[-> _]|X]; [left; reflexivity|right; exact X].
Defined.

(** The rows of [customer]. *)
Lemma columns_of_the_rows_witness :
  (forall schema table column,
      Js.inherited schema = false ->
      Js.inherited table = false ->
      Js.inherited column = false ->
      catalogColumn (loadColumns rows) schema table column
      = option_map (fun row => mkColumn (cr_nullable row) (cr_type row))
          (List.find (sameColumn schema table column) (List.rev rows)))
  /\ (forall schema table t,
        catalogTable (loadColumns rows) schema table = Some t ->
        tbl_nullable t = false).
Proof.
  apply (columns_of_the_rows rows).
  repeat constructor; discriminate.
Defined.

End Example.
